(** * The user service library: record store accessor and token codec

    A shallow embedding of [src/services/user/user-lib.ts]: the two store
    accessors [getUser] and [updateUser], and the token codec
    [encodeToken] / [decodeToken].

    The four functions are short; what they do is decided by the platform
    calls they make.  Those calls are modelled here as executable
    functions, one per call, each named after the JavaScript call it
    stands for:

    - [split]                   [String.prototype.split] with a one-unit separator
    - [Buffer_from_utf8]        [Buffer.from(str)]
    - [Buffer_toString_utf8]    [buf.toString()]
    - [Buffer_toString_base64]  [buf.toString("base64")]
    - [Buffer_from_base64]      [Buffer.from(str, "base64")]
    - [createHmac_sha256_base64]
                                [crypto.createHmac("sha256", k).update(m).digest("base64")]
    - [JSON_stringify], [JSON_parse]
                                with [Number.toString] and [Number.read] for
                                the text of a number and the value of a
                                number literal
    - [findOne], [updateOne]    the MongoDB collection calls

    A JavaScript string is a sequence of UTF-16 code units, a buffer a
    sequence of bytes; both are lists of [N].  A number is an IEEE 754
    double, the [spec_float] of the standard library. *)

From Stdlib Require Import NArith ZArith List String Ascii Lia Bool.
From Stdlib Require Import DecimalFacts DecimalPos DecimalN SpecFloat.
From stdpp Require Import gmap strings.
Import ListNotations.

(** ** JavaScript strings *)

(** A string value: its UTF-16 code units, each below [2^16]. *)
Abbreviation jsstring := (list N) (only parsing).

(** The code unit of an ASCII character. *)
Definition cu (c : ascii) : N := N_of_ascii c.

(** An ASCII literal as a JavaScript string. *)
Fixpoint js (s : string) : jsstring :=
  match s with
  | EmptyString => []
  | String c r => cu c :: js r
  end.

(** [s.split(sep)] for a separator of one code unit: the pieces between
    the occurrences of [sep], all of them; never the empty array. *)
Fixpoint split (sep : N) (s : jsstring) : list jsstring :=
  match s with
  | [] => [[]]
  | c :: r =>
      if N.eqb c sep then [] :: split sep r
      else match split sep r with
           | p :: ps => (c :: p) :: ps
           | [] => [[c]]
           end
  end.

(** Truthiness of a destructured array element: [undefined] (the array
    is too short) and the empty string are falsy. *)
Definition falsy (x : option jsstring) : bool :=
  match x with
  | None => true
  | Some [] => true
  | Some (_ :: _) => false
  end.

Module Utf8.
Local Open Scope N_scope.

Definition is_high (c : N) : bool := (0xD800 <=? c) && (c <=? 0xDBFF).
Definition is_low (c : N) : bool := (0xDC00 <=? c) && (c <=? 0xDFFF).

(** The UTF-8 bytes of a code point. *)
Definition bytes_of_cp (cp : N) : list N :=
  if cp <? 0x80 then [cp]
  else if cp <? 0x800 then [0xC0 + cp / 64; 0x80 + cp mod 64]
  else if cp <? 0x10000 then
    [0xE0 + cp / 4096; 0x80 + cp / 64 mod 64; 0x80 + cp mod 64]
  else
    [0xF0 + cp / 262144; 0x80 + cp / 4096 mod 64;
     0x80 + cp / 64 mod 64; 0x80 + cp mod 64].

(** U+FFFD, which stands for whatever cannot be encoded or decoded. *)
Definition replacement : list N := [0xEF; 0xBF; 0xBD].

(** Encoding of a string: a surrogate pair is one code point, a lone
    surrogate is replaced. *)
Fixpoint encode (s : jsstring) : list N :=
  match s with
  | [] => []
  | c :: r =>
      if is_high c then
        match r with
        | d :: r' =>
            if is_low d
            then bytes_of_cp (0x10000 + (c - 0xD800) * 1024 + (d - 0xDC00))
                   ++ encode r'
            else replacement ++ encode r
        | [] => replacement
        end
      else if is_low c then replacement ++ encode r
      else bytes_of_cp c ++ encode r
  end.

(** The code units of a decoded code point. *)
Definition units_of_cp (cp : N) : jsstring :=
  if cp <? 0x10000 then [cp]
  else [0xD800 + (cp - 0x10000) / 1024; 0xDC00 + (cp - 0x10000) mod 1024].

(** The decoder is the state machine of the Encoding Standard: the code
    point read so far, the continuation bytes still needed, and the
    bounds of the next byte. *)
Record state := State { cp : N; need : N; lo : N; hi : N }.

Definition init : state := State 0 0 0x80 0xBF.

(** A byte read with no sequence open. *)
Definition lead (b : N) : jsstring * state :=
  if b <? 0x80 then ([b], init)
  else if (0xC2 <=? b) && (b <=? 0xDF) then ([], State (b - 0xC0) 1 0x80 0xBF)
  else if (0xE0 <=? b) && (b <=? 0xEF) then
    ([], State (b - 0xE0) 2 (if b =? 0xE0 then 0xA0 else 0x80)
                            (if b =? 0xED then 0x9F else 0xBF))
  else if (0xF0 <=? b) && (b <=? 0xF4) then
    ([], State (b - 0xF0) 3 (if b =? 0xF0 then 0x90 else 0x80)
                            (if b =? 0xF4 then 0x8F else 0xBF))
  else ([0xFFFD], init).

(** One byte: a continuation byte in bounds extends the sequence, any
    other closes it with U+FFFD and is read again as a lead byte. *)
Definition step (st : state) (b : N) : jsstring * state :=
  if need st =? 0 then lead b
  else if (lo st <=? b) && (b <=? hi st) then
    let cp' := cp st * 64 + (b - 0x80) in
    if need st =? 1 then (units_of_cp cp', init)
    else ([], State cp' (need st - 1) 0x80 0xBF)
  else let (out, st') := lead b in (0xFFFD :: out, st').

Fixpoint decode_from (st : state) (bs : list N) : jsstring :=
  match bs with
  | [] => if need st =? 0 then [] else [0xFFFD]
  | b :: r => let (out, st') := step st b in out ++ decode_from st' r
  end.

Definition decode (bs : list N) : jsstring := decode_from init bs.
End Utf8.

(** [Buffer.from(str)]: the UTF-8 bytes of the string. *)
Definition Buffer_from_utf8 (s : jsstring) : list N := Utf8.encode s.

(** [buf.toString()]: the bytes read as UTF-8. *)
Definition Buffer_toString_utf8 (bs : list N) : jsstring := Utf8.decode bs.

Module Base64.
Local Open Scope N_scope.

Definition alphabet : jsstring :=
  js "ABCDEFGHIJKLMNOPQRSTUVWXYZabcdefghijklmnopqrstuvwxyz0123456789+/".

Definition char (i : N) : N := nth (N.to_nat i) alphabet (cu "A").

Definition pad : N := cu "=".

(** Three bytes give four characters; the last group is padded. *)
Fixpoint encode (bs : list N) : jsstring :=
  match bs with
  | [] => []
  | b0 :: r0 =>
      match r0 with
      | [] => [char (b0 / 4); char (b0 mod 4 * 16); pad; pad]
      | b1 :: r1 =>
          match r1 with
          | [] => [char (b0 / 4); char (b0 mod 4 * 16 + b1 / 16);
                   char (b1 mod 16 * 4); pad]
          | b2 :: r2 =>
              char (b0 / 4) :: char (b0 mod 4 * 16 + b1 / 16)
                :: char (b1 mod 16 * 4 + b2 / 64) :: char (b2 mod 64)
                :: encode r2
          end
      end
  end.

(** The value of a character; the decoder reads both the standard and
    the URL-safe alphabet.  It looks at the low byte of a code unit
    only, so a unit above [0xFF] counts as the character of its low
    byte. *)
Definition value (c : N) : option N :=
  let b := c mod 256 in
  if (cu "A" <=? b) && (b <=? cu "Z") then Some (b - cu "A")
  else if (cu "a" <=? b) && (b <=? cu "z") then Some (b - cu "a" + 26)
  else if (cu "0" <=? b) && (b <=? cu "9") then Some (b - cu "0" + 52)
  else if (b =? cu "+") || (b =? cu "-") then Some 62
  else if (b =? cu "/") || (b =? cu "_") then Some 63
  else None.

(** Node's decoder is lenient: it skips every character outside the
    alphabet and stops at the first [=], read by its low byte too. *)
Fixpoint sextets (s : jsstring) : list N :=
  match s with
  | [] => []
  | c :: r =>
      match value c with
      | Some v => v :: sextets r
      | None => if c mod 256 =? pad then [] else sextets r
      end
  end.

(** Four sextets give three bytes; a last group of three gives two, of
    two gives one, a single one is dropped. *)
Fixpoint bytes (l : list N) : list N :=
  match l with
  | s0 :: s1 :: r1 =>
      (s0 * 4 + s1 / 16)
        :: match r1 with
           | [] => []
           | s2 :: r2 =>
               (s1 mod 16 * 16 + s2 / 4)
                 :: match r2 with
                    | [] => []
                    | s3 :: r3 => (s2 mod 4 * 64 + s3) :: bytes r3
                    end
           end
  | _ => []
  end.

Definition decode (s : jsstring) : list N := bytes (sextets s).
End Base64.

(** [buf.toString("base64")]. *)
Definition Buffer_toString_base64 (bs : list N) : jsstring := Base64.encode bs.

(** [Buffer.from(str, "base64")]. *)
Definition Buffer_from_base64 (s : jsstring) : list N := Base64.decode s.

(** SHA-256 (FIPS 180-4) on 32-bit words held in [N], and HMAC over it. *)
Module SHA256.
Local Open Scope N_scope.

Definition add32 (x y : N) : N := (x + y) mod 2 ^ 32.
Definition rotr (n x : N) : N :=
  N.lor (N.shiftr x n) (N.shiftl x (32 - n)) mod 2 ^ 32.
Definition not32 (x : N) : N := N.lxor x (2 ^ 32 - 1).
Definition Ch (x y z : N) : N := N.lxor (N.land x y) (N.land (not32 x) z).
Definition Maj (x y z : N) : N :=
  N.lxor (N.lxor (N.land x y) (N.land x z)) (N.land y z).
Definition bsig0 (x : N) : N := N.lxor (N.lxor (rotr 2 x) (rotr 13 x)) (rotr 22 x).
Definition bsig1 (x : N) : N := N.lxor (N.lxor (rotr 6 x) (rotr 11 x)) (rotr 25 x).
Definition ssig0 (x : N) : N := N.lxor (N.lxor (rotr 7 x) (rotr 18 x)) (N.shiftr x 3).
Definition ssig1 (x : N) : N := N.lxor (N.lxor (rotr 17 x) (rotr 19 x)) (N.shiftr x 10).

(** Primality by trial division. *)
Definition is_prime (n : N) : bool :=
  forallb (fun d => negb (n mod N.of_nat d =? 0)) (seq 2 (N.to_nat n - 2)).

(** The primes up to 311: the first 64. *)
Definition primes : list N := List.filter is_prime (map N.of_nat (seq 2 310)).

(** The integer cube root, bit by bit from the top. *)
Fixpoint cbrt_bits (bit : nat) (x r : N) : N :=
  match bit with
  | O => r
  | S b =>
      let r' := r + 2 ^ N.of_nat b in
      if r' * r' * r' <=? x then cbrt_bits b x r' else cbrt_bits b x r
  end.

Definition cbrt (x : N) : N := cbrt_bits 40 x 0.

(** The round constants: the first 32 bits of the fractional parts of
    the cube roots of the first 64 primes. *)
Definition K : list N :=
  Eval vm_compute in map (fun p => cbrt (p * 2 ^ 96) mod 2 ^ 32) primes.

Record state := State { sa : N; sb : N; sc : N; sd : N; se : N; sf : N; sg : N; sh : N }.

(** The initial hash value: the first 32 bits of the fractional parts
    of the square roots of the first 8 primes. *)
Definition H0 : state :=
  Eval vm_compute in
    match map (fun p => N.sqrt (p * 2 ^ 64) mod 2 ^ 32) primes with
    | a :: b :: c :: d :: e :: f :: g :: h :: _ => State a b c d e f g h
    | _ => State 0 0 0 0 0 0 0 0
    end.

(** The message, a one bit, zeros up to 56 modulo 64, and the bit
    length on eight bytes. *)
Definition pad (msg : list N) : list N :=
  let len := N.of_nat (length msg) in
  let zeros := (64 - (len + 9) mod 64) mod 64 in
  let bits := 8 * len in
  msg ++ [0x80] ++ repeat 0 (N.to_nat zeros)
      ++ map (fun i => bits / 2 ^ (8 * i) mod 256) [7; 6; 5; 4; 3; 2; 1; 0].

(** The first [n] big-endian words of a block. *)
Fixpoint words (n : nat) (bs : list N) : list N :=
  match n, bs with
  | S n, b0 :: b1 :: b2 :: b3 :: r =>
      (((b0 * 256 + b1) * 256 + b2) * 256 + b3) :: words n r
  | _, _ => []
  end.

(** The message schedule, [n] words more. *)
Fixpoint schedule (n : nat) (w : list N) : list N :=
  match n with
  | O => w
  | S n =>
      let t := length w in
      let x i := nth (t - i) w 0 in
      schedule n (w ++ [add32 (add32 (ssig1 (x 2%nat)) (x 7%nat))
                              (add32 (ssig0 (x 15%nat)) (x 16%nat))])
  end.

(** One round, on a constant and a word of the schedule. *)
Definition round (s : state) (kw : N * N) : state :=
  let '(State a b c d e f g h) := s in
  let t1 := add32 (add32 (add32 h (bsig1 e)) (add32 (Ch e f g) (fst kw))) (snd kw) in
  let t2 := add32 (bsig0 a) (Maj a b c) in
  State (add32 t1 t2) a b c (add32 d t1) e f g.

Definition compress (s : state) (block : list N) : state :=
  let w := schedule 48 (words 16 block) in
  let '(State a b c d e f g h) := fold_left round (combine K w) s in
  State (add32 (sa s) a) (add32 (sb s) b) (add32 (sc s) c) (add32 (sd s) d)
        (add32 (se s) e) (add32 (sf s) f) (add32 (sg s) g) (add32 (sh s) h).

(** The blocks of 64 bytes in turn; [n] bounds their number. *)
Fixpoint blocks (n : nat) (s : state) (bs : list N) : state :=
  match n, bs with
  | S n, _ :: _ => blocks n (compress s (firstn 64 bs)) (skipn 64 bs)
  | _, _ => s
  end.

Definition be32 (x : N) : list N :=
  [x / 2 ^ 24 mod 256; x / 2 ^ 16 mod 256; x / 2 ^ 8 mod 256; x mod 256].

Definition digest (s : state) : list N :=
  be32 (sa s) ++ be32 (sb s) ++ be32 (sc s) ++ be32 (sd s)
    ++ be32 (se s) ++ be32 (sf s) ++ be32 (sg s) ++ be32 (sh s).

Definition sha256 (msg : list N) : list N :=
  let p := pad msg in digest (blocks (length p) H0 p).

(** HMAC (RFC 2104) over SHA-256: block size 64. *)
Definition hmac (key msg : list N) : list N :=
  let k0 := if 64 <? N.of_nat (length key) then sha256 key else key in
  let k := k0 ++ repeat 0 (64 - length k0)%nat in
  sha256 (map (N.lxor 0x5c) k ++ sha256 (map (N.lxor 0x36) k ++ msg)).
End SHA256.

(** [crypto.createHmac("sha256", key).update(msg).digest("base64")]:
    key and message are strings, taken as their UTF-8 bytes. *)
Definition createHmac_sha256_base64 (key msg : jsstring) : jsstring :=
  Buffer_toString_base64
    (SHA256.hmac (Buffer_from_utf8 key) (Buffer_from_utf8 msg)).

(** ** Numbers *)

(** A number value is a double: a [spec_float], with the precision and
    the exponent bound of binary64.  A finite one is [m * 2 ^ e]; the
    pairs [(m, e)] that are doubles are those [bounded] accepts.  The
    two zeros are distinct values, as [Object.is] tells them apart. *)
Module Number.
Local Open Scope N_scope.

Definition prec : Z := 53.
Definition emax : Z := 1024.

#[global] Instance spec_float_eq_dec : EqDecision spec_float.
Proof. solve_decision. Defined.

Definition is_finite (x : spec_float) : bool :=
  match x with
  | S754_zero _ | S754_finite _ _ _ => true
  | S754_infinity _ | S754_nan => false
  end.

(** *** From decimal to binary *)

(** The double nearest to [m * 10 ^ d], ties to the even mantissa: the
    value of a decimal literal.  An integer is rounded as it stands, a
    fraction is the correctly rounded quotient by the power of ten.
    Far beyond the largest double the result is infinity, far below
    half the smallest it is zero; the two shortcuts spare the power of
    ten. *)
Definition of_positive_decimal (m : positive) (d : Z) : spec_float :=
  if (400 <? d)%Z then S754_infinity false
  else if (0 <=? d)%Z then binary_normalize prec emax (Zpos m * 10 ^ d) 0 false
  else if (Z.log2 (Zpos m) + 3 * d <? -1080)%Z then S754_zero false
  else SFdiv prec emax (S754_finite false m 0)
                       (S754_finite false (Z.to_pos (10 ^ (- d))) 0).

Definition of_decimal (neg : bool) (m : N) (d : Z) : spec_float :=
  match m with
  | N0 => S754_zero neg
  | Npos p => let x := of_positive_decimal p d in if neg then SFopp x else x
  end.

(** The double of an integer. *)
Definition of_Z (z : Z) : spec_float := of_decimal (z <? 0)%Z (Z.abs_N z) 0.

(** *** From binary to decimal *)

(** Decimal digits as characters. *)
Fixpoint chars_of_uint (d : Decimal.uint) : jsstring :=
  match d with
  | Decimal.Nil => []
  | Decimal.D0 r => cu "0" :: chars_of_uint r
  | Decimal.D1 r => cu "1" :: chars_of_uint r
  | Decimal.D2 r => cu "2" :: chars_of_uint r
  | Decimal.D3 r => cu "3" :: chars_of_uint r
  | Decimal.D4 r => cu "4" :: chars_of_uint r
  | Decimal.D5 r => cu "5" :: chars_of_uint r
  | Decimal.D6 r => cu "6" :: chars_of_uint r
  | Decimal.D7 r => cu "7" :: chars_of_uint r
  | Decimal.D8 r => cu "8" :: chars_of_uint r
  | Decimal.D9 r => cu "9" :: chars_of_uint r
  end.

(** The digits of an integer. *)
Definition digits (n : N) : jsstring := chars_of_uint (N.to_uint n).

(** [m * 2 ^ e] as a fraction. *)
Definition ratio (m : positive) (e : Z) : N * N :=
  if (0 <=? e)%Z then (Npos m * 2 ^ Z.to_N e, 1) else (Npos m, 2 ^ Z.to_N (- e)).

(** The zeros between the point and the first digit of [P / Q < 1]. *)
Fixpoint zeros_after_point (fuel : nat) (P Q : N) : nat :=
  match fuel with
  | O => O
  | S fuel => if Q <=? 10 * P then O else S (zeros_after_point fuel (10 * P) Q)
  end.

(** The [n] with [10 ^ (n - 1) <= P / Q < 10 ^ n]. *)
Definition magnitude (P Q : N) : Z :=
  if Q <=? P then Z.of_nat (length (digits (P / Q)))
  else (- Z.of_nat (zeros_after_point 400 P Q))%Z.

(** The digits of [s] with the point after the first [n] of them denote
    [x]: the decimal they write is read as [x]. *)
Definition denotes (x : spec_float) (c : N * Z) : bool :=
  bool_decide (of_decimal false (fst c) (snd c - Z.of_nat (length (digits (fst c)))) = x).

(** The [k]-digit decimal that denotes [x = P / Q], if there is one:
    it is one of the two next to [x], the nearer if both do, the even
    one if they are as near. *)
Definition candidate (x : spec_float) (P Q : N) (n k : Z) : option (N * Z) :=
  let (A, B) := if (n <=? k)%Z then (P * 10 ^ Z.to_N (k - n), Q)
                else (P, Q * 10 ^ Z.to_N (n - k)) in
  let lo := (A / B, n) in
  let hi := if A / B + 1 =? 10 ^ Z.to_N k then (10 ^ Z.to_N (k - 1), (n + 1)%Z)
            else (A / B + 1, n) in
  match denotes x lo, denotes x hi with
  | true, true =>
      match 2 * (A mod B) ?= B with
      | Lt => Some lo
      | Gt => Some hi
      | Eq => if N.even (A / B) then Some lo else Some hi
      end
  | true, false => Some lo
  | false, true => Some hi
  | false, false => None
  end.

(** The first [k] with such a decimal. *)
Fixpoint search (x : spec_float) (P Q : N) (n : Z) (fuel : nat) (k : Z) : option (N * Z) :=
  match fuel with
  | O => None
  | S fuel =>
      match candidate x P Q n k with
      | Some c => Some c
      | None => search x P Q n fuel (k + 1)
      end
  end.

(** All the digits of [m * 2 ^ e]: it is the integer [m * 2 ^ e], or
    [m * 5 ^ (- e)] with [- e] digits after the point. *)
Definition exact (m : positive) (e : Z) : N * Z :=
  let s := if (0 <=? e)%Z then Npos m * 2 ^ Z.to_N e else Npos m * 5 ^ Z.to_N (- e) in
  (s, (Z.min e 0 + Z.of_nat (length (digits s)))%Z).

(** The digits [Number::toString] prints and the place of the point:
    as few digits as denote the number.  Seventeen are enough for a
    double; all its digits denote it in any case. *)
Definition shortest (m : positive) (e : Z) : N * Z :=
  let (P, Q) := ratio m e in
  match search (S754_finite false m e) P Q (magnitude P Q) 17 1 with
  | Some c => c
  | None => exact m e
  end.

(** The digits laid out: plain up to 21 places before the point and 5
    zeros after it, with an exponent beyond. *)
Definition decimal_text (ds : jsstring) (n : Z) : jsstring :=
  let k := Z.of_nat (length ds) in
  if ((k <=? n) && (n <=? 21))%Z then ds ++ repeat (cu "0") (Z.to_nat (n - k))
  else if ((0 <? n) && (n <=? 21))%Z then
    take (Z.to_nat n) ds ++ cu "." :: drop (Z.to_nat n) ds
  else if ((-6 <? n) && (n <=? 0))%Z then
    js "0." ++ repeat (cu "0") (Z.to_nat (- n)) ++ ds
  else
    let exponent :=
      cu "e" :: (if (n - 1 <? 0)%Z then cu "-" else cu "+") :: digits (Z.abs_N (n - 1)) in
    match ds with
    | [] => exponent
    | [c] => c :: exponent
    | c :: r => c :: cu "." :: r ++ exponent
    end.

(** [Number.prototype.toString], radix ten. *)
Definition toString (x : spec_float) : jsstring :=
  match x with
  | S754_nan => js "NaN"
  | S754_zero _ => js "0"
  | S754_infinity s => if s then js "-Infinity" else js "Infinity"
  | S754_finite s m e =>
      let (s10, n) := shortest m e in
      (if s then [cu "-"] else []) ++ decimal_text (digits s10) n
  end.

(** *** Number literals *)

Definition is_digit (c : N) : bool := (cu "0" <=? c) && (c <=? cu "9").

(** The longest run of decimal digits. *)
Fixpoint read_digits (s : jsstring) : jsstring * jsstring :=
  match s with
  | [] => ([], [])
  | c :: r =>
      if is_digit c then let (ds, rest) := read_digits r in (c :: ds, rest)
      else ([], s)
  end.

Definition chars_value (ds : jsstring) : N :=
  fold_left (fun a c => a * 10 + (c - cu "0")) ds 0.

(** The integer part: no digits at all, or a zero before another
    digit, is a syntax error. *)
Definition read_integer (s : jsstring) : option (jsstring * jsstring) :=
  match read_digits s with
  | ([], _) => None
  | ([c], rest) => Some ([c], rest)
  | (c :: ds, rest) => if c =? cu "0" then None else Some (c :: ds, rest)
  end.

(** The fraction, if there is a point: a digit at least. *)
Definition read_fraction (s : jsstring) : option (jsstring * jsstring) :=
  match s with
  | c :: r =>
      if c =? cu "." then
        match read_digits r with
        | ([], _) => None
        | (ds, rest) => Some (ds, rest)
        end
      else Some ([], s)
  | [] => Some ([], [])
  end.

Definition read_sign (s : jsstring) : bool * jsstring :=
  match s with
  | c :: r =>
      if c =? cu "-" then (true, r)
      else if c =? cu "+" then (false, r)
      else (false, s)
  | [] => (false, [])
  end.

(** The exponent, if there is an [e]: a sign or none, a digit at
    least. *)
Definition read_exponent (s : jsstring) : option (Z * jsstring) :=
  match s with
  | c :: r =>
      if (c =? cu "e") || (c =? cu "E") then
        let (neg, r') := read_sign r in
        match read_digits r' with
        | ([], _) => None
        | (ds, rest) =>
            Some (if neg then (- Z.of_N (chars_value ds))%Z else Z.of_N (chars_value ds),
                  rest)
        end
      else Some (0%Z, s)
  | [] => Some (0%Z, [])
  end.

(** The digits of a literal after its sign, and its value. *)
Definition read_unsigned (neg : bool) (s : jsstring) : option (spec_float * jsstring) :=
  match read_integer s with
  | None => None
  | Some (int, s2) =>
      match read_fraction s2 with
      | None => None
      | Some (frac, s3) =>
          match read_exponent s3 with
          | None => None
          | Some (e, s4) =>
              Some (of_decimal neg (chars_value (int ++ frac))
                               (e - Z.of_nat (length frac)), s4)
          end
      end
  end.

(** A number literal in front of a text, and its value. *)
Definition read (s : jsstring) : option (spec_float * jsstring) :=
  match s with
  | c :: r => if c =? cu "-" then read_unsigned true r else read_unsigned false s
  | [] => None
  end.
End Number.

(** ** JSON *)

(** A value of the JSON data model as a program holds it.  A number is
    any double, also [NaN], the infinities and [-0], which JSON text
    cannot express.  An object lists its properties in enumeration
    order: the names that are array indices first, in ascending order,
    then the others in the order of their creation. *)
#[warnings="-register-all"]
Inductive json : Type :=
| JNull
| JBool (b : bool)
| JNumber (x : spec_float)
| JString (s : jsstring)
| JArray (elements : list json)
| JObject (members : list (jsstring * json)).

Module Json.
Local Open Scope N_scope.

(** *** Serialisation *)

(** A lower-case hexadecimal digit. *)
Definition hex_digit (d : N) : N :=
  nth (N.to_nat d) (js "0123456789abcdef") (cu "0").

(** The escape of a code unit on four hexadecimal digits. *)
Definition unicode_escape (c : N) : jsstring :=
  js "\u" ++ [hex_digit (c / 4096); hex_digit (c / 256 mod 16);
              hex_digit (c / 16 mod 16); hex_digit (c mod 16)].

Definition quote_mark : N := 34.
Definition backslash : N := 92.

(** The text of one code unit that is not a surrogate. *)
Definition quote_unit (c : N) : jsstring :=
  if c =? 8 then js "\b"
  else if c =? 9 then js "\t"
  else if c =? 10 then js "\n"
  else if c =? 12 then js "\f"
  else if c =? 13 then js "\r"
  else if c =? quote_mark then [backslash; quote_mark]
  else if c =? backslash then [backslash; backslash]
  else if c <? 32 then unicode_escape c
  else [c].

(** A surrogate pair goes through as it is, a lone surrogate is
    escaped. *)
Fixpoint quote_body (s : jsstring) : jsstring :=
  match s with
  | [] => []
  | c :: r =>
      if Utf8.is_high c then
        match r with
        | d :: r' =>
            if Utf8.is_low d then c :: d :: quote_body r'
            else unicode_escape c ++ quote_body r
        | [] => unicode_escape c
        end
      else if Utf8.is_low c then unicode_escape c ++ quote_body r
      else quote_unit c ++ quote_body r
  end.

(** The string literal of a string. *)
Definition QuoteJSONString (s : jsstring) : jsstring :=
  quote_mark :: quote_body s ++ [quote_mark].

Section Join.
Context {A : Type} (f : A -> jsstring) (close : N).

(** The items after the first, a comma before each, and the closing
    bracket. *)
Fixpoint join_tail (l : list A) : jsstring :=
  match l with
  | [] => [close]
  | x :: r => cu "," :: f x ++ join_tail r
  end.

(** The items separated by commas, then the closing bracket. *)
Definition join (l : list A) : jsstring :=
  match l with
  | [] => [close]
  | x :: r => f x ++ join_tail r
  end.
End Join.

(** [JSON.stringify(v)], with no indentation. *)
Fixpoint stringify (v : json) : jsstring :=
  match v with
  | JNull => js "null"
  | JBool true => js "true"
  | JBool false => js "false"
  | JNumber x => if Number.is_finite x then Number.toString x else js "null"
  | JString s => QuoteJSONString s
  | JArray l => cu "[" :: join stringify (cu "]") l
  | JObject l =>
      cu "{" :: join (fun kv => QuoteJSONString (fst kv) ++ cu ":" :: stringify (snd kv))
                     (cu "}") l
  end.

(** *** Parsing *)

Definition is_ws (c : N) : bool :=
  (c =? 9) || (c =? 10) || (c =? 13) || (c =? 32).

Fixpoint skip_ws (s : jsstring) : jsstring :=
  match s with
  | [] => []
  | c :: r => if is_ws c then skip_ws r else s
  end.

Fixpoint strip_prefix (p s : jsstring) : option jsstring :=
  match p, s with
  | [], _ => Some s
  | a :: p', b :: s' => if a =? b then strip_prefix p' s' else None
  | _ :: _, [] => None
  end.

Definition hex_value (c : N) : option N :=
  if (cu "0" <=? c) && (c <=? cu "9") then Some (c - cu "0")
  else if (cu "a" <=? c) && (c <=? cu "f") then Some (c - cu "a" + 10)
  else if (cu "A" <=? c) && (c <=? cu "F") then Some (c - cu "A" + 10)
  else None.

(** The character an escape letter stands for. *)
Definition unescape (e : N) : option N :=
  if e =? quote_mark then Some quote_mark
  else if e =? backslash then Some backslash
  else if e =? cu "/" then Some (cu "/")
  else if e =? cu "b" then Some 8
  else if e =? cu "f" then Some 12
  else if e =? cu "n" then Some 10
  else if e =? cu "r" then Some 13
  else if e =? cu "t" then Some 9
  else None.

(** The characters of a string literal after its opening quote, up to
    the closing one. *)
Fixpoint parse_chars (s : jsstring) : option (jsstring * jsstring) :=
  match s with
  | [] => None
  | c :: r =>
      if c =? quote_mark then Some ([], r)
      else if c =? backslash then
        match r with
        | [] => None
        | e :: r1 =>
            if e =? cu "u" then
              match r1 with
              | h3 :: h2 :: h1 :: h0 :: r2 =>
                  match hex_value h3, hex_value h2, hex_value h1, hex_value h0 with
                  | Some x3, Some x2, Some x1, Some x0 =>
                      match parse_chars r2 with
                      | Some (str, rest) =>
                          Some ((((x3 * 16 + x2) * 16 + x1) * 16 + x0) :: str, rest)
                      | None => None
                      end
                  | _, _, _, _ => None
                  end
              | _ => None
              end
            else
              match unescape e with
              | Some x =>
                  match parse_chars r1 with
                  | Some (str, rest) => Some (x :: str, rest)
                  | None => None
                  end
              | None => None
              end
        end
      else if c <? 32 then None
      else match parse_chars r with
           | Some (str, rest) => Some (c :: str, rest)
           | None => None
           end
  end.

(** A number literal, read as the double nearest to it. *)
Definition parse_number (s : jsstring) : option (json * jsstring) :=
  match Number.read s with
  | Some (x, rest) => Some (JNumber x, rest)
  | None => None
  end.

(** The array index a property name stands for: the name is the decimal
    text, with no zero in front, of an integer below [2^32 - 1]. *)
Definition array_index (k : jsstring) : option N :=
  match Number.read_integer k with
  | Some (ds, []) =>
      let i := Number.chars_value ds in
      if i <? 2 ^ 32 - 1 then Some i else None
  | _ => None
  end.

(** Whether a new property named [k] is listed before one named [k']:
    an array index comes before a greater one and before every other
    name. *)
Definition listed_before (k k' : jsstring) : bool :=
  match array_index k, array_index k' with
  | Some i, Some i' => i <? i'
  | Some _, None => true
  | None, _ => false
  end.

(** A new property takes its place in the enumeration order. *)
Fixpoint obj_add (k : jsstring) (v : json) (o : list (jsstring * json))
  : list (jsstring * json) :=
  match o with
  | [] => [(k, v)]
  | (k', v') :: r =>
      if listed_before k k' then (k, v) :: o else (k', v') :: obj_add k v r
  end.

(** A property that exists keeps its place. *)
Fixpoint obj_replace (k : jsstring) (v : json) (o : list (jsstring * json))
  : list (jsstring * json) :=
  match o with
  | [] => []
  | (k', v') :: r =>
      if decide (k' = k) then (k, v) :: r else (k', v') :: obj_replace k v r
  end.

(** [o[k] = v]. *)
Definition obj_set (k : jsstring) (v : json) (o : list (jsstring * json))
  : list (jsstring * json) :=
  if bool_decide (k ∈ map fst o) then obj_replace k v o else obj_add k v o.

(** The object of a member list read left to right: of two members
    with one name the later one gives the value. *)
Definition object_of_members (ms : list (jsstring * json)) : list (jsstring * json) :=
  fold_left (fun o kv => obj_set (fst kv) (snd kv) o) ms [].

(** The recursive descent: a value, the elements of an array after its
    bracket, the members of an object after its brace.  Every level of
    nesting and every item takes one unit of [fuel] and at least one
    character, so [parse] gives the length of the text. *)
Fixpoint parse_value (fuel : nat) (s : jsstring) : option (json * jsstring) :=
  match fuel with
  | O => None
  | S fuel =>
      match skip_ws s with
      | [] => None
      | c :: r =>
          if c =? cu "{" then
            match skip_ws r with
            | [] => None
            | c' :: r' =>
                if c' =? cu "}" then Some (JObject [], r')
                else match parse_members fuel r with
                     | Some (ms, rest) => Some (JObject (object_of_members ms), rest)
                     | None => None
                     end
            end
          else if c =? cu "[" then
            match skip_ws r with
            | [] => None
            | c' :: r' =>
                if c' =? cu "]" then Some (JArray [], r')
                else match parse_elements fuel r with
                     | Some (vs, rest) => Some (JArray vs, rest)
                     | None => None
                     end
            end
          else if c =? quote_mark then
            match parse_chars r with
            | Some (str, rest) => Some (JString str, rest)
            | None => None
            end
          else if c =? cu "n" then
            option_map (pair JNull) (strip_prefix (js "ull") r)
          else if c =? cu "t" then
            option_map (pair (JBool true)) (strip_prefix (js "rue") r)
          else if c =? cu "f" then
            option_map (pair (JBool false)) (strip_prefix (js "alse") r)
          else parse_number (c :: r)
      end
  end
with parse_elements (fuel : nat) (s : jsstring) : option (list json * jsstring) :=
  match fuel with
  | O => None
  | S fuel =>
      match parse_value fuel s with
      | None => None
      | Some (v, r) =>
          match skip_ws r with
          | [] => None
          | c :: r' =>
              if c =? cu "," then
                match parse_elements fuel r' with
                | Some (vs, rest) => Some (v :: vs, rest)
                | None => None
                end
              else if c =? cu "]" then Some ([v], r')
              else None
          end
      end
  end
with parse_members (fuel : nat) (s : jsstring)
  : option (list (jsstring * json) * jsstring) :=
  match fuel with
  | O => None
  | S fuel =>
      match skip_ws s with
      | [] => None
      | q :: r0 =>
          if q =? quote_mark then
            match parse_chars r0 with
            | None => None
            | Some (k, r1) =>
                match skip_ws r1 with
                | [] => None
                | colon :: r2 =>
                    if colon =? cu ":" then
                      match parse_value fuel r2 with
                      | None => None
                      | Some (v, r3) =>
                          match skip_ws r3 with
                          | [] => None
                          | c :: r4 =>
                              if c =? cu "," then
                                match parse_members fuel r4 with
                                | Some (ms, rest) => Some ((k, v) :: ms, rest)
                                | None => None
                                end
                              else if c =? cu "}" then Some ([(k, v)], r4)
                              else None
                          end
                      end
                    else None
                end
            end
          else None
      end
  end.

(** [JSON.parse(text)]: one value and nothing but white space after
    it; [None] is the [SyntaxError]. *)
Definition parse (text : jsstring) : option json :=
  match parse_value (S (length text)) text with
  | Some (v, rest) =>
      match skip_ws rest with
      | [] => Some v
      | _ :: _ => None
      end
  | None => None
  end.

(** *** The values JSON text expresses *)

(** A string of code units. *)
Definition is_string (s : jsstring) : bool := forallb (fun c => c <? 65536) s.

(** A finite double other than [-0]: [JSON.stringify] writes [-0] as
    [0], and [null] for what is not finite. *)
Definition is_number (x : spec_float) : bool :=
  match x with
  | S754_zero s => negb s
  | S754_finite _ m e => bounded Number.prec Number.emax m e
  | S754_infinity _ | S754_nan => false
  end.

(** Property names in enumeration order. *)
Fixpoint in_order (ks : list jsstring) : bool :=
  match ks with
  | [] => true
  | k :: r => forallb (fun k' => negb (listed_before k' k)) r && in_order r
  end.

(** A value as a program holds it and as JSON text carries it: strings
    of code units, numbers as above, objects whose properties have
    distinct names, in enumeration order. *)
Fixpoint is_json (v : json) : bool :=
  match v with
  | JNull | JBool _ => true
  | JNumber x => is_number x
  | JString s => is_string s
  | JArray l => forallb is_json l
  | JObject l =>
      bool_decide (NoDup (map fst l)) && in_order (map fst l)
        && forallb (fun kv => is_string (fst kv) && is_json (snd kv)) l
  end.
End Json.

Definition JSON_stringify : json -> jsstring := Json.stringify.
Definition JSON_parse : jsstring -> option json := Json.parse.

(** ** The token codec *)

(** What a call throws: an [Error] with its message, or the
    [SyntaxError] of [JSON.parse]. *)
Inductive exn : Type :=
| Error (message : string)
| SyntaxError.

(** A call returns a value or throws. *)
Inductive completion (A : Type) : Type :=
| Return (a : A)
| Throw (e : exn).
Arguments Return {A} a.
Arguments Throw {A} e.

(** The two errors [decodeToken] throws itself, under the names the
    specification gives them. *)
Definition MalformedToken : exn := Error "Invalid token format".
Definition InvalidSignature : exn := Error "Invalid token".

(** The object [encodeToken] returns: [{ token }], the optional
    [context] never set. *)
Record encoded := Encoded { token : jsstring; context : option json }.

(** The payload object [{ user, data }]. *)
Definition payload_of (user : jsstring) (data : json) : json :=
  JObject [(js "user", JString user); (js "data", data)].

Definition encodeToken (user : jsstring) (data : json) (secretKey : jsstring) : encoded :=
  let payload := payload_of user data in
  let encodedPayload := Buffer_toString_base64 (Buffer_from_utf8 (JSON_stringify payload)) in
  let signature := createHmac_sha256_base64 secretKey encodedPayload in
  let token := encodedPayload ++ cu "." :: signature in
  Encoded token None.

(** The parsed payload is returned as it is: the cast to the payload
    interface checks nothing. *)
Definition decodeToken (token secretKey : jsstring) : completion json :=
  let parts := split (cu ".") token in
  let encodedPayload := parts !! 0%nat in
  let signature := parts !! 1%nat in
  if falsy encodedPayload || falsy signature then Throw (Error "Invalid token format")
  else
    (* past the guard both are strings *)
    let encodedPayload := default [] encodedPayload in
    let signature := default [] signature in
    let expectedSignature := createHmac_sha256_base64 secretKey encodedPayload in
    if bool_decide (signature <> expectedSignature) then Throw (Error "Invalid token")
    else
      match JSON_parse (Buffer_toString_utf8 (Buffer_from_base64 encodedPayload)) with
      | Some payload => Return payload
      | None => Throw SyntaxError
      end.

(** *** The split as the specification words it *)

(** The text before the first [sep] and the text after it. *)
Fixpoint split_first (sep : N) (s : jsstring) : option (jsstring * jsstring) :=
  match s with
  | [] => None
  | c :: r =>
      if N.eqb c sep then Some ([], r)
      else match split_first sep r with
           | Some (a, b) => Some (c :: a, b)
           | None => None
           end
  end.

(** [decodeToken] with the two segments taken around the first [.]
    only, and the rest as in the code. *)
Definition decodeToken_first_dot (token secretKey : jsstring) : completion json :=
  match split_first (cu ".") token with
  | Some (encodedPayload, signature) =>
      if falsy (Some encodedPayload) || falsy (Some signature) then Throw MalformedToken
      else if bool_decide (signature <> createHmac_sha256_base64 secretKey encodedPayload)
      then Throw InvalidSignature
      else
        match JSON_parse (Buffer_toString_utf8 (Buffer_from_base64 encodedPayload)) with
        | Some payload => Return payload
        | None => Throw SyntaxError
        end
  | None => Throw MalformedToken
  end.

(** ** The record store *)

(** A stored field: a string, or the identifier the store gives a
    document it creates. *)
Inductive bson : Type :=
| BString (s : jsstring)
| BObjectId (n : N).

#[global] Instance bson_eq_dec : EqDecision bson.
Proof. solve_decision. Defined.

(** The server: the documents of each collection, in their natural
    order, and the next identifier.  A collection never written to is
    empty. *)
Record database := Database {
  next_oid : N;
  collections : gmap (string * string) (list (gmap string bson))
}.

(** Modelled from the spec: [DatabaseHelper.getCollection] of
    [database.js], which is not among the sources.  It gives the handle
    of the one collection named by a (domain, subdomain) pair, reached
    through the shared connection; the handle reads the documents the
    server holds under that name. *)
Definition getCollection (name : string * string) (db : database)
  : list (gmap string bson) :=
  default [] (collections db !! name).

(** An equality filter: every field of the filter is in the document
    with that value. *)
Definition matches (filter d : gmap string bson) : bool :=
  bool_decide (map_Forall (fun k v => d !! k = Some v) filter).

(** [collection.findOne(filter)]: the first match, or [null]. *)
Definition findOne (filter : gmap string bson) (c : list (gmap string bson))
  : option (gmap string bson) :=
  List.find (matches filter) c.

(** [$set] on the first match: the fields given replace those of the
    document, its other fields stay. *)
Fixpoint set_first (filter fields : gmap string bson) (c : list (gmap string bson))
  : option (list (gmap string bson)) :=
  match c with
  | [] => None
  | d :: r =>
      if matches filter d then Some ((fields ∪ d) :: r)
      else match set_first filter fields r with
           | Some r' => Some (d :: r')
           | None => None
           end
  end.

(** [collection.updateOne(filter, { $set: fields }, { upsert })]: with
    no match and [upsert], a document is created from the filter and the
    fields, under a fresh [_id]. *)
Definition updateOne (name : string * string) (filter fields : gmap string bson)
    (upsert : bool) (db : database) : database :=
  let c := getCollection name db in
  match set_first filter fields c with
  | Some c' => Database (next_oid db) (<[name := c']> (collections db))
  | None =>
      if upsert then
        let d := <["_id" := BObjectId (next_oid db)]> (fields ∪ filter) in
        Database (N.succ (next_oid db)) (<[name := c ++ [d]]> (collections db))
      else db
  end.

(** A settled promise. *)
Inductive promise (A : Type) : Type :=
| Resolved (a : A)
| Rejected (reason : string).
Arguments Resolved {A} a.
Arguments Rejected {A} reason.

(** Modelled from the spec: the type [UserFormat] of [user-formats.js],
    which is not among the sources.  It is the account record: an
    identifier, an email, a first name and a last name, all strings, the
    four fields [updateUser] reads. *)
Module UserFormat.
Record t := Make {
  id : jsstring;
  email : jsstring;
  firstname : jsstring;
  lastname : jsstring
}.
End UserFormat.

(** The two accessors.  [fault] tells whether the driver call inside the
    [try] throws; the [catch] turns that into ["InternalError"].  What
    [getUser] resolves to is the stored document, cast unchecked to
    [UserSchema].  The lines written to the console are left out. *)
Definition getUser (userId : jsstring) (fault : bool) (db : database)
  : promise (gmap string bson) :=
  let collection := getCollection ("user", "info") db in
  if fault then Rejected "InternalError"
  else
    match findOne {[ "id" := BString userId ]} collection with
    | Some user => Resolved user
    | None => Rejected "UserNotFound"
    end.

(** The four fields the update sets: the [$set] of [updateFilter]. *)
Definition updateFilter (userData : UserFormat.t) : gmap string bson :=
  {[ "id" := BString (UserFormat.id userData);
     "email" := BString (UserFormat.email userData);
     "firstname" := BString (UserFormat.firstname userData);
     "lastname" := BString (UserFormat.lastname userData) ]}.

Definition updateUser (userData : UserFormat.t) (fault : bool) (db : database)
  : promise unit * database :=
  if fault then (Rejected "InternalError", db)
  else
    (Resolved tt,
     updateOne ("user", "info") {[ "id" := BString (UserFormat.id userData) ]}
               (updateFilter userData) true db).

(** ** Notions the statements use *)

(** *** Text *)

(** A buffer holds bytes. *)
Definition is_bytes (bs : list N) : Prop := Forall (fun b => (b < 256)%N) bs.

(** Bytes in hexadecimal, as digests are printed. *)
Definition hex_of_bytes (bs : list N) : jsstring :=
  flat_map (fun b => [Json.hex_digit (b / 16); Json.hex_digit (b mod 16)]%N) bs.

(** The characters base64 text is made of. *)
Definition is_base64 (c : N) : bool :=
  bool_decide (c ∈ Base64.alphabet) || (c =? Base64.pad)%N.

(** Well-formed UTF-16: every surrogate is one of a pair. *)
Inductive wf16 : jsstring -> Prop :=
| wf16_nil : wf16 []
| wf16_unit c s :
    (c < 65536)%N -> Utf8.is_high c = false -> Utf8.is_low c = false ->
    wf16 s -> wf16 (c :: s)
| wf16_pair c d s :
    Utf8.is_high c = true -> Utf8.is_low d = true -> wf16 s -> wf16 (c :: d :: s).

(** A code unit that is not a surrogate. *)
Definition is_scalar_unit (c : N) : bool :=
  (c <? 65536)%N && negb (Utf8.is_high c) && negb (Utf8.is_low c).

(** *** Reading JSON text back *)

(** What reading one character in front of the text [t] of a string
    literal gives. *)
Definition then_chars (c : N) (t : jsstring) : option (jsstring * jsstring) :=
  match Json.parse_chars t with
  | Some (str, rest) => Some (c :: str, rest)
  | None => None
  end.

(** A text that would go on a number literal standing before it: a
    digit, a point or an exponent mark. *)
Definition continues_number (s : jsstring) : bool :=
  match s with
  | [] => false
  | c :: _ =>
      Number.is_digit c || (c =? cu ".")%N || (c =? cu "e")%N || (c =? cu "E")%N
  end.

(** The nesting and width of a value: the fuel its text takes to read. *)
Fixpoint size (v : json) : nat :=
  match v with
  | JArray l => S (list_sum (map (fun e => S (size e)) l))
  | JObject l => S (list_sum (map (fun kv => S (size (snd kv))) l))
  | _ => 1
  end.

(** The text of a value, whatever follows it that does not continue a
    number, reads back as the value, given fuel for its size. *)
Definition reads_back (v : json) : Prop :=
  forall fuel rest,
    (size v <= fuel)%nat -> continues_number rest = false ->
    Json.parse_value fuel (Json.stringify v ++ rest) = Some (v, rest).

(** The text of a member of an object. *)
Definition member_text (kv : jsstring * json) : jsstring :=
  Json.QuoteJSONString (fst kv) ++ cu ":" :: Json.stringify (snd kv).

(** *** Tokens *)

(** What [decodeToken] does once it holds its two segments. *)
Definition decode_segments (encodedPayload signature secretKey : jsstring)
  : completion json :=
  if falsy (Some encodedPayload) || falsy (Some signature) then Throw MalformedToken
  else if bool_decide (signature <> createHmac_sha256_base64 secretKey encodedPayload)
  then Throw InvalidSignature
  else
    match JSON_parse (Buffer_toString_utf8 (Buffer_from_base64 encodedPayload)) with
    | Some payload => Return payload
    | None => Throw SyntaxError
    end.

(** The segments of a token around its first [.]. *)
Definition first_segment (t : jsstring) : jsstring :=
  match split_first (cu ".") t with
  | Some (a, _) => a
  | None => t
  end.

Definition signature_segment (t : jsstring) : jsstring :=
  match split_first (cu ".") t with
  | Some (_, b) => b
  | None => []
  end.

(** The first segment [encodeToken] computes. *)
Definition encodedPayload_of (user : jsstring) (data : json) : jsstring :=
  Buffer_toString_base64 (Buffer_from_utf8 (JSON_stringify (payload_of user data))).

(** The same character sequence with the unit at [i] replaced. *)
Definition replace_at (i : nat) (c : N) (s : jsstring) : jsstring :=
  take i s ++ c :: drop (S i) s.

(** The payload shape [{ user: string, data, context?: object }]. *)
Definition has_payload_shape (v : json) : bool :=
  match v with
  | JObject ms =>
      match list_find (fun kv => fst kv = js "user") ms,
            list_find (fun kv => fst kv = js "data") ms with
      | Some (_, (_, JString _)), Some _ =>
          match list_find (fun kv => fst kv = js "context") ms with
          | Some (_, (_, JObject _)) | None => true
          | Some _ => false
          end
      | _, _ => false
      end
  | _ => false
  end.

(** The token and the payload of the specification's example. *)
Definition example_data : json := JObject [(js "role", JString (js "admin"))].
Definition example_token : jsstring :=
  token (encodeToken (js "u1") example_data (js "k1")).

(** A data value with numbers in it: a fraction, an integer beyond
    [2^53] and a negative power of ten, under an array index and a
    name. *)
Definition example_reading : json :=
  JObject [(js "7", JNumber (Number.of_decimal false 15 (-1)));
           (js "at", JArray [JNumber (Number.of_Z (2 ^ 53 + 2));
                             JNumber (Number.of_decimal true 1 21); JNull])].

(** *** The store *)

(** The collection of the accounts, and the filter on an identifier. *)
Definition user_info : string * string := ("user", "info").
Definition id_filter (userId : jsstring) : gmap string bson :=
  {[ "id" := BString userId ]}.

(** The store after a sequence of update calls, each with its fault. *)
Fixpoint run_updates (calls : list (UserFormat.t * bool)) (db : database) : database :=
  match calls with
  | [] => db
  | (userData, fault) :: r => run_updates r (snd (updateUser userData fault db))
  end.

Definition empty_database : database := Database 0 ∅.

(** A stored account with one more field, and an update of it. *)
Definition example_user : UserFormat.t :=
  UserFormat.Make (js "a1") (js "a@x.org") (js "Ann") (js "Lee").
Definition example_stored : gmap string bson :=
  <["_id" := BObjectId 0]>
    (<["role" := BString (js "admin")]> (updateFilter example_user)).
Definition example_database : database :=
  Database 1 {[ user_info := [example_stored] ]}.
Definition example_update : UserFormat.t :=
  UserFormat.Make (js "a1") (js "ann@y.org") (js "Ann") (js "Poe").
(** *** The store, further *)

(** The document of an account as [updateUser] creates it: the four
    fields under the identifier [oid] the store gives it. *)
Definition account_document (r : UserFormat.t) (oid : N) : gmap string bson :=
  <["_id" := BObjectId oid]> (updateFilter r).

(** The record of the last call, among those that did not fault, that
    carried the identifier [i]. *)
Fixpoint last_update (i : jsstring) (calls : list (UserFormat.t * bool))
  : option UserFormat.t :=
  match calls with
  | [] => None
  | (r, fault) :: rest =>
      match last_update i rest with
      | Some r' => Some r'
      | None =>
          if fault then None
          else if decide (UserFormat.id r = i) then Some r else None
      end
  end.

(** A collection of accounts in good order: every document is an account
    document, no two carry one identifier, no two one [_id], and every
    [_id] is below the next the store will give. *)
Definition well_kept (db : database) : Prop :=
  exists entries : list (UserFormat.t * N),
    getCollection user_info db = map (fun e => account_document (fst e) (snd e)) entries
    /\ NoDup (map (fun e => UserFormat.id (fst e)) entries)
    /\ NoDup (map snd entries)
    /\ Forall (fun e => (snd e < next_oid db)%N) entries.

(** * Properties *)

Ltac Zify.zify_post_hook ::= Z.to_euclidean_division_equations.

(** ** Splitting *)

Section Split.
Variable sep : N.

Lemma split_nonempty s : split sep s <> [].
Proof.
  destruct s as [|c r]; simpl; [discriminate|].
  destruct (N.eqb c sep); [discriminate|].
  destruct (split sep r); discriminate.
Qed.

Lemma split_without s : sep ∉ s -> split sep s = [s].
Proof.
  induction s as [|c r IH]; intros Hs; simpl; [reflexivity|].
  apply not_elem_of_cons in Hs as [Hc Hr].
  destruct (N.eqb_spec c sep); [congruence|].
  rewrite IH by assumption. reflexivity.
Qed.

Lemma split_app a b : sep ∉ a -> split sep (a ++ sep :: b) = a :: split sep b.
Proof.
  induction a as [|c r IH]; intros Ha; simpl.
  - rewrite N.eqb_refl. reflexivity.
  - apply not_elem_of_cons in Ha as [Hc Hr].
    destruct (N.eqb_spec c sep); [congruence|].
    rewrite IH by assumption. reflexivity.
Qed.

Lemma split_first_without s : sep ∉ s -> split_first sep s = None.
Proof.
  induction s as [|c r IH]; intros Hs; simpl; [reflexivity|].
  apply not_elem_of_cons in Hs as [Hc Hr].
  destruct (N.eqb_spec c sep); [congruence|].
  rewrite IH by assumption. reflexivity.
Qed.

Lemma split_first_app a b : sep ∉ a -> split_first sep (a ++ sep :: b) = Some (a, b).
Proof.
  induction a as [|c r IH]; intros Ha; simpl.
  - rewrite N.eqb_refl. reflexivity.
  - apply not_elem_of_cons in Ha as [Hc Hr].
    destruct (N.eqb_spec c sep); [congruence|].
    rewrite IH by assumption. reflexivity.
Qed.

(** A string with an occurrence of [sep] is cut at the first one. *)
Lemma cut_at_first s : sep ∈ s -> exists a b, s = a ++ sep :: b /\ sep ∉ a.
Proof.
  induction s as [|c r IH]; intros Hs.
  - apply elem_of_nil in Hs. contradiction.
  - destruct (N.eq_dec c sep) as [->|Hne].
    + exists [], r. split; [reflexivity|]. apply not_elem_of_nil.
    + apply elem_of_cons in Hs as [Hs|Hs]; [congruence|].
      destruct (IH Hs) as (a & b & -> & Ha).
      exists (c :: a), b. split; [reflexivity|].
      apply not_elem_of_cons. split; [congruence|assumption].
Qed.
End Split.

(** ** Base64 *)

Section Base64Facts.
Local Open Scope N_scope.

(** A property of the numbers below a bound, by checking each. *)
Lemma below_forallb (P : N -> bool) (n : nat) :
  forallb (fun i => P (N.of_nat i)) (seq 0 n) = true ->
  forall i, i < N.of_nat n -> P i = true.
Proof.
  intros H i Hi. rewrite forallb_forall in H.
  rewrite <- (N2Nat.id i). apply H. apply in_seq. lia.
Qed.

Lemma char_in_alphabet i : Base64.char i ∈ Base64.alphabet.
Proof.
  unfold Base64.char.
  destruct (Nat.lt_ge_cases (N.to_nat i) (length Base64.alphabet)) as [Hlt|Hge].
  - apply list_elem_of_In, nth_In, Hlt.
  - rewrite nth_overflow by exact Hge. apply list_elem_of_In. simpl. auto.
Qed.

(** What holds of every character of the alphabet holds of [char i]. *)
Lemma char_forallb (P : N -> bool) i :
  forallb P Base64.alphabet = true -> P (Base64.char i) = true.
Proof.
  intros H. rewrite forallb_forall in H. apply H.
  apply list_elem_of_In, char_in_alphabet.
Qed.

Lemma char_not_pad i : (Base64.char i =? Base64.pad) = false.
Proof.
  apply negb_true_iff.
  apply (char_forallb (fun c => negb (c =? Base64.pad))). reflexivity.
Qed.

Lemma value_char i : i < 64 -> Base64.value (Base64.char i) = Some i.
Proof.
  intros Hi.
  pose proof (below_forallb
    (fun i => bool_decide (Base64.value (Base64.char i) = Some i)) 64) as H.
  specialize (H ltac:(vm_compute; reflexivity) i Hi).
  apply bool_decide_eq_true in H. exact H.
Qed.

Lemma encode_is_base64 bs : forallb is_base64 (Base64.encode bs) = true.
Proof.
  assert (Hc : forall i, is_base64 (Base64.char i) = true).
  { intros i. unfold is_base64. apply orb_true_iff. left.
    apply bool_decide_eq_true_2, char_in_alphabet. }
  assert (Hp : is_base64 Base64.pad = true) by reflexivity.
  revert bs. fix IH 1. intros [|b0 [|b1 [|b2 r]]]; cbn [Base64.encode forallb].
  - reflexivity.
  - rewrite !Hc, Hp. reflexivity.
  - rewrite !Hc, Hp. reflexivity.
  - rewrite !Hc. apply IH.
Qed.

Lemma is_base64_not_dot c : is_base64 c = true -> c <> cu ".".
Proof.
  intros H ->. vm_compute in H. discriminate.
Qed.

Lemma encode_no_dot bs : cu "." ∉ Base64.encode bs.
Proof.
  intros Hin. pose proof (encode_is_base64 bs) as H.
  rewrite forallb_forall in H.
  apply list_elem_of_In in Hin. apply H in Hin.
  exact (is_base64_not_dot _ Hin eq_refl).
Qed.

Lemma encode_nonempty bs : bs <> [] -> Base64.encode bs <> [].
Proof. destruct bs as [|b0 [|b1 [|b2 r]]]; simpl; congruence. Qed.

Lemma decode_encode bs : is_bytes bs -> Base64.decode (Base64.encode bs) = bs.
Proof.
  unfold Base64.decode. revert bs. fix IH 1.
  intros [|b0 [|b1 [|b2 r]]] H; simpl.
  - reflexivity.
  - inversion_clear H as [|? ? H0 _].
    rewrite !value_char by lia. simpl.
    f_equal. lia.
  - inversion_clear H as [|? ? H0 H']. inversion_clear H' as [|? ? H1 _].
    rewrite !value_char by lia. simpl.
    f_equal; [lia|]. f_equal. lia.
  - inversion_clear H as [|? ? H0 H']. inversion_clear H' as [|? ? H1 H''].
    inversion_clear H'' as [|? ? H2 Hr].
    rewrite !value_char by lia.
    simpl. rewrite (IH r Hr).
    f_equal; [lia|]. f_equal; [lia|]. f_equal. lia.
Qed.
End Base64Facts.

(** ** SHA-256 and HMAC *)

Section Sha256Facts.
(** The test vectors of FIPS 180-2 and RFC 4231. *)
Example sha256_abc :
  hex_of_bytes (SHA256.sha256 (js "abc"))
  = js "ba7816bf8f01cfea414140de5dae2223b00361a396177a9cb410ff61f20015ad".
Proof. vm_compute. reflexivity. Qed.

Example sha256_two_blocks :
  hex_of_bytes (SHA256.sha256 (js "abcdbcdecdefdefgefghfghighijhijkijkljklmklmnlmnomnopnopq"))
  = js "248d6a61d20638b8e5c026930c3e6039a33ce45964ff2167f6ecedd419db06c1".
Proof. vm_compute. reflexivity. Qed.

Example round_constants :
  length SHA256.K = 64%nat
  /\ nth 0 SHA256.K 0%N = 0x428a2f98%N /\ nth 63 SHA256.K 0%N = 0xc67178f2%N
  /\ SHA256.sa SHA256.H0 = 0x6a09e667%N /\ SHA256.sh SHA256.H0 = 0x5be0cd19%N.
Proof. repeat split. Qed.

Example hmac_rfc4231_2 :
  hex_of_bytes (SHA256.hmac (js "Jefe") (js "what do ya want for nothing?"))
  = js "5bdcc146bf60754e6a042426089575c75a003f089d2739839dec58b964ec3843".
Proof. vm_compute. reflexivity. Qed.

(** A key longer than a block is hashed first. *)
Example hmac_rfc4231_6 :
  hex_of_bytes (SHA256.hmac (repeat 0xaa%N 131)
                  (js "Test Using Larger Than Block-Size Key - Hash Key First"))
  = js "60e431591ee0b67f0d8a26aacbf5b77f8e0bc6213728c5140546040f0ee37f54".
Proof. vm_compute. reflexivity. Qed.

Lemma digest_length s : length (SHA256.digest s) = 32%nat.
Proof. reflexivity. Qed.

Lemma sha256_length msg : length (SHA256.sha256 msg) = 32%nat.
Proof. apply digest_length. Qed.

Lemma hmac_length key msg : length (SHA256.hmac key msg) = 32%nat.
Proof. apply sha256_length. Qed.

Lemma signature_nonempty key msg : createHmac_sha256_base64 key msg <> [].
Proof.
  apply encode_nonempty. intros H.
  pose proof (hmac_length (Buffer_from_utf8 key) (Buffer_from_utf8 msg)) as L.
  rewrite H in L. discriminate.
Qed.

Lemma signature_no_dot key msg : cu "." ∉ createHmac_sha256_base64 key msg.
Proof. apply encode_no_dot. Qed.
End Sha256Facts.

(** ** The platform calls on known values *)

Section KnownValues.
Local Open Scope N_scope.

Example split_three : split (cu ".") (js "a.b.c") = [js "a"; js "b"; js "c"].
Proof. reflexivity. Qed.

Example split_empty : split (cu ".") [] = [[]].
Proof. reflexivity. Qed.

Example split_trailing : split (cu ".") (js "abc.") = [js "abc"; []].
Proof. reflexivity. Qed.

(** The test vectors of RFC 4648. *)
Example base64_rfc4648 :
  map Base64.encode [js ""; js "f"; js "fo"; js "foo"; js "foob"; js "fooba"; js "foobar"]
  = [js ""; js "Zg=="; js "Zm8="; js "Zm9v"; js "Zm9vYg=="; js "Zm9vYmE="; js "Zm9vYmFy"].
Proof. vm_compute. reflexivity. Qed.

(** The decoder takes text without padding, skips what is not of the
    alphabet, reads the URL-safe characters, and stops at a [=]. *)
Example base64_lenient :
  map Base64.decode [js "Zm8"; js "Zm 9v!"; js "-_-_"; js "Zg==Zm8="]
  = [js "fo"; js "foo"; [0xFB; 0xFF; 0xBF]; js "f"].
Proof. vm_compute. reflexivity. Qed.

(** A code unit above [0xFF] is read by its low byte: U+014D as [M],
    U+013D as [=]. *)
Example base64_low_byte :
  map Base64.decode [0x14D :: js "TIz"; js "MTIz" ++ 0x13D :: js "MTIz"; 0x2028 :: js "MTIz"]
  = [js "123"; js "123"; js "123"].
Proof. vm_compute. reflexivity. Qed.

(** One, two, three and four bytes; a lone surrogate is replaced. *)
Example utf8_encode_classes :
  Utf8.encode [0x41; 0xE9; 0x20AC; 0xD83D; 0xDE00; 0xD800; 0x42]
  = [0x41; 0xC3; 0xA9; 0xE2; 0x82; 0xAC; 0xF0; 0x9F; 0x98; 0x80; 0xEF; 0xBF; 0xBD; 0x42].
Proof. vm_compute. reflexivity. Qed.

(** An overlong form, a sequence cut short and an encoded surrogate
    decode to U+FFFD, one for each maximal ill-formed part. *)
Example utf8_decode_ill_formed :
  Utf8.decode [0xE0; 0x80; 0x41; 0xF0; 0x9F; 0x98; 0xC3; 0xA9; 0xED; 0xA0; 0x80]
  = [0xFFFD; 0xFFFD; 0x41; 0xFFFD; 0xE9; 0xFFFD; 0xFFFD; 0xFFFD].
Proof. vm_compute. reflexivity. Qed.

(** The doubles 100, 1.5, 0.1 and [2^53], from their decimals. *)
Example doubles :
  [Number.of_Z 100; Number.of_decimal false 15 (-1); Number.of_decimal false 1 (-1);
   Number.of_Z (2 ^ 53); Number.of_Z (-12)]
  = [S754_finite false 7036874417766400 (-46); S754_finite false 6755399441055744 (-52);
     S754_finite false 7205759403792794 (-56); S754_finite false 4503599627370496 1;
     S754_finite true 6755399441055744 (-49)].
Proof. vm_compute. reflexivity. Qed.

(** The layouts of [Number::toString]: plain digits up to [10^21], a
    point, zeros after the point down to [10^-6], an exponent beyond;
    a double prints the fewest digits that denote it. *)
Example number_toString :
  map Number.toString
    [S754_finite false 6755399441055744 (-52); S754_finite false 7205759403792794 (-56);
     S754_finite false 7535204407491802 14; S754_finite false 7629394531250000 17;
     S754_finite false 4722366482869645 (-72); S754_finite false 7555786372591432 (-76);
     S754_finite false 1 (-1074); S754_finite false 9007199254740991 971;
     S754_finite true 5404319552844595 (-54); S754_zero true]
  = [js "1.5"; js "0.1"; js "123456789012345680000"; js "1e+21"; js "0.000001";
     js "1e-7"; js "5e-324"; js "1.7976931348623157e+308"; js "-0.3"; js "0"].
Proof. vm_compute. reflexivity. Qed.

(** JSON text expresses every finite double but [-0]. *)
Example json_numbers :
  map Json.is_json
    [JNumber (Number.of_decimal false 15 (-1)); JNumber (Number.of_Z (2 ^ 53));
     JNumber (S754_finite false 1 (-1074)); JNumber (S754_zero true);
     JNumber S754_nan; JNumber (S754_infinity true)]
  = [true; true; true; false; false; false].
Proof. vm_compute. reflexivity. Qed.

Example stringify_plain :
  JSON_stringify (JArray [JNumber (Number.of_Z 0); JNumber (Number.of_Z (-12));
                          JNumber (Number.of_Z 9007199254740991);
                          JNumber (S754_zero true); JNumber S754_nan;
                          JNumber (S754_infinity false);
                          JNull; JBool true; JBool false; JArray []; JObject []])
  = js "[0,-12,9007199254740991,0,null,null,null,true,false,[],{}]".
Proof. vm_compute. reflexivity. Qed.

(** A line feed, a quote, a backslash, a control character, a pair of
    surrogates and a lone one. *)
Example stringify_escapes :
  JSON_stringify (JString [10; 34; 92; 31; 0xD83D; 0xDE00; 0xDC00; 0x2028; 47])
  = [34] ++ js "\n\" ++ [34] ++ js "\\\u001f" ++ [0xD83D; 0xDE00]
      ++ js "\udc00" ++ [0x2028; 47; 34].
Proof. vm_compute. reflexivity. Qed.

Example parse_white_space :
  JSON_parse (js " [ 1 , [ ] , { } , -0 ] ")
  = Some (JArray [JNumber (Number.of_Z 1); JArray []; JObject []; JNumber (S754_zero true)]).
Proof. vm_compute. reflexivity. Qed.

(** A fraction, an exponent, an integer no double holds, a literal
    beyond the largest double and one below the smallest. *)
Example parse_numbers :
  map JSON_parse [js "1.5"; js "1e2"; js "1E+2"; js "25e-1"; js "9007199254740993";
                  js "1e400"; js "-1e-400"]
  = [Some (JNumber (S754_finite false 6755399441055744 (-52)));
     Some (JNumber (S754_finite false 7036874417766400 (-46)));
     Some (JNumber (S754_finite false 7036874417766400 (-46)));
     Some (JNumber (S754_finite false 5629499534213120 (-51)));
     Some (JNumber (S754_finite false 4503599627370496 1));
     Some (JNumber (S754_infinity false));
     Some (JNumber (S754_zero true))].
Proof. vm_compute. reflexivity. Qed.

Example parse_rejects :
  map JSON_parse [js ""; js "01"; js "[1,]"; js "nul"; js "true false"; js "u1";
                  js "1."; js ".5"; js "1e"; js "+1"; js "-"; js "0x10"; js "NaN"]
  = [None; None; None; None; None; None; None; None; None; None; None; None; None].
Proof. vm_compute. reflexivity. Qed.

(** Of two members with one name the later gives the value, in the
    place of the first. *)
Example parse_repeated_name :
  JSON_parse (js "{" ++ Json.QuoteJSONString (js "a") ++ js ":1,"
                ++ Json.QuoteJSONString (js "b") ++ js ":2,"
                ++ Json.QuoteJSONString (js "a") ++ js ":3}")
  = Some (JObject [(js "a", JNumber (Number.of_Z 3)); (js "b", JNumber (Number.of_Z 2))]).
Proof. vm_compute. reflexivity. Qed.

(** The names that are array indices are listed first, in ascending
    order; [01] and [4294967295] are not array indices. *)
Example parse_member_order :
  option_map JSON_stringify
    (JSON_parse (js "{" ++ Json.QuoteJSONString (js "b") ++ js ":1,"
                   ++ Json.QuoteJSONString (js "10") ++ js ":2,"
                   ++ Json.QuoteJSONString (js "01") ++ js ":3,"
                   ++ Json.QuoteJSONString (js "9") ++ js ":4,"
                   ++ Json.QuoteJSONString (js "4294967295") ++ js ":5,"
                   ++ Json.QuoteJSONString (js "0") ++ js ":6}"))
  = Some (js "{" ++ Json.QuoteJSONString (js "0") ++ js ":6,"
            ++ Json.QuoteJSONString (js "9") ++ js ":4,"
            ++ Json.QuoteJSONString (js "10") ++ js ":2,"
            ++ Json.QuoteJSONString (js "b") ++ js ":1,"
            ++ Json.QuoteJSONString (js "01") ++ js ":3,"
            ++ Json.QuoteJSONString (js "4294967295") ++ js ":5}").
Proof. vm_compute. reflexivity. Qed.

Example parse_escapes :
  JSON_parse ([34] ++ js "\u0041\u00E9\/\t" ++ [34]) = Some (JString [0x41; 0xE9; 47; 9]).
Proof. vm_compute. reflexivity. Qed.
End KnownValues.

(** ** UTF-8 *)

Section Utf8Facts.
Local Open Scope N_scope.

Lemma surrogate_bounds c :
  (Utf8.is_high c = true <-> 0xD800 <= c <= 0xDBFF)
  /\ (Utf8.is_low c = true <-> 0xDC00 <= c <= 0xDFFF).
Proof.
  unfold Utf8.is_high, Utf8.is_low. rewrite !andb_true_iff, !N.leb_le. tauto.
Qed.

Lemma not_surrogate c :
  Utf8.is_high c = false -> Utf8.is_low c = false -> c < 0xD800 \/ 0xDFFF < c.
Proof.
  unfold Utf8.is_high, Utf8.is_low. rewrite !andb_false_iff, !N.leb_gt. lia.
Qed.

Lemma between a b c : a <= b <= c -> (a <=? b) && (b <=? c) = true.
Proof. intros [H1 H2]. apply andb_true_iff. rewrite !N.leb_le. auto. Qed.

Lemma not_between a b c : b < a \/ c < b -> (a <=? b) && (b <=? c) = false.
Proof. intros H. apply andb_false_iff. rewrite !N.leb_gt. exact H. Qed.

(** The decoder, byte class by byte class. *)
Lemma lead_1 b : b < 0x80 -> Utf8.lead b = ([b], Utf8.init).
Proof. intros H. unfold Utf8.lead. apply N.ltb_lt in H. rewrite H. reflexivity. Qed.

Lemma lead_2 b :
  0xC2 <= b <= 0xDF -> Utf8.lead b = ([], Utf8.State (b - 0xC0) 1 0x80 0xBF).
Proof.
  intros H. unfold Utf8.lead.
  replace (b <? 0x80) with false by (symmetry; apply N.ltb_ge; lia).
  rewrite between by exact H. reflexivity.
Qed.

Lemma lead_3 b :
  0xE0 <= b <= 0xEF ->
  Utf8.lead b = ([], Utf8.State (b - 0xE0) 2 (if b =? 0xE0 then 0xA0 else 0x80)
                                          (if b =? 0xED then 0x9F else 0xBF)).
Proof.
  intros H. unfold Utf8.lead.
  replace (b <? 0x80) with false by (symmetry; apply N.ltb_ge; lia).
  rewrite not_between by lia. rewrite between by exact H. reflexivity.
Qed.

Lemma lead_4 b :
  0xF0 <= b <= 0xF4 ->
  Utf8.lead b = ([], Utf8.State (b - 0xF0) 3 (if b =? 0xF0 then 0x90 else 0x80)
                                          (if b =? 0xF4 then 0x8F else 0xBF)).
Proof.
  intros H. unfold Utf8.lead.
  replace (b <? 0x80) with false by (symmetry; apply N.ltb_ge; lia).
  rewrite !not_between by lia. rewrite between by exact H. reflexivity.
Qed.

Lemma step_init b : Utf8.step Utf8.init b = Utf8.lead b.
Proof. reflexivity. Qed.

Lemma step_last x l h b :
  l <= b <= h ->
  Utf8.step (Utf8.State x 1 l h) b = (Utf8.units_of_cp (x * 64 + (b - 0x80)), Utf8.init).
Proof. intros H. unfold Utf8.step. simpl. rewrite between by exact H. reflexivity. Qed.

Lemma step_more x n l h b :
  1 < n -> l <= b <= h ->
  Utf8.step (Utf8.State x n l h) b = ([], Utf8.State (x * 64 + (b - 0x80)) (n - 1) 0x80 0xBF).
Proof.
  intros Hn H. unfold Utf8.step. cbn [Utf8.need Utf8.cp Utf8.lo Utf8.hi].
  replace (n =? 0) with false by (symmetry; apply N.eqb_neq; lia).
  replace (n =? 1) with false by (symmetry; apply N.eqb_neq; lia).
  rewrite between by exact H. reflexivity.
Qed.

Lemma decode_from_cons st b r :
  Utf8.decode_from st (b :: r)
  = fst (Utf8.step st b) ++ Utf8.decode_from (snd (Utf8.step st b)) r.
Proof. simpl. destruct (Utf8.step st b). reflexivity. Qed.

Lemma units_of_bmp x : x < 0x10000 -> Utf8.units_of_cp x = [x].
Proof. intros H. unfold Utf8.units_of_cp. apply N.ltb_lt in H. rewrite H. reflexivity. Qed.

(** The digits of a number in base 64. *)
Lemma base64_digits x :
  exists q3 q2 q1 q0,
    x = ((q3 * 64 + q2) * 64 + q1) * 64 + q0 /\ q2 < 64 /\ q1 < 64 /\ q0 < 64
    /\ x / 262144 = q3 /\ x / 4096 mod 64 = q2 /\ x / 64 mod 64 = q1 /\ x mod 64 = q0
    /\ x / 4096 = q3 * 64 + q2 /\ x / 64 = (q3 * 64 + q2) * 64 + q1.
Proof.
  exists (x / 262144), (x / 4096 mod 64), (x / 64 mod 64), (x mod 64).
  repeat split; lia.
Qed.

Lemma decode_unit c rest :
  c < 65536 -> Utf8.is_high c = false -> Utf8.is_low c = false ->
  Utf8.decode_from Utf8.init (Utf8.bytes_of_cp c ++ rest)
  = c :: Utf8.decode_from Utf8.init rest.
Proof.
  intros Hc Hh Hl. pose proof (not_surrogate c Hh Hl) as Hs. clear Hh Hl.
  destruct (base64_digits c) as (q3 & q2 & q1 & q0 & Hx & H2 & H1 & H0 & E3 & E2 & E1 & E0 & E4 & E5).
  unfold Utf8.bytes_of_cp.
  destruct (N.ltb_spec c 0x80); [|destruct (N.ltb_spec c 0x800);
    [|destruct (N.ltb_spec c 0x10000); [|lia]]].
  - cbn [app]. rewrite decode_from_cons, step_init, lead_1 by assumption. reflexivity.
  - rewrite E5, E0. clear E3 E2 E1 E0 E4 E5. cbn [app].
    rewrite decode_from_cons, step_init, lead_2 by lia. cbn [fst snd app].
    rewrite decode_from_cons, step_last by lia. cbn [fst snd].
    rewrite units_of_bmp by lia. cbn [app]. f_equal. lia.
  - rewrite E4, E1, E0. clear E3 E2 E1 E0 E4 E5. cbn [app].
    rewrite decode_from_cons, step_init, lead_3 by lia. cbn [fst snd app].
    rewrite decode_from_cons, step_more;
      [|lia|destruct (N.eqb_spec (0xE0 + (q3 * 64 + q2)) 0xE0);
             destruct (N.eqb_spec (0xE0 + (q3 * 64 + q2)) 0xED); lia].
    cbn [fst snd app].
    rewrite decode_from_cons, step_last by lia. cbn [fst snd].
    rewrite units_of_bmp by lia. cbn [app]. f_equal. lia.
Qed.

Lemma decode_pair c d rest :
  Utf8.is_high c = true -> Utf8.is_low d = true ->
  Utf8.decode_from Utf8.init
    (Utf8.bytes_of_cp (0x10000 + (c - 0xD800) * 1024 + (d - 0xDC00)) ++ rest)
  = c :: d :: Utf8.decode_from Utf8.init rest.
Proof.
  intros Hc Hd. apply surrogate_bounds in Hc. apply surrogate_bounds in Hd.
  set (x := 0x10000 + (c - 0xD800) * 1024 + (d - 0xDC00)).
  assert (Hx : 0x10000 <= x < 0x110000) by (unfold x; lia).
  assert (Hhi : 0xD800 + (x - 0x10000) / 1024 = c) by (unfold x; lia).
  assert (Hlo : 0xDC00 + (x - 0x10000) mod 1024 = d) by (unfold x; lia).
  clearbody x. clear Hc Hd.
  destruct (base64_digits x) as (q3 & q2 & q1 & q0 & Ex & H2 & H1 & H0 & E3 & E2 & E1 & E0 & E4 & E5).
  unfold Utf8.bytes_of_cp.
  destruct (N.ltb_spec x 0x80); [lia|]. destruct (N.ltb_spec x 0x800); [lia|].
  destruct (N.ltb_spec x 0x10000); [lia|].
  rewrite E3, E2, E1, E0. clear E3 E2 E1 E0 E4 E5. cbn [app].
  rewrite decode_from_cons, step_init, lead_4 by lia. cbn [fst snd app].
  rewrite decode_from_cons, step_more;
    [|lia|destruct (N.eqb_spec (0xF0 + q3) 0xF0);
           destruct (N.eqb_spec (0xF0 + q3) 0xF4); lia].
  cbn [fst snd app].
  rewrite decode_from_cons, step_more by lia. cbn [fst snd app].
  rewrite decode_from_cons, step_last by lia. cbn [fst snd].
  replace (((0xF0 + q3 - 0xF0) * 64 + (0x80 + q2 - 0x80)) * 64 + (0x80 + q1 - 0x80)) with
    ((q3 * 64 + q2) * 64 + q1) by lia.
  replace (((q3 * 64 + q2) * 64 + q1) * 64 + (0x80 + q0 - 0x80)) with x by lia.
  unfold Utf8.units_of_cp.
  replace (x <? 0x10000) with false by (symmetry; apply N.ltb_ge; lia).
  rewrite Hhi, Hlo. reflexivity.
Qed.

Theorem utf8_decode_encode s : wf16 s -> Utf8.decode (Utf8.encode s) = s.
Proof.
  unfold Utf8.decode. induction 1 as [|c s Hc Hh Hl _ IH|c d s Hc Hd _ IH].
  - reflexivity.
  - cbn [Utf8.encode]. rewrite Hh, Hl, decode_unit by assumption. rewrite IH. reflexivity.
  - cbn [Utf8.encode]. rewrite Hc, Hd, decode_pair by assumption. rewrite IH. reflexivity.
Qed.

Lemma bytes_of_cp_bytes x : x < 0x110000 -> is_bytes (Utf8.bytes_of_cp x).
Proof.
  intros Hx. unfold Utf8.bytes_of_cp, is_bytes.
  destruct (N.ltb_spec x 0x80); [|destruct (N.ltb_spec x 0x800);
    [|destruct (N.ltb_spec x 0x10000)]];
    repeat (apply Forall_cons; split; [lia|]); constructor.
Qed.

Lemma utf8_encode_bytes s : wf16 s -> is_bytes (Utf8.encode s).
Proof.
  induction 1 as [|c s Hc Hh Hl _ IH|c d s Hc Hd _ IH].
  - constructor.
  - cbn [Utf8.encode]. rewrite Hh, Hl. apply Forall_app. split; [|exact IH].
    apply bytes_of_cp_bytes. lia.
  - cbn [Utf8.encode]. rewrite Hc, Hd. apply Forall_app. split; [|exact IH].
    apply surrogate_bounds in Hc. apply surrogate_bounds in Hd.
    apply bytes_of_cp_bytes. lia.
Qed.
End Utf8Facts.

(** ** JSON: strings *)

Section JsonStrings.
Local Open Scope N_scope.

Lemma hex_value_digit d : d < 16 -> Json.hex_value (Json.hex_digit d) = Some d.
Proof.
  intros Hd.
  pose proof (below_forallb
    (fun i => bool_decide (Json.hex_value (Json.hex_digit i) = Some i)) 16) as H.
  specialize (H ltac:(vm_compute; reflexivity) d Hd).
  apply bool_decide_eq_true in H. exact H.
Qed.

Lemma parse_unicode_escape c t :
  c < 65536 -> Json.parse_chars (Json.unicode_escape c ++ t) = then_chars c t.
Proof.
  intros Hc.
  change (Json.unicode_escape c ++ t)
    with (Json.backslash :: cu "u" :: Json.hex_digit (c / 4096)
            :: Json.hex_digit (c / 256 mod 16) :: Json.hex_digit (c / 16 mod 16)
            :: Json.hex_digit (c mod 16) :: t).
  cbn [Json.parse_chars].
  change (Json.backslash =? Json.quote_mark) with false.
  change (Json.backslash =? Json.backslash) with true.
  change (cu "u" =? cu "u") with true. cbv iota.
  rewrite !hex_value_digit by lia.
  unfold then_chars. destruct (Json.parse_chars t) as [[str rest]|]; [|reflexivity].
  do 2 f_equal. f_equal. lia.
Qed.

Lemma parse_raw c t :
  32 <= c -> c <> Json.quote_mark -> c <> Json.backslash ->
  Json.parse_chars (c :: t) = then_chars c t.
Proof.
  intros H1 H2 H3. cbn [Json.parse_chars].
  destruct (N.eqb_spec c Json.quote_mark); [contradiction|].
  destruct (N.eqb_spec c Json.backslash); [contradiction|].
  destruct (N.ltb_spec c 32); [lia|]. reflexivity.
Qed.

Lemma parse_short_escape e x t :
  (e =? cu "u") = false -> Json.unescape e = Some x ->
  Json.parse_chars (Json.backslash :: e :: t) = then_chars x t.
Proof.
  intros He Hx. cbn [Json.parse_chars].
  change (Json.backslash =? Json.quote_mark) with false.
  change (Json.backslash =? Json.backslash) with true. cbv iota.
  rewrite He, Hx. reflexivity.
Qed.

Lemma parse_quote_unit c t :
  c < 65536 -> Json.parse_chars (Json.quote_unit c ++ t) = then_chars c t.
Proof.
  intros Hc. unfold Json.quote_unit.
  repeat match goal with
         | |- context [N.eqb c ?k] =>
             destruct (N.eqb_spec c k);
             [subst c; apply parse_short_escape; reflexivity|]
         end.
  destruct (N.ltb_spec c 32).
  - apply parse_unicode_escape, Hc.
  - apply parse_raw; assumption.
Qed.

Lemma parse_surrogate c t :
  Utf8.is_high c = true \/ Utf8.is_low c = true ->
  Json.parse_chars (c :: t) = then_chars c t
  /\ Json.parse_chars (Json.unicode_escape c ++ t) = then_chars c t.
Proof.
  intros H.
  assert (Hb : 0xD800 <= c <= 0xDFFF).
  { destruct H as [H|H]; apply surrogate_bounds in H; lia. }
  split.
  - apply parse_raw; unfold Json.quote_mark, Json.backslash; lia.
  - apply parse_unicode_escape. lia.
Qed.

Lemma then_chars_Some c t s rest :
  Json.parse_chars t = Some (s, rest) -> then_chars c t = Some (c :: s, rest).
Proof. intros H. unfold then_chars. rewrite H. reflexivity. Qed.

(** A quoted string reads back as the string, whatever its units. *)
Lemma parse_quote_body s : forall rest,
  Json.is_string s = true ->
  Json.parse_chars (Json.quote_body s ++ Json.quote_mark :: rest) = Some (s, rest).
Proof.
  assert (H : (forall rest, Json.is_string s = true ->
                 Json.parse_chars (Json.quote_body s ++ Json.quote_mark :: rest) = Some (s, rest))
              /\ (forall c rest, Json.is_string (c :: s) = true ->
                    Json.parse_chars (Json.quote_body (c :: s) ++ Json.quote_mark :: rest)
                    = Some (c :: s, rest))); [|exact (proj1 H)].
  induction s as [|d s [IH0 IH1]].
  - split.
    + intros rest _. cbn [Json.quote_body app Json.parse_chars].
      change (Json.quote_mark =? Json.quote_mark) with true. reflexivity.
    + intros c rest Hs. cbn [Json.is_string forallb] in Hs.
      apply andb_true_iff in Hs as [Hc _]. apply N.ltb_lt in Hc.
      cbn [Json.quote_body].
      destruct (Utf8.is_high c) eqn:Hh; [|destruct (Utf8.is_low c) eqn:Hl].
      * rewrite (proj2 (parse_surrogate c _ (or_introl Hh))).
        apply then_chars_Some. cbn [Json.parse_chars].
        change (Json.quote_mark =? Json.quote_mark) with true. reflexivity.
      * rewrite <- app_assoc. rewrite (proj2 (parse_surrogate c _ (or_intror Hl))).
        apply then_chars_Some. cbn [Json.quote_body app Json.parse_chars].
        change (Json.quote_mark =? Json.quote_mark) with true. reflexivity.
      * rewrite <- app_assoc. rewrite parse_quote_unit by exact Hc.
        apply then_chars_Some. cbn [Json.quote_body app Json.parse_chars].
        change (Json.quote_mark =? Json.quote_mark) with true. reflexivity.
  - split; [exact (IH1 d)|].
    intros c rest Hs.
    assert (Hs' : Json.is_string (d :: s) = true).
    { cbn [Json.is_string forallb] in Hs |- *. apply andb_true_iff in Hs. tauto. }
    assert (Hs'' : Json.is_string s = true).
    { cbn [Json.is_string forallb] in Hs' |- *. apply andb_true_iff in Hs'. tauto. }
    assert (Hc : c < 65536).
    { cbn [Json.is_string forallb] in Hs. apply andb_true_iff in Hs as [Hc _].
      apply N.ltb_lt in Hc. exact Hc. }
    change (Json.quote_body (c :: d :: s))
      with (if Utf8.is_high c
            then if Utf8.is_low d then c :: d :: Json.quote_body s
                 else Json.unicode_escape c ++ Json.quote_body (d :: s)
            else if Utf8.is_low c then Json.unicode_escape c ++ Json.quote_body (d :: s)
            else Json.quote_unit c ++ Json.quote_body (d :: s)).
    destruct (Utf8.is_high c) eqn:Hh; [destruct (Utf8.is_low d) eqn:Hd|
      destruct (Utf8.is_low c) eqn:Hl].
    + cbn [app].
      rewrite (proj1 (parse_surrogate c _ (or_introl Hh))). apply then_chars_Some.
      rewrite (proj1 (parse_surrogate d _ (or_intror Hd))). apply then_chars_Some.
      apply IH0, Hs''.
    + rewrite <- app_assoc. rewrite (proj2 (parse_surrogate c _ (or_introl Hh))).
      apply then_chars_Some. apply IH1, Hs'.
    + rewrite <- app_assoc. rewrite (proj2 (parse_surrogate c _ (or_intror Hl))).
      apply then_chars_Some. apply IH1, Hs'.
    + rewrite <- app_assoc. rewrite parse_quote_unit by exact Hc.
      apply then_chars_Some. apply IH1, Hs'.
Qed.
End JsonStrings.

(** ** Numbers: digits *)

Section Digits.
Local Open Scope N_scope.

Lemma chars_of_uint_digits u :
  forallb Number.is_digit (Number.chars_of_uint u) = true.
Proof.
  induction u; cbn [Number.chars_of_uint forallb]; try rewrite IHu; reflexivity.
Qed.

Lemma digits_are_digits n : forallb Number.is_digit (Number.digits n) = true.
Proof. apply chars_of_uint_digits. Qed.

Lemma read_digits_app ds rest :
  forallb Number.is_digit ds = true ->
  Number.read_digits rest = ([], rest) ->
  Number.read_digits (ds ++ rest) = (ds, rest).
Proof.
  intros Hd Hr. induction ds as [|c ds IH]; [exact Hr|].
  cbn [forallb] in Hd. apply andb_true_iff in Hd as [Hc Hd].
  cbn [app Number.read_digits]. rewrite Hc, (IH Hd). reflexivity.
Qed.

(** A text that does not continue a number has no digit, no point and
    no exponent in front. *)
Lemma not_continued rest :
  continues_number rest = false ->
  Number.read_digits rest = ([], rest)
  /\ Number.read_fraction rest = Some ([], rest)
  /\ Number.read_exponent rest = Some (0%Z, rest).
Proof.
  destruct rest as [|c r]; [repeat split|].
  cbn [continues_number]. rewrite !orb_false_iff. intros [[[Hd Hp] He] HE].
  cbn [Number.read_digits Number.read_fraction Number.read_exponent].
  rewrite Hd, Hp, He, HE. repeat split.
Qed.

Lemma value_from ds acc :
  fold_left (fun a c => a * 10 + (c - cu "0")) ds acc
  = acc * 10 ^ N.of_nat (length ds) + Number.chars_value ds.
Proof.
  unfold Number.chars_value. revert acc.
  induction ds as [|c ds IH]; intros acc.
  - cbn [fold_left length]. change (10 ^ N.of_nat 0) with 1. lia.
  - cbn [fold_left length]. rewrite IH, (IH (0 * 10 + _)).
    rewrite Nat2N.inj_succ, N.pow_succ_r'. lia.
Qed.

Lemma chars_value_app a b :
  Number.chars_value (a ++ b)
  = Number.chars_value a * 10 ^ N.of_nat (length b) + Number.chars_value b.
Proof.
  unfold Number.chars_value at 1. rewrite fold_left_app.
  fold (Number.chars_value a). apply value_from.
Qed.

Lemma chars_value_zeros j : Number.chars_value (repeat (cu "0") j) = 0.
Proof.
  induction j as [|j IH]; [reflexivity|].
  change (repeat (cu "0") (S j)) with ([cu "0"] ++ repeat (cu "0") j).
  rewrite chars_value_app, IH. reflexivity.
Qed.

Lemma chars_value_cons_zero ds : Number.chars_value (cu "0" :: ds) = Number.chars_value ds.
Proof.
  change (cu "0" :: ds) with ([cu "0"] ++ ds). rewrite chars_value_app. reflexivity.
Qed.

Lemma of_uint_acc_value u acc :
  Npos (Pos.of_uint_acc u acc)
  = fold_left (fun a c => a * 10 + (c - cu "0")) (Number.chars_of_uint u) (Npos acc).
Proof.
  revert acc. induction u; intros acc;
    cbn [Pos.of_uint_acc Number.chars_of_uint fold_left];
    [reflexivity|rewrite IHu; f_equal; vm_compute (_ - cu "0"); lia..].
Qed.

Lemma chars_value_of_uint u : Number.chars_value (Number.chars_of_uint u) = N.of_uint u.
Proof.
  unfold N.of_uint, Number.chars_value.
  induction u; cbn [Pos.of_uint Number.chars_of_uint fold_left];
    [reflexivity|exact IHu|rewrite of_uint_acc_value; reflexivity..].
Qed.

Lemma chars_value_digits n : Number.chars_value (Number.digits n) = n.
Proof.
  unfold Number.digits. rewrite chars_value_of_uint. apply DecimalN.Unsigned.of_to.
Qed.

(** The digits of a positive number: some, and no zero in front. *)
Lemma to_uint_normal p :
  match Pos.to_uint p with
  | Decimal.Nil | Decimal.D0 _ => False
  | _ => True
  end.
Proof.
  pose proof (DecimalPos.Unsigned.to_uint_nonnil p) as Hnil.
  pose proof (DecimalPos.Unsigned.to_uint_nonzero p) as Hzero.
  pose proof (DecimalN.Unsigned.to_of (Pos.to_uint p)) as Hnorm.
  change (N.of_uint (Pos.to_uint p)) with (Pos.of_uint (Pos.to_uint p)) in Hnorm.
  rewrite DecimalPos.Unsigned.of_to in Hnorm.
  change (N.to_uint (Npos p)) with (Pos.to_uint p) in Hnorm.
  destruct (Pos.to_uint p) as [|u| | | | | | | | | ] eqn:E; try exact I; [congruence|].
  rewrite DecimalFacts.unorm_D0 in Hnorm.
  destruct (Decimal.uint_eq_dec u Decimal.Nil) as [->|Hu]; [exact (Hzero eq_refl)|].
  pose proof (DecimalFacts.nb_digits_unorm u Hu) as Hlen.
  rewrite <- Hnorm in Hlen. simpl in Hlen. lia.
Qed.

Lemma digits_head p :
  exists c r, Number.digits (Npos p) = c :: r
              /\ Number.is_digit c = true /\ (c =? cu "0") = false.
Proof.
  unfold Number.digits. change (N.to_uint (Npos p)) with (Pos.to_uint p).
  pose proof (to_uint_normal p) as Hn.
  pose proof (chars_of_uint_digits (Pos.to_uint p)) as Hd.
  destruct (Pos.to_uint p); try contradiction;
    cbn [Number.chars_of_uint forallb] in Hd |- *;
    eexists _, _; (split; [reflexivity|split; reflexivity]).
Qed.

Lemma digits_nonempty n : Number.digits n <> [].
Proof.
  destruct n as [|p]; [discriminate|].
  destruct (digits_head p) as (c & r & -> & _). discriminate.
Qed.
End Digits.

(** ** Numbers: a double read from all its digits *)

Section Doubles.
Local Open Scope Z_scope.

Lemma Zdigits2_log2 p : Zpos (digits2_pos p) = Z.log2 (Zpos p) + 1.
Proof.
  assert (Hs : forall q, digits2_pos q = Pos.size q)
    by (induction q; cbn [digits2_pos Pos.size]; congruence).
  destruct p; cbn [digits2_pos Z.log2]; rewrite ?Hs; lia.
Qed.

Lemma iter_xO m j : Zpos (Pos.iter xO m j) = Zpos m * 2 ^ Zpos j.
Proof.
  induction j as [|j IH] using Pos.peano_ind.
  - cbn [Pos.iter]. lia.
  - rewrite Pos.iter_succ, Pos2Z.inj_succ, Z.pow_succ_r by lia.
    rewrite Pos2Z.inj_xO, IH. lia.
Qed.

Lemma iter_shr j : forall m,
  SpecFloat.iter_pos shr_1 j (Build_shr_record (Zpos (Pos.iter xO m j)) false false)
  = Build_shr_record (Zpos m) false false.
Proof.
  induction j as [j IH|j IH|]; intros m; cbn [SpecFloat.iter_pos Pos.iter].
  - cbn [shr_1 orb]. rewrite IH, IH. reflexivity.
  - rewrite IH, IH. reflexivity.
  - reflexivity.
Qed.

(** What a double is. *)
Lemma bounded_spec m e :
  bounded Number.prec Number.emax m e = true ->
  Z.max (Z.log2 (Zpos m) + 1 + e - 53) (-1074) = e /\ e <= 971.
Proof.
  unfold bounded, canonical_mantissa, fexp, emin, Number.prec, Number.emax.
  rewrite andb_true_iff, Z.eqb_eq, Z.leb_le, Zdigits2_log2. lia.
Qed.

(** A mantissa with [j] zero bits below a double's is rounded to the
    double. *)
Lemma binary_round_aux_exact m e j :
  bounded Number.prec Number.emax m e = true -> 0 <= j ->
  binary_round_aux Number.prec Number.emax false (Zpos m * 2 ^ j) (e - j) loc_Exact
  = S754_finite false m e.
Proof.
  intros Hb Hj. pose proof (bounded_spec m e Hb) as [Hc He].
  assert (Hfexp : fexp Number.prec Number.emax (Zpos (digits2_pos m) + e) = e).
  { unfold fexp, emin, Number.prec, Number.emax. rewrite Zdigits2_log2. lia. }
  assert (Hlast :
    (let '(mrs'', e'') := shr_fexp Number.prec Number.emax (Zpos m) e loc_Exact in
     match shr_m mrs'' with
     | Z0 => S754_zero false
     | Zpos m0 => if e'' <=? Number.emax - Number.prec then S754_finite false m0 e''
                  else S754_infinity false
     | Zneg _ => S754_nan
     end) = S754_finite false m e).
  { unfold shr_fexp. cbn [Zdigits2]. rewrite Hfexp, Z.sub_diag.
    cbn [shr shr_record_of_loc shr_m].
    replace (e <=? Number.emax - Number.prec) with true; [reflexivity|].
    symmetry. apply Z.leb_le. unfold Number.emax, Number.prec. lia. }
  unfold binary_round_aux.
  destruct j as [|p|p]; [| |lia].
  - rewrite Z.mul_1_r, Z.sub_0_r. unfold shr_fexp at 1. cbn [Zdigits2].
    rewrite Hfexp, Z.sub_diag.
    cbn [shr shr_record_of_loc shr_m loc_of_shr_record round_nearest_even].
    exact Hlast.
  - rewrite <- iter_xO. unfold shr_fexp at 1. cbn [Zdigits2].
    replace (fexp Number.prec Number.emax
               (Zpos (digits2_pos (Pos.iter xO m p)) + (e - Zpos p)) - (e - Zpos p))
      with (Zpos p).
    2:{ rewrite Zdigits2_log2, iter_xO, Z.log2_mul_pow2 by lia.
        unfold fexp, emin, Number.prec, Number.emax. lia. }
    cbn [shr shr_record_of_loc]. rewrite iter_shr.
    cbn [shr_m loc_of_shr_record round_nearest_even].
    replace (e - Zpos p + Zpos p) with e by lia. exact Hlast.
Qed.

Lemma of_positive_decimal_integer m e p :
  bounded Number.prec Number.emax m e = true -> 0 <= e ->
  Zpos p = Zpos m * 2 ^ e ->
  Number.of_positive_decimal p 0 = S754_finite false m e.
Proof.
  intros Hb He Hp. pose proof (bounded_spec m e Hb) as [Hc _].
  unfold Number.of_positive_decimal.
  change (400 <? 0) with false. change (0 <=? 0) with true. cbv iota.
  change (10 ^ 0) with 1. rewrite Z.mul_1_r.
  cbn [binary_normalize]. unfold binary_round.
  replace (fexp Number.prec Number.emax (Zpos (digits2_pos p) + 0)) with e.
  2:{ rewrite Zdigits2_log2, Hp, Z.log2_mul_pow2 by lia.
      unfold fexp, emin, Number.prec, Number.emax. lia. }
  pose proof (binary_round_aux_exact m e e Hb He) as H. rewrite Z.sub_diag in H.
  unfold shl_align. destruct (e - 0) eqn:E; try lia; rewrite Hp; exact H.
Qed.

Lemma div_eucl_exact a b : 0 < b -> Z.div_eucl (a * b) b = (a, 0).
Proof.
  intros Hb. pose proof (Z.div_mul a b ltac:(lia)) as Hq.
  pose proof (Z.mod_mul a b ltac:(lia)) as Hr.
  unfold Z.div, Z.modulo in Hq, Hr.
  destruct (Z.div_eucl (a * b) b). cbn [fst snd] in *. congruence.
Qed.

Lemma of_positive_decimal_fraction m e s :
  bounded Number.prec Number.emax m e = true -> e < 0 ->
  Zpos s = Zpos m * 5 ^ (- e) ->
  Number.of_positive_decimal s e = S754_finite false m e.
Proof.
  intros Hb He Hs. pose proof (bounded_spec m e Hb) as [Hc _].
  set (j := - e) in *. assert (Hje : j = - e) by reflexivity.
  assert (Hj : 0 < j <= 1074) by lia.
  pose proof (Z.log2_nonneg (Zpos m)) as Hm0.
  set (t := Z.to_pos (10 ^ j)).
  assert (Ht : Zpos t = 5 ^ j * 2 ^ j).
  { unfold t. rewrite Z2Pos.id by (apply Z.pow_pos_nonneg; lia).
    rewrite <- Z.pow_mul_l. reflexivity. }
  assert (H5 : 0 < 5 ^ j) by (apply Z.pow_pos_nonneg; lia).
  assert (H2 : 0 < 2 ^ j) by (apply Z.pow_pos_nonneg; lia).
  (* the sizes of the two operands *)
  assert (Hst : Zpos s * 2 ^ j = Zpos m * Zpos t) by (rewrite Hs, Ht; ring).
  assert (Hlog : Z.log2 (Zpos m) + Z.log2 (Zpos t) <= Z.log2 (Zpos s) + j
                 <= Z.log2 (Zpos m) + Z.log2 (Zpos t) + 1).
  { assert (Hl : Z.log2 (Zpos s * 2 ^ j) = j + Z.log2 (Zpos s))
      by (apply Z.log2_mul_pow2; lia).
    rewrite Hst in Hl.
    pose proof (Z.log2_mul_below (Zpos m) (Zpos t) ltac:(lia) ltac:(lia)).
    pose proof (Z.log2_mul_above (Zpos m) (Zpos t) ltac:(lia) ltac:(lia)).
    lia. }
  assert (Hlt : 3 * j <= Z.log2 (Zpos t)).
  { rewrite <- (Z.log2_pow2 (3 * j)) by lia. apply Z.log2_le_mono.
    rewrite Ht, Z.pow_mul_r by lia. change (2 ^ 3) with 8.
    rewrite <- Z.pow_mul_l. apply Z.pow_le_mono_l. lia. }
  unfold Number.of_positive_decimal.
  replace (400 <? e) with false by (symmetry; apply Z.ltb_ge; lia).
  replace (0 <=? e) with false by (symmetry; apply Z.leb_gt; lia).
  replace (Z.log2 (Zpos s) + 3 * e <? -1080) with false
    by (symmetry; apply Z.ltb_ge; lia).
  cbv iota. fold j. fold t.
  cbn [SFdiv xorb]. unfold SFdiv_core_binary. cbn [Zdigits2].
  rewrite !Zdigits2_log2.
  set (e' := Z.min _ _).
  assert (He' : e' = e \/ e' = e - 1).
  { unfold e', fexp, emin, Number.prec, Number.emax. lia. }
  assert (Hm' : match 0 - 0 - e' with
                | 0 => Zpos s
                | Zpos _ => Z.shiftl (Zpos s) (0 - 0 - e')
                | Zneg _ => 0
                end = (Zpos m * 2 ^ (e - e')) * Zpos t).
  { destruct (0 - 0 - e') eqn:E; try lia.
    rewrite <- E, Z.shiftl_mul_pow2, Hs, Ht by lia.
    replace (0 - 0 - e') with (j + (e - e')) by lia.
    rewrite Z.pow_add_r by lia. ring. }
  rewrite Hm', div_eucl_exact by lia.
  replace (new_location (Zpos t) 0) with loc_Exact
    by (unfold new_location, new_location_even, new_location_odd;
        destruct (Z.even (Zpos t)); reflexivity).
  replace e' with (e - (e - e')) at 2 by lia.
  apply binary_round_aux_exact; [assumption|lia].
Qed.

(** All the digits of a double denote it. *)
Lemma exact_denotes m e :
  bounded Number.prec Number.emax m e = true ->
  Number.denotes (S754_finite false m e) (Number.exact m e) = true.
Proof.
  intros Hb. unfold Number.denotes, Number.exact. cbn [fst snd].
  apply bool_decide_eq_true_2.
  match goal with
  | |- Number.of_decimal _ _ ?d = _ => replace d with (Z.min e 0) by lia
  end.
  destruct (Z.leb_spec 0 e) as [He|He].
  - rewrite Z.min_r by lia.
    destruct (N.pos m * 2 ^ Z.to_N e)%N as [|p] eqn:E.
    + apply (f_equal Z.of_N) in E. rewrite N2Z.inj_mul, N2Z.inj_pow, Z2N.id in E by lia.
      cbn [Z.of_N] in E. assert (0 < 2 ^ e) by (apply Z.pow_pos_nonneg; lia). lia.
    + cbn [Number.of_decimal]. apply of_positive_decimal_integer; [assumption..|].
      apply (f_equal Z.of_N) in E. rewrite N2Z.inj_mul, N2Z.inj_pow, Z2N.id in E by lia.
      symmetry. exact E.
  - rewrite Z.min_l by lia.
    destruct (N.pos m * 5 ^ Z.to_N (- e))%N as [|p] eqn:E.
    + apply (f_equal Z.of_N) in E. rewrite N2Z.inj_mul, N2Z.inj_pow, Z2N.id in E by lia.
      cbn [Z.of_N] in E. assert (0 < 5 ^ (- e)) by (apply Z.pow_pos_nonneg; lia). lia.
    + cbn [Number.of_decimal]. apply of_positive_decimal_fraction; [assumption..|].
      apply (f_equal Z.of_N) in E. rewrite N2Z.inj_mul, N2Z.inj_pow, Z2N.id in E by lia.
      symmetry. exact E.
Qed.

Lemma search_denotes x P Q n fuel : forall k c,
  Number.search x P Q n fuel k = Some c -> Number.denotes x c = true.
Proof.
  induction fuel as [|fuel IH]; intros k c; cbn [Number.search]; [discriminate|].
  destruct (Number.candidate x P Q n k) as [c'|] eqn:E; [|apply IH].
  intros [= <-]. unfold Number.candidate in E.
  destruct (n <=? k);
    repeat match type of E with
           | context [Number.denotes x ?c] =>
               let H := fresh in destruct (Number.denotes x c) eqn:H
           | context [N.compare ?a ?b] => destruct (N.compare a b)
           | context [N.even ?a] => destruct (N.even a)
           | Some _ = Some _ => injection E as <-
           | None = Some _ => discriminate
           end; assumption.
Qed.

(** The digits printed for a double denote it. *)
Lemma shortest_denotes m e :
  bounded Number.prec Number.emax m e = true ->
  Number.denotes (S754_finite false m e) (Number.shortest m e) = true.
Proof.
  intros Hb. unfold Number.shortest. destruct (Number.ratio m e) as [P Q].
  destruct (Number.search _ P Q _ 17 1) as [c|] eqn:E.
  - exact (search_denotes _ _ _ _ _ _ _ E).
  - apply exact_denotes, Hb.
Qed.
End Doubles.

(** ** Numbers: the text of a number reads back *)

Section NumberText.
Local Open Scope N_scope.

(** Zeros written after the digits, or counted in the exponent. *)
Lemma of_decimal_shift neg v j :
  (0 <= j <= 21)%Z ->
  Number.of_decimal neg (v * 10 ^ Z.to_N j) 0 = Number.of_decimal neg v j.
Proof.
  intros Hj. destruct v as [|p]; [reflexivity|].
  destruct (N.pos p * 10 ^ Z.to_N j) as [|q] eqn:E.
  { assert (0 < 10 ^ Z.to_N j) by (apply N.neq_0_lt_0, N.pow_nonzero; lia). lia. }
  cbn [Number.of_decimal]. unfold Number.of_positive_decimal.
  change (400 <? 0)%Z with false. change (0 <=? 0)%Z with true.
  replace (400 <? j)%Z with false by (symmetry; apply Z.ltb_ge; lia).
  replace (0 <=? j)%Z with true by (symmetry; apply Z.leb_le; lia).
  cbv iota. change (10 ^ 0)%Z with 1%Z. rewrite Z.mul_1_r.
  apply (f_equal Z.of_N) in E. rewrite N2Z.inj_mul, N2Z.inj_pow, Z2N.id in E by lia.
  cbn [Z.of_N] in E. rewrite E. reflexivity.
Qed.

Lemma forallb_digit_app a b :
  forallb Number.is_digit a = true -> forallb Number.is_digit b = true ->
  forallb Number.is_digit (a ++ b) = true.
Proof. intros Ha Hb. rewrite forallb_app, Ha, Hb. reflexivity. Qed.

Lemma zeros_digits j : forallb Number.is_digit (repeat (cu "0") j) = true.
Proof. induction j; [reflexivity|exact IHj]. Qed.

(** The integer part: digits with no zero in front. *)
Lemma read_integer_app c r rest :
  forallb Number.is_digit (c :: r) = true -> (c =? cu "0") = false ->
  Number.read_digits rest = ([], rest) ->
  Number.read_integer ((c :: r) ++ rest) = Some (c :: r, rest).
Proof.
  intros Hd Hc Hr. unfold Number.read_integer.
  rewrite read_digits_app by assumption. rewrite Hc. destruct r; reflexivity.
Qed.

Lemma read_integer_one c rest :
  Number.is_digit c = true -> Number.read_digits rest = ([], rest) ->
  Number.read_integer (c :: rest) = Some ([c], rest).
Proof.
  intros Hc Hr. unfold Number.read_integer. cbn [Number.read_digits].
  rewrite Hc, Hr. reflexivity.
Qed.

(** The fraction: a point and digits, some. *)
Lemma read_fraction_app ds rest :
  forallb Number.is_digit ds = true -> ds <> [] ->
  Number.read_digits rest = ([], rest) ->
  Number.read_fraction (cu "." :: ds ++ rest) = Some (ds, rest).
Proof.
  intros Hd Hn Hr. unfold Number.read_fraction.
  change (cu "." =? cu ".") with true. cbv iota.
  rewrite read_digits_app by assumption. destruct ds; [contradiction|reflexivity].
Qed.

(** The exponent as [Number::toString] writes it. *)
Lemma read_exponent_text e rest :
  Number.read_digits rest = ([], rest) ->
  Number.read_exponent
    (cu "e" :: (if (e <? 0)%Z then cu "-" else cu "+")
       :: Number.digits (Z.abs_N e) ++ rest)
  = Some (e, rest).
Proof.
  intros Hr. unfold Number.read_exponent.
  change ((cu "e" =? cu "e") || (cu "e" =? cu "E")) with true. cbv iota.
  pose proof (digits_are_digits (Z.abs_N e)) as Hd.
  pose proof (digits_nonempty (Z.abs_N e)) as Hn.
  pose proof (chars_value_digits (Z.abs_N e)) as Hv.
  destruct (Z.ltb_spec e 0) as [He|He]; cbn [Number.read_sign].
  - change (cu "-" =? cu "-") with true. cbv iota.
    rewrite read_digits_app by assumption.
    destruct (Number.digits (Z.abs_N e)); [contradiction|].
    rewrite Hv. do 2 f_equal. lia.
  - change (cu "+" =? cu "-") with false. change (cu "+" =? cu "+") with true. cbv iota.
    rewrite read_digits_app by assumption.
    destruct (Number.digits (Z.abs_N e)); [contradiction|].
    rewrite Hv. do 2 f_equal. lia.
Qed.

Lemma read_digits_exponent t : Number.read_digits (cu "e" :: t) = ([], cu "e" :: t).
Proof. reflexivity. Qed.

Lemma read_digits_point t : Number.read_digits (cu "." :: t) = ([], cu "." :: t).
Proof. reflexivity. Qed.

Lemma read_fraction_exponent t :
  Number.read_fraction (cu "e" :: t) = Some ([], cu "e" :: t).
Proof. reflexivity. Qed.

(** The digits [ds], laid out with the point after the first [n],
    read as the decimal they write. *)
Lemma read_decimal_text neg c r n rest :
  forallb Number.is_digit (c :: r) = true -> (c =? cu "0") = false ->
  continues_number rest = false ->
  Number.read_unsigned neg (Number.decimal_text (c :: r) n ++ rest)
  = Some (Number.of_decimal neg (Number.chars_value (c :: r))
                            (n - Z.of_nat (length (c :: r))), rest).
Proof.
  intros Hd Hc Hrest.
  destruct (not_continued rest Hrest) as (Hr & Hf & He).
  pose proof Hd as Hd'. cbn [forallb] in Hd'. apply andb_true_iff in Hd' as [Hdc Hdr].
  unfold Number.decimal_text. set (ds := c :: r) in *. set (k := Z.of_nat (length ds)).
  assert (Hk : k = Z.of_nat (length ds)) by reflexivity.
  assert (Hk1 : (1 <= k)%Z) by (unfold k, ds; cbn [length]; lia).
  destruct ((k <=? n) && (n <=? 21))%Z eqn:C1.
  { (* the digits, then zeros *)
    apply andb_true_iff in C1 as [Hkn Hn]. apply Z.leb_le in Hkn, Hn.
    unfold Number.read_unsigned. rewrite <- app_assoc.
    unfold ds at 1. cbn [app].
    change (c :: r ++ ?t) with ((c :: r) ++ t).
    rewrite (app_assoc (c :: r)).
    change ((c :: r) ++ repeat (cu "0") (Z.to_nat (n - k)))
      with (c :: (r ++ repeat (cu "0") (Z.to_nat (n - k)))).
    rewrite read_integer_app; [|cbn [forallb]; rewrite Hdc;
      apply forallb_digit_app; [exact Hdr|apply zeros_digits]|exact Hc|exact Hr].
    rewrite Hf, He. rewrite app_nil_r. cbn [length].
    change (c :: r ++ ?t) with (ds ++ t).
    rewrite chars_value_app, chars_value_zeros, repeat_length, N.add_0_r.
    change (0 - Z.of_nat 0)%Z with 0%Z.
    rewrite <- (of_decimal_shift neg _ (n - k)) by lia.
    do 4 f_equal. lia. }
  destruct ((0 <? n) && (n <=? 21))%Z eqn:C2.
  { (* a point among the digits *)
    apply andb_true_iff in C2 as [H0n Hn]. apply Z.ltb_lt in H0n. apply Z.leb_le in Hn.
    apply andb_false_iff in C1 as [C1|C1]; [apply Z.leb_gt in C1|apply Z.leb_gt in C1; lia].
    unfold Number.read_unsigned. rewrite <- app_assoc. cbn [app].
    destruct (Z.to_nat n) as [|n'] eqn:En; [lia|].
    unfold ds at 1. cbn [take].
    change ((c :: take n' r) ++ ?t) with ((c :: take n' r) ++ t).
    rewrite read_integer_app;
      [|cbn [forallb]; rewrite Hdc; cbn [andb];
        rewrite <- (take_drop n' r) in Hdr; rewrite forallb_app in Hdr;
        apply andb_true_iff in Hdr as [H _]; exact H
       |exact Hc|apply read_digits_point].
    assert (Hdrop : forallb Number.is_digit (drop (S n') ds) = true).
    { rewrite <- (take_drop (S n') ds) in Hd. rewrite forallb_app in Hd.
      apply andb_true_iff in Hd as [_ H]. exact H. }
    assert (Hlen : length (drop (S n') ds) = (length ds - S n')%nat) by apply length_drop.
    rewrite read_fraction_app; [|exact Hdrop| |exact Hr].
    2:{ intros E. rewrite E in Hlen. cbn [length] in Hlen. lia. }
    rewrite He.
    change (c :: take n' r) with (take (S n') ds). rewrite take_drop.
    do 3 f_equal. lia. }
  destruct ((-6 <? n) && (n <=? 0))%Z eqn:C3.
  { (* zeros between the point and the digits *)
    apply andb_true_iff in C3 as [H6 Hn]. apply Z.ltb_lt in H6. apply Z.leb_le in Hn.
    unfold Number.read_unsigned. cbn [js app].
    rewrite read_integer_one; [|reflexivity|apply read_digits_point].
    rewrite <- app_assoc, app_assoc.
    rewrite read_fraction_app;
      [|apply forallb_digit_app; [apply zeros_digits|exact Hd]
       |unfold ds; destruct (repeat _ _); discriminate|exact Hr].
    rewrite He. cbn [app]. rewrite chars_value_cons_zero, chars_value_app, chars_value_zeros.
    rewrite length_app, repeat_length. cbn [N.mul N.add].
    do 3 f_equal. lia. }
  (* an exponent *)
  assert (Hexp :
    Number.read_exponent
      ((cu "e" :: (if (n - 1 <? 0)%Z then cu "-" else cu "+")
          :: Number.digits (Z.abs_N (n - 1))) ++ rest) = Some ((n - 1)%Z, rest))
    by (apply read_exponent_text, Hr).
  unfold ds at 1. unfold Number.read_unsigned. destruct r as [|c' r'].
  - cbn [app]. rewrite read_integer_one; [|exact Hdc|apply read_digits_exponent].
    rewrite read_fraction_exponent. cbn [app] in Hexp. rewrite Hexp.
    do 3 f_equal. unfold k, ds. cbn [length]. lia.
  - cbn [app]. rewrite read_integer_one; [|exact Hdc|apply read_digits_point].
    rewrite <- app_assoc.
    change (c' :: r' ++ ?t) with ((c' :: r') ++ t).
    rewrite read_fraction_app; [|exact Hdr|discriminate|apply read_digits_exponent].
    cbn [app] in Hexp. cbn [app]. rewrite Hexp.
    do 3 f_equal. unfold k, ds. cbn [length]. lia.
Qed.
End NumberText.

Section NumberValues.
Local Open Scope N_scope.

Lemma digit_bounds c : Number.is_digit c = true -> 48 <= c <= 57.
Proof.
  unfold Number.is_digit. change (cu "0") with 48. change (cu "9") with 57.
  rewrite andb_true_iff, !N.leb_le. tauto.
Qed.

(** The text of digits begins with a digit. *)
Lemma decimal_text_head ds n :
  ds <> [] -> forallb Number.is_digit ds = true ->
  exists c t, Number.decimal_text ds n = c :: t /\ Number.is_digit c = true.
Proof.
  intros Hn Hd. destruct ds as [|c r]; [contradiction|].
  cbn [forallb] in Hd. apply andb_true_iff in Hd as [Hc _].
  unfold Number.decimal_text. cbv zeta.
  destruct ((Z.of_nat (length (c :: r)) <=? n) && (n <=? 21))%Z;
    [eexists _, _; split; [reflexivity|exact Hc]|].
  destruct ((0 <? n) && (n <=? 21))%Z eqn:C2.
  { apply andb_true_iff in C2 as [H0 _]. apply Z.ltb_lt in H0.
    destruct (Z.to_nat n) eqn:E; [lia|].
    eexists _, _; split; [reflexivity|exact Hc]. }
  destruct ((-6 <? n) && (n <=? 0))%Z; [eexists _, _; split; reflexivity|].
  destruct r; eexists _, _; (split; [reflexivity|exact Hc]).
Qed.

(** The text of a number begins with a sign or a digit. *)
Lemma toString_head x :
  Number.is_finite x = true ->
  exists c t, Number.toString x = c :: t /\ (c = cu "-" \/ Number.is_digit c = true).
Proof.
  destruct x as [s|s| |s m e]; try discriminate; intros _.
  - eexists _, _; split; [reflexivity|right; reflexivity].
  - cbn [Number.toString]. destruct (Number.shortest m e) as [s10 n].
    destruct s; [eexists _, _; split; [reflexivity|left; reflexivity]|].
    destruct (decimal_text_head (Number.digits s10) n
                (digits_nonempty _) (digits_are_digits _)) as (c & t & -> & Hc).
    eexists _, _; split; [reflexivity|right; exact Hc].
Qed.

(** A number is read as a number: its first character opens nothing
    else. *)
Lemma parse_value_number_head c t fuel :
  c = cu "-" \/ Number.is_digit c = true ->
  Json.parse_value (S fuel) (c :: t) = Json.parse_number (c :: t).
Proof.
  intros [->|Hc]; [reflexivity|]. apply digit_bounds in Hc.
  assert (Hws : Json.skip_ws (c :: t) = c :: t).
  { cbn [Json.skip_ws]. unfold Json.is_ws.
    repeat match goal with
           | |- context [N.eqb c ?k] => destruct (N.eqb_spec c k); [lia|]
           end.
    reflexivity. }
  cbn [Json.parse_value]. rewrite Hws.
  change (cu "{") with 123. change (cu "[") with 91. change Json.quote_mark with 34.
  change (cu "n") with 110. change (cu "t") with 116. change (cu "f") with 102.
  repeat match goal with
         | |- context [N.eqb c ?k] => destruct (N.eqb_spec c k); [lia|]
         end.
  reflexivity.
Qed.

Lemma is_number_finite x : Json.is_number x = true -> Number.is_finite x = true.
Proof. destruct x; try discriminate; reflexivity. Qed.

(** The text of a number, read, is the number. *)
Lemma read_toString x rest :
  Json.is_number x = true -> continues_number rest = false ->
  Number.read (Number.toString x ++ rest) = Some (x, rest).
Proof.
  intros Hx Hrest. destruct (not_continued rest Hrest) as (Hr & Hf & He).
  destruct x as [[|]|s| |s m e]; try discriminate.
  - cbn [Number.toString js app Number.read].
    change (cu "0" =? cu "-") with false. cbv iota.
    unfold Number.read_unsigned.
    rewrite read_integer_one, Hf, He by (reflexivity || exact Hr). reflexivity.
  - cbn [Json.is_number] in Hx.
    pose proof (shortest_denotes m e Hx) as Hd.
    cbn [Number.toString]. destruct (Number.shortest m e) as [s10 n].
    unfold Number.denotes in Hd. cbn [fst snd] in Hd. apply bool_decide_eq_true in Hd.
    destruct s10 as [|p]; [discriminate|].
    destruct (digits_head p) as (c & r & Hds & Hc & Hc0).
    pose proof (digits_are_digits (Npos p)) as Hall.
    pose proof (chars_value_digits (Npos p)) as Hv.
    rewrite Hds in *.
    pose proof (read_decimal_text s c r n rest Hall Hc0 Hrest) as Hread.
    rewrite Hv in Hread.
    assert (Hval : Number.of_decimal s (Npos p) (n - Z.of_nat (length (c :: r)))
                   = S754_finite s m e).
    { cbn [Number.of_decimal] in Hd |- *. rewrite Hd. destruct s; reflexivity. }
    rewrite Hval in Hread.
    destruct s.
    + cbn [app Number.read]. change (cu "-" =? cu "-") with true. cbv iota. exact Hread.
    + cbn [app].
      destruct (decimal_text_head (c :: r) n ltac:(discriminate) Hall)
        as (c' & t & Ht & Hc').
      rewrite Ht in *. cbn [app Number.read].
      apply digit_bounds in Hc'.
      destruct (N.eqb_spec c' (cu "-")) as [E|_]; [change (cu "-") with 45 in E; lia|].
      exact Hread.
Qed.

Lemma parse_number_toString x rest :
  Json.is_number x = true -> continues_number rest = false ->
  Json.parse_number (Number.toString x ++ rest) = Some (JNumber x, rest).
Proof.
  intros Hx Hrest. unfold Json.parse_number.
  rewrite read_toString by assumption. reflexivity.
Qed.

Lemma parse_value_number x fuel rest :
  Number.is_finite x = true ->
  Json.parse_value (S fuel) (Number.toString x ++ rest)
  = Json.parse_number (Number.toString x ++ rest).
Proof.
  intros Hx. destruct (toString_head x Hx) as (c & t & -> & Hc).
  apply parse_value_number_head, Hc.
Qed.
End NumberValues.

(** ** JSON: values *)

Section JsonValues.
Local Open Scope N_scope.

(** Induction on values, with the hypothesis on every element and on
    every member value. *)
Lemma json_ind' (P : json -> Prop) :
  P JNull -> (forall b, P (JBool b)) -> (forall n, P (JNumber n)) ->
  (forall s, P (JString s)) ->
  (forall l, Forall P l -> P (JArray l)) ->
  (forall l, Forall (fun kv => P (snd kv)) l -> P (JObject l)) ->
  forall v, P v.
Proof.
  intros HN HB HNum HS HA HO. fix IH 1. intros [|b|n|s|l|l].
  - exact HN.
  - apply HB.
  - apply HNum.
  - apply HS.
  - apply HA. induction l as [|x l IHl]; constructor; [apply IH|exact IHl].
  - apply HO. induction l as [|[k x] l IHl]; constructor; [apply IH|exact IHl].
Qed.

Lemma skip_ws_head c r : Json.is_ws c = false -> Json.skip_ws (c :: r) = c :: r.
Proof. intros H. cbn [Json.skip_ws]. rewrite H. reflexivity. Qed.

(** The first character of the text of a value. *)
Lemma stringify_head v :
  exists c t,
    Json.stringify v = c :: t /\ Json.is_ws c = false
    /\ (c =? cu "]") = false /\ (c =? cu "}") = false.
Proof.
  destruct v as [|[|]|x|s|l|l]; try (eexists _, _; repeat split; reflexivity).
  cbn [Json.stringify]. destruct (Number.is_finite x) eqn:Hx;
    [|eexists _, _; repeat split; reflexivity].
  destruct (toString_head x Hx) as (c & t & -> & [->|Hc]);
    [eexists _, _; repeat split; reflexivity|].
  apply digit_bounds in Hc. exists c, t.
  unfold Json.is_ws. change (cu "]") with 93. change (cu "}") with 125.
  repeat match goal with
         | |- context [N.eqb c ?k] => destruct (N.eqb_spec c k); [lia|]
         end.
  repeat split.
Qed.

Lemma stringify_then v tail :
  exists c t,
    Json.stringify v ++ tail = c :: t
    /\ Json.skip_ws (c :: t) = c :: t
    /\ (c =? cu "]") = false /\ (c =? cu "}") = false.
Proof.
  destruct (stringify_head v) as (c & t & -> & Hws & H1 & H2).
  exists c, (t ++ tail). repeat split; try assumption.
  apply skip_ws_head, Hws.
Qed.

Lemma join_tail_not_continued {A} (f : A -> jsstring) (close : N) l rest :
  (close = cu "]" \/ close = cu "}") ->
  continues_number (Json.join_tail f close l ++ rest) = false.
Proof. intros [-> | ->]; destruct l; reflexivity. Qed.

(** The parser, one production at a time. *)
Lemma parse_value_string f t :
  Json.parse_value (S f) (Json.quote_mark :: t)
  = match Json.parse_chars t with
    | Some (str, rest) => Some (JString str, rest)
    | None => None
    end.
Proof. reflexivity. Qed.

Lemma parse_value_array f t :
  Json.parse_value (S f) (cu "[" :: t)
  = match Json.skip_ws t with
    | [] => None
    | c' :: r' =>
        if c' =? cu "]" then Some (JArray [], r')
        else match Json.parse_elements f t with
             | Some (vs, rest) => Some (JArray vs, rest)
             | None => None
             end
    end.
Proof. reflexivity. Qed.

Lemma parse_value_object f t :
  Json.parse_value (S f) (cu "{" :: t)
  = match Json.skip_ws t with
    | [] => None
    | c' :: r' =>
        if c' =? cu "}" then Some (JObject [], r')
        else match Json.parse_members f t with
             | Some (ms, rest) => Some (JObject (Json.object_of_members ms), rest)
             | None => None
             end
    end.
Proof. reflexivity. Qed.

Lemma parse_elements_step f s v r :
  Json.parse_value f s = Some (v, r) ->
  Json.parse_elements (S f) s
  = match Json.skip_ws r with
    | [] => None
    | c :: r' =>
        if c =? cu "," then
          match Json.parse_elements f r' with
          | Some (vs, rest) => Some (v :: vs, rest)
          | None => None
          end
        else if c =? cu "]" then Some ([v], r')
        else None
    end.
Proof. intros H. cbn [Json.parse_elements]. rewrite H. reflexivity. Qed.

Lemma parse_members_step f k t r2 v r3 :
  Json.parse_chars t = Some (k, cu ":" :: r2) ->
  Json.parse_value f r2 = Some (v, r3) ->
  Json.parse_members (S f) (Json.quote_mark :: t)
  = match Json.skip_ws r3 with
    | [] => None
    | c :: r4 =>
        if c =? cu "," then
          match Json.parse_members f r4 with
          | Some (ms, rest) => Some ((k, v) :: ms, rest)
          | None => None
          end
        else if c =? cu "}" then Some ([(k, v)], r4)
        else None
    end.
Proof.
  intros Hk Hv. cbn [Json.parse_members].
  change (Json.skip_ws (Json.quote_mark :: t)) with (Json.quote_mark :: t). cbv iota.
  change (Json.quote_mark =? Json.quote_mark) with true. cbv iota.
  rewrite Hk. change (Json.skip_ws (cu ":" :: r2)) with (cu ":" :: r2). cbv iota.
  change (cu ":" =? cu ":") with true. cbv iota. rewrite Hv. reflexivity.
Qed.

Lemma parse_elements_join l :
  Forall (fun e => Json.is_json e = true -> reads_back e) l ->
  forallb Json.is_json l = true ->
  forall x f rest,
    reads_back x ->
    (S (size x) + list_sum (map (fun e => S (size e)) l) <= f)%nat ->
    Json.parse_elements f
      (Json.stringify x ++ Json.join_tail Json.stringify (cu "]") l ++ rest)
    = Some (x :: l, rest).
Proof.
  induction 1 as [|y l Hy _ IH]; intros Hl x f rest Hx Hf.
  - destruct f as [|f]; [simpl in Hf; lia|].
    erewrite parse_elements_step;
      [|apply Hx; [simpl in Hf; lia|apply join_tail_not_continued; auto]].
    reflexivity.
  - cbn [forallb] in Hl. apply andb_true_iff in Hl as [Hyj Hl].
    destruct f as [|f]; [simpl in Hf; lia|].
    erewrite parse_elements_step;
      [|apply Hx; [simpl in Hf; lia|apply join_tail_not_continued; auto]].
    cbn [Json.join_tail app].
    change (Json.skip_ws (cu "," :: ?t)) with (cu "," :: t).
    cbv iota. change (cu "," =? cu ",") with true. cbv iota.
    rewrite <- app_assoc.
    rewrite IH; [reflexivity|exact Hl|exact (Hy Hyj)|].
    simpl in Hf. lia.
Qed.

Lemma parse_members_join l :
  Forall (fun kv => Json.is_json (snd kv) = true -> reads_back (snd kv)) l ->
  forallb (fun kv => Json.is_string (fst kv) && Json.is_json (snd kv)) l = true ->
  forall x f rest,
    Json.is_string (fst x) = true -> reads_back (snd x) ->
    (S (size (snd x)) + list_sum (map (fun kv => S (size (snd kv))) l) <= f)%nat ->
    Json.parse_members f (member_text x ++ Json.join_tail member_text (cu "}") l ++ rest)
    = Some (x :: l, rest).
Proof.
  assert (Hmember : forall x f tail,
    Json.is_string (fst x) = true -> reads_back (snd x) -> (size (snd x) <= f)%nat ->
    continues_number tail = false ->
    Json.parse_members (S f) (member_text x ++ tail)
    = match Json.skip_ws tail with
      | [] => None
      | c :: r4 =>
          if c =? cu "," then
            match Json.parse_members f r4 with
            | Some (ms, rest) => Some (x :: ms, rest)
            | None => None
            end
          else if c =? cu "}" then Some ([x], r4)
          else None
      end).
  { intros [k v] f tail Hk Hv Hf Htail. cbn [fst snd] in *.
    unfold member_text, Json.QuoteJSONString. cbn [fst snd app].
    rewrite <- !app_assoc. cbn [app].
    eapply parse_members_step.
    - apply parse_quote_body, Hk.
    - apply Hv; assumption. }
  induction 1 as [|y l Hy _ IH]; intros Hl x f rest Hk Hx Hf.
  - destruct f as [|f]; [simpl in Hf; lia|].
    rewrite Hmember; try assumption; [reflexivity|simpl in Hf; lia|reflexivity].
  - cbn [forallb] in Hl. apply andb_true_iff in Hl as [Hyj Hl].
    apply andb_true_iff in Hyj as [Hyk Hyj].
    destruct f as [|f]; [simpl in Hf; lia|].
    rewrite Hmember; try assumption; [|simpl in Hf; lia|reflexivity].
    cbn [Json.join_tail app].
    change (Json.skip_ws (cu "," :: ?t)) with (cu "," :: t).
    cbv iota. change (cu "," =? cu ",") with true. cbv iota.
    rewrite <- app_assoc.
    rewrite IH; [reflexivity|exact Hl|exact Hyk|exact (Hy Hyj)|].
    simpl in Hf. lia.
Qed.

(** Members with distinct names, listed in enumeration order, make
    the object they are listed in. *)
Lemma obj_add_last k v o :
  (forall k', k' ∈ map fst o -> Json.listed_before k k' = false) ->
  Json.obj_add k v o = o ++ [(k, v)].
Proof.
  induction o as [|[k' v'] o IH]; intros Hk; cbn [Json.obj_add app]; [reflexivity|].
  rewrite (Hk k') by (cbn [map fst]; apply elem_of_cons; left; reflexivity).
  rewrite IH; [reflexivity|].
  intros k'' Hin. apply Hk. cbn [map fst]. apply elem_of_cons. right. exact Hin.
Qed.

Lemma obj_set_fresh k v o :
  k ∉ map fst o ->
  (forall k', k' ∈ map fst o -> Json.listed_before k k' = false) ->
  Json.obj_set k v o = o ++ [(k, v)].
Proof.
  intros Hk Ho. unfold Json.obj_set.
  rewrite bool_decide_eq_false_2 by exact Hk. apply obj_add_last, Ho.
Qed.

Lemma in_order_app a k b :
  Json.in_order (a ++ k :: b) = true ->
  (forall k', k' ∈ a -> Json.listed_before k k' = false)
  /\ Json.in_order (k :: b) = true.
Proof.
  induction a as [|x a IH]; cbn [app Json.in_order]; intros H.
  - split; [intros k' Hin; inversion Hin|exact H].
  - apply andb_true_iff in H as [Hx Ha]. destruct (IH Ha) as [IH1 IH2].
    split; [|exact IH2].
    intros k' Hin. apply elem_of_cons in Hin as [->|Hin]; [|apply IH1, Hin].
    rewrite forallb_app in Hx. apply andb_true_iff in Hx as [_ Hx].
    cbn [forallb] in Hx. apply andb_true_iff in Hx as [Hx _].
    apply negb_true_iff, Hx.
Qed.

Lemma object_of_members_ordered l :
  NoDup (map fst l) -> Json.in_order (map fst l) = true ->
  Json.object_of_members l = l.
Proof.
  unfold Json.object_of_members.
  assert (H : forall acc,
            NoDup (map fst (acc ++ l)) -> Json.in_order (map fst (acc ++ l)) = true ->
            fold_left (fun o kv => Json.obj_set (fst kv) (snd kv) o) l acc = acc ++ l).
  { induction l as [|[k v] l IH]; intros acc Hn Ho; cbn [fold_left].
    - rewrite app_nil_r. reflexivity.
    - cbn [fst snd]. rewrite obj_set_fresh.
      + rewrite IH; rewrite <- app_assoc; [reflexivity|exact Hn|exact Ho].
      + rewrite map_app in Hn. cbn [map fst] in Hn.
        apply NoDup_app in Hn as (_ & Hn & _).
        intros Hin. apply (Hn k Hin). apply elem_of_cons. left. reflexivity.
      + rewrite map_app in Ho. cbn [map fst] in Ho.
        apply in_order_app in Ho as [Ho _]. exact Ho. }
  intros Hn Ho. apply (H [] Hn Ho).
Qed.

Theorem parse_value_stringify v : Json.is_json v = true -> reads_back v.
Proof.
  induction v as [|b|x|s|l IH|l IH] using json_ind'; intros Hv fuel rest Hf Hrest;
    (destruct fuel as [|f]; [simpl in Hf; lia|]).
  - reflexivity.
  - destruct b; reflexivity.
  - cbn [Json.stringify Json.is_json] in *.
    rewrite (is_number_finite _ Hv), parse_value_number by exact (is_number_finite _ Hv).
    apply parse_number_toString; assumption.
  - cbn [Json.stringify Json.is_json] in *. unfold Json.QuoteJSONString.
    cbn [app]. rewrite <- app_assoc. cbn [app].
    rewrite parse_value_string, parse_quote_body by exact Hv. reflexivity.
  - cbn [Json.stringify Json.is_json app] in *. rewrite parse_value_array.
    destruct l as [|x l]; [reflexivity|].
    cbn [Json.join]. rewrite <- app_assoc.
    destruct (stringify_then x (Json.join_tail Json.stringify (cu "]") l ++ rest))
      as (c & t & Htext & Hskip & Hc & _).
    rewrite Htext, Hskip, Hc, <- Htext.
    apply Forall_cons in IH as [IHx IHl].
    cbn [forallb] in Hv. apply andb_true_iff in Hv as [Hx Hl].
    rewrite parse_elements_join; [reflexivity|exact IHl|exact Hl|exact (IHx Hx)|].
    simpl in Hf. lia.
  - cbn [Json.stringify Json.is_json app] in *.
    apply andb_true_iff in Hv as [Hnd Hv]. apply andb_true_iff in Hnd as [Hnd Hord].
    apply bool_decide_eq_true in Hnd.
    rewrite parse_value_object.
    destruct l as [|x l]; [reflexivity|].
    change (Json.join ?f ?c (x :: l)) with (member_text x ++ Json.join_tail member_text c l).
    rewrite <- app_assoc.
    apply Forall_cons in IH as [IHx IHl].
    cbn [forallb] in Hv. apply andb_true_iff in Hv as [Hx Hl].
    apply andb_true_iff in Hx as [Hk Hx].
    rewrite parse_members_join;
      [|exact IHl|exact Hl|exact Hk|exact (IHx Hx)|simpl in Hf; lia].
    unfold member_text at 1, Json.QuoteJSONString. cbn [app].
    change (Json.skip_ws (Json.quote_mark :: ?t)) with (Json.quote_mark :: t).
    cbv iota. change (Json.quote_mark =? cu "}") with false. cbv iota.
    rewrite object_of_members_ordered by assumption. reflexivity.
Qed.
End JsonValues.

(** ** JSON: the whole text *)

Section JsonText.
Local Open Scope N_scope.

Lemma join_length {A} (f : A -> jsstring) (w : A -> nat) (close : N) l :
  Forall (fun a => (w a <= length (f a))%nat) l ->
  (list_sum (map (fun a => S (w a)) l) < length (Json.join_tail f close l))%nat
  /\ (list_sum (map (fun a => S (w a)) l) <= length (Json.join f close l))%nat.
Proof.
  intros H.
  assert (Ht : forall l, Forall (fun a => (w a <= length (f a))%nat) l ->
            (list_sum (map (fun a => S (w a)) l) < length (Json.join_tail f close l))%nat).
  { induction 1 as [|a l' Ha _ IH]; simpl; [lia|]. rewrite length_app. lia. }
  split; [apply Ht, H|].
  destruct H as [|a l' Ha Hl]; simpl; [lia|].
  rewrite length_app. specialize (Ht l' Hl). lia.
Qed.

Lemma size_le_length v : (size v <= length (Json.stringify v))%nat.
Proof.
  induction v as [|b|n|s|l IH|l IH] using json_ind'.
  - simpl. lia.
  - destruct b; simpl; lia.
  - destruct (stringify_head (JNumber n)) as (c & t & -> & _). simpl. lia.
  - simpl. lia.
  - cbn [size Json.stringify length].
    pose proof (join_length Json.stringify size (cu "]") l IH) as [_ H]. lia.
  - cbn [size Json.stringify length].
    pose proof (join_length
      (fun kv => Json.QuoteJSONString (fst kv) ++ cu ":" :: Json.stringify (snd kv))
      (fun kv => size (snd kv)) (cu "}") l) as H.
    destruct H as [_ H]; [|lia].
    eapply Forall_impl; [exact IH|]. intros kv Hkv. cbv beta in *.
    rewrite length_app. simpl. lia.
Qed.

(** [JSON.parse(JSON.stringify(v))] is [v]. *)
Theorem JSON_parse_stringify v :
  Json.is_json v = true -> JSON_parse (JSON_stringify v) = Some v.
Proof.
  intros Hv. unfold JSON_parse, JSON_stringify, Json.parse.
  pose proof (parse_value_stringify v Hv (S (length (Json.stringify v))) []) as H.
  rewrite app_nil_r in H. rewrite H; [reflexivity| |reflexivity].
  pose proof (size_le_length v). lia.
Qed.

(** *** The text is well-formed UTF-16 *)

Lemma wf16_scalars a s :
  forallb is_scalar_unit a = true -> wf16 s -> wf16 (a ++ s).
Proof.
  induction a as [|c a IH]; intros Ha Hs; [exact Hs|].
  cbn [forallb] in Ha. apply andb_true_iff in Ha as [Hc Ha].
  unfold is_scalar_unit in Hc. rewrite !andb_true_iff, !negb_true_iff in Hc.
  destruct Hc as [[Hc Hh] Hl]. apply N.ltb_lt in Hc.
  cbn [app]. apply wf16_unit; auto.
Qed.

Lemma nth_forallb {A} (P : A -> bool) (l : list A) (d : A) n :
  forallb P l = true -> P d = true -> P (nth n l d) = true.
Proof.
  intros Hl Hd. destruct (Nat.lt_ge_cases n (length l)) as [Hlt|Hge].
  - rewrite forallb_forall in Hl. apply Hl, nth_In, Hlt.
  - rewrite nth_overflow by exact Hge. exact Hd.
Qed.

Lemma unicode_escape_scalars c : forallb is_scalar_unit (Json.unicode_escape c) = true.
Proof.
  assert (H : forall x, is_scalar_unit (Json.hex_digit x) = true).
  { intros x. unfold Json.hex_digit. apply nth_forallb; reflexivity. }
  unfold Json.unicode_escape. cbn [js app forallb]. rewrite !H. reflexivity.
Qed.

Lemma quote_unit_scalars c :
  is_scalar_unit c = true -> forallb is_scalar_unit (Json.quote_unit c) = true.
Proof.
  intros Hc. unfold Json.quote_unit.
  repeat match goal with
         | |- context [N.eqb c ?k] => destruct (N.eqb c k); [reflexivity|]
         end.
  destruct (c <? 32); [apply unicode_escape_scalars|].
  cbn [forallb]. rewrite Hc. reflexivity.
Qed.

Lemma chars_of_uint_scalars u : forallb is_scalar_unit (Number.chars_of_uint u) = true.
Proof. induction u; cbn [Number.chars_of_uint forallb]; try rewrite IHu; reflexivity. Qed.

Lemma decimal_text_scalars ds n :
  forallb is_scalar_unit ds = true ->
  forallb is_scalar_unit (Number.decimal_text ds n) = true.
Proof.
  intros Hd. unfold Number.decimal_text. cbv zeta.
  assert (Hz : forall j, forallb is_scalar_unit (repeat (cu "0") j) = true)
    by (induction j; [reflexivity|assumption]).
  assert (He : forallb is_scalar_unit
                 (cu "e" :: (if (n - 1 <? 0)%Z then cu "-" else cu "+")
                    :: Number.digits (Z.abs_N (n - 1))) = true).
  { cbn [forallb]. unfold Number.digits. rewrite chars_of_uint_scalars.
    destruct (n - 1 <? 0)%Z; reflexivity. }
  destruct ((Z.of_nat (length ds) <=? n) && (n <=? 21))%Z.
  { rewrite forallb_app, Hd, Hz. reflexivity. }
  destruct ((0 <? n) && (n <=? 21))%Z.
  { rewrite <- (take_drop (Z.to_nat n) ds), forallb_app in Hd.
    apply andb_true_iff in Hd as [Ht Hr].
    rewrite forallb_app. cbn [forallb]. rewrite Ht, Hr. reflexivity. }
  destruct ((-6 <? n) && (n <=? 0))%Z.
  { cbn [js app forallb]. rewrite forallb_app, Hz, Hd. reflexivity. }
  destruct ds as [|c [|c' r]]; [exact He| |].
  - cbn [forallb] in Hd |- *. apply andb_true_iff in Hd as [Hc _].
    cbn [forallb] in He. rewrite Hc. exact He.
  - cbn [forallb] in Hd. apply andb_true_iff in Hd as [Hc Hr].
    change (c :: cu "." :: (c' :: r) ++ ?t) with ([c; cu "."] ++ (c' :: r) ++ t).
    rewrite !forallb_app. cbn [forallb] in *. rewrite Hc, He.
    apply andb_true_iff in Hr as [-> ->]. reflexivity.
Qed.

Lemma toString_scalars x : forallb is_scalar_unit (Number.toString x) = true.
Proof.
  destruct x as [s|s| |s m e]; try reflexivity; [destruct s; reflexivity|].
  cbn [Number.toString]. destruct (Number.shortest m e) as [s10 n].
  rewrite forallb_app, decimal_text_scalars by apply chars_of_uint_scalars.
  destruct s; reflexivity.
Qed.

Lemma quote_body_wf16 s : forall t,
  Json.is_string s = true -> wf16 t -> wf16 (Json.quote_body s ++ t).
Proof.
  assert (H : (forall t, Json.is_string s = true -> wf16 t -> wf16 (Json.quote_body s ++ t))
              /\ (forall c t, Json.is_string (c :: s) = true -> wf16 t ->
                    wf16 (Json.quote_body (c :: s) ++ t))); [|exact (proj1 H)].
  assert (Hunit : forall c t,
    c < 65536 -> Utf8.is_high c = false -> Utf8.is_low c = false -> wf16 t ->
    wf16 (Json.quote_unit c ++ t)).
  { intros c t Hc Hh Hl Ht. apply wf16_scalars; [|exact Ht].
    apply quote_unit_scalars. unfold is_scalar_unit.
    rewrite Hh, Hl. apply N.ltb_lt in Hc. rewrite Hc. reflexivity. }
  induction s as [|d s [IH0 IH1]].
  - split; [intros t _ Ht; exact Ht|].
    intros c t Hs Ht. cbn [Json.is_string forallb] in Hs.
    apply andb_true_iff in Hs as [Hc _]. apply N.ltb_lt in Hc.
    cbn [Json.quote_body].
    destruct (Utf8.is_high c) eqn:Hh; [|destruct (Utf8.is_low c) eqn:Hl].
    + apply wf16_scalars; [apply unicode_escape_scalars|exact Ht].
    + rewrite <- app_assoc. apply wf16_scalars; [apply unicode_escape_scalars|exact Ht].
    + rewrite <- app_assoc. apply Hunit; assumption.
  - split; [exact (IH1 d)|].
    intros c t Hs Ht.
    assert (Hs' : Json.is_string (d :: s) = true).
    { cbn [Json.is_string forallb] in Hs |- *. apply andb_true_iff in Hs. tauto. }
    assert (Hs'' : Json.is_string s = true).
    { cbn [Json.is_string forallb] in Hs' |- *. apply andb_true_iff in Hs'. tauto. }
    assert (Hc : c < 65536).
    { cbn [Json.is_string forallb] in Hs. apply andb_true_iff in Hs as [Hc _].
      apply N.ltb_lt in Hc. exact Hc. }
    change (Json.quote_body (c :: d :: s))
      with (if Utf8.is_high c
            then if Utf8.is_low d then c :: d :: Json.quote_body s
                 else Json.unicode_escape c ++ Json.quote_body (d :: s)
            else if Utf8.is_low c then Json.unicode_escape c ++ Json.quote_body (d :: s)
            else Json.quote_unit c ++ Json.quote_body (d :: s)).
    destruct (Utf8.is_high c) eqn:Hh; [destruct (Utf8.is_low d) eqn:Hd|
      destruct (Utf8.is_low c) eqn:Hl].
    + cbn [app]. apply wf16_pair; auto.
    + rewrite <- app_assoc. apply wf16_scalars; [apply unicode_escape_scalars|auto].
    + rewrite <- app_assoc. apply wf16_scalars; [apply unicode_escape_scalars|auto].
    + rewrite <- app_assoc. apply Hunit; auto.
Qed.

Lemma quote_wf16 s t :
  Json.is_string s = true -> wf16 t -> wf16 (Json.QuoteJSONString s ++ t).
Proof.
  intros Hs Ht. unfold Json.QuoteJSONString. cbn [app]. rewrite <- app_assoc.
  apply (wf16_scalars [Json.quote_mark]); [reflexivity|].
  apply quote_body_wf16; [exact Hs|].
  apply (wf16_scalars [Json.quote_mark]); [reflexivity|exact Ht].
Qed.

Lemma join_wf16 {A} (f : A -> jsstring) (close : N) (ok : A -> bool) l :
  is_scalar_unit close = true ->
  Forall (fun a => ok a = true -> forall t, wf16 t -> wf16 (f a ++ t)) l ->
  forallb ok l = true ->
  forall t, wf16 t -> wf16 (Json.join f close l ++ t).
Proof.
  intros Hclose Hl Hok t Ht.
  assert (Htail : forall l,
    Forall (fun a => ok a = true -> forall t, wf16 t -> wf16 (f a ++ t)) l ->
    forallb ok l = true -> wf16 (Json.join_tail f close l ++ t)).
  { induction 1 as [|a l' Ha _ IH]; intros Hok'; cbn [Json.join_tail app].
    - apply (wf16_scalars [close]); [cbn [forallb]; rewrite Hclose; reflexivity|exact Ht].
    - cbn [forallb] in Hok'. apply andb_true_iff in Hok' as [Hoka Hok'].
      apply (wf16_scalars [cu ","]); [reflexivity|].
      rewrite <- app_assoc. apply Ha; [exact Hoka|]. apply IH, Hok'. }
  destruct Hl as [|a l' Ha Hl']; cbn [Json.join].
  - apply (wf16_scalars [close]); [cbn [forallb]; rewrite Hclose; reflexivity|exact Ht].
  - cbn [forallb] in Hok. apply andb_true_iff in Hok as [Hoka Hok].
    rewrite <- app_assoc. apply Ha; [exact Hoka|]. apply Htail; assumption.
Qed.

Lemma stringify_wf16_app v :
  Json.is_json v = true -> forall t, wf16 t -> wf16 (Json.stringify v ++ t).
Proof.
  induction v as [|b|x|s|l IH|l IH] using json_ind'; intros Hv t Ht.
  - apply wf16_scalars; [reflexivity|exact Ht].
  - destruct b; (apply wf16_scalars; [reflexivity|exact Ht]).
  - apply wf16_scalars; [|exact Ht]. cbn [Json.stringify].
    destruct (Number.is_finite x); [apply toString_scalars|reflexivity].
  - apply quote_wf16; assumption.
  - cbn [Json.stringify app]. apply (wf16_scalars [cu "["]); [reflexivity|].
    apply (join_wf16 _ _ Json.is_json); [reflexivity|exact IH|exact Hv|exact Ht].
  - cbn [Json.stringify app]. apply (wf16_scalars [cu "{"]); [reflexivity|].
    cbn [Json.is_json] in Hv. apply andb_true_iff in Hv as [_ Hv].
    apply (join_wf16 _ _ (fun kv => Json.is_string (fst kv) && Json.is_json (snd kv)));
      [reflexivity| |exact Hv|exact Ht].
    eapply Forall_impl; [exact IH|]. intros [k x] Hx Hok t' Ht'. cbn [fst snd] in *.
    apply andb_true_iff in Hok as [Hk Hok].
    rewrite <- app_assoc. apply quote_wf16; [exact Hk|].
    cbn [app]. apply (wf16_scalars [cu ":"]); [reflexivity|].
    apply Hx; assumption.
Qed.

Theorem stringify_wf16 v : Json.is_json v = true -> wf16 (JSON_stringify v).
Proof.
  intros Hv. unfold JSON_stringify. rewrite <- (app_nil_r (Json.stringify v)).
  apply stringify_wf16_app; [exact Hv|constructor].
Qed.
End JsonText.

(** ** The codec on its two segments *)

Section Segments.
Implicit Types (token key p s : jsstring).

Lemma decodeToken_split token key :
  decodeToken token key =
  match split (cu ".") token with
  | p :: s :: _ => decode_segments p s key
  | _ => Throw MalformedToken
  end.
Proof.
  unfold decodeToken, decode_segments.
  destruct (split (cu ".") token) as [|p [|s r]]; simpl; try reflexivity.
  rewrite orb_true_r. reflexivity.
Qed.

Lemma decodeToken_first_dot_split token key :
  decodeToken_first_dot token key =
  match split_first (cu ".") token with
  | Some (p, s) => decode_segments p s key
  | None => Throw MalformedToken
  end.
Proof. reflexivity. Qed.

(** A token with one dot: both readings give the same two segments. *)
Lemma decodeToken_one_dot p s key :
  cu "." ∉ p -> cu "." ∉ s ->
  decodeToken (p ++ cu "." :: s) key = decode_segments p s key.
Proof.
  intros Hp Hs. rewrite decodeToken_split, split_app by assumption.
  rewrite split_without by assumption. reflexivity.
Qed.

(** A token with more dots: the second piece, up to the second dot, is
    the signature; what follows is not read. *)
Lemma decodeToken_more_dots p s rest key :
  cu "." ∉ p -> cu "." ∉ s ->
  decodeToken (p ++ cu "." :: s ++ cu "." :: rest) key = decode_segments p s key.
Proof.
  intros Hp Hs. rewrite decodeToken_split, !split_app by assumption.
  reflexivity.
Qed.

Lemma decode_segments_cases p s key :
  p <> [] -> s <> [] ->
  decode_segments p s key =
  if bool_decide (s = createHmac_sha256_base64 key p)
  then match JSON_parse (Buffer_toString_utf8 (Buffer_from_base64 p)) with
       | Some payload => Return payload
       | None => Throw SyntaxError
       end
  else Throw InvalidSignature.
Proof.
  intros Hp Hs. unfold decode_segments.
  destruct p; [congruence|]. destruct s; [congruence|]. simpl.
  repeat case_bool_decide; try reflexivity; contradiction.
Qed.

Lemma decode_segments_not_malformed p s key :
  p <> [] -> s <> [] -> decode_segments p s key <> Throw MalformedToken.
Proof.
  intros Hp Hs. rewrite decode_segments_cases by assumption.
  case_bool_decide; [|discriminate].
  destruct (JSON_parse _); discriminate.
Qed.

Lemma encodedPayload_nonempty user data : encodedPayload_of user data <> [].
Proof. apply encode_nonempty. discriminate. Qed.

Lemma encodedPayload_no_dot user data : cu "." ∉ encodedPayload_of user data.
Proof. apply encode_no_dot. Qed.

Lemma encodeToken_token user data key :
  token (encodeToken user data key)
  = encodedPayload_of user data
      ++ cu "." :: createHmac_sha256_base64 key (encodedPayload_of user data).
Proof. reflexivity. Qed.

Lemma encodeToken_first_segment user data key :
  first_segment (token (encodeToken user data key)) = encodedPayload_of user data.
Proof.
  rewrite encodeToken_token. unfold first_segment.
  rewrite split_first_app by apply encodedPayload_no_dot. reflexivity.
Qed.

Lemma encodeToken_signature_segment user data key :
  signature_segment (token (encodeToken user data key))
  = createHmac_sha256_base64 key (encodedPayload_of user data).
Proof.
  rewrite encodeToken_token. unfold signature_segment.
  rewrite split_first_app by apply encodedPayload_no_dot. reflexivity.
Qed.

Lemma count_occ_without (c : N) (l : jsstring) :
  c ∉ l -> count_occ N.eq_dec l c = 0%nat.
Proof. intros H. apply count_occ_not_In. rewrite <- list_elem_of_In. exact H. Qed.
End Segments.

(** ** The codec: claims *)

Section CodecClaims.
Implicit Types (token key p s user : jsstring) (data : json).

(** A literal has no such character. *)
Ltac not_in_literal :=
  vm_compute; intros H;
  repeat (apply elem_of_cons in H as [H|H]; [discriminate H|]);
  exact (not_elem_of_nil _ H).

Lemma payload_is_json user data :
  Json.is_string user = true -> Json.is_json data = true ->
  Json.is_json (payload_of user data) = true.
Proof.
  intros Hu Hd. unfold payload_of. cbn [Json.is_json forallb fst snd].
  rewrite Hu, Hd. reflexivity.
Qed.

(** The first segment holds the text of the payload. *)
Lemma encodedPayload_decodes user data :
  Json.is_string user = true -> Json.is_json data = true ->
  JSON_parse (Buffer_toString_utf8 (Buffer_from_base64 (encodedPayload_of user data)))
  = Some (payload_of user data).
Proof.
  intros Hu Hd. pose proof (payload_is_json user data Hu Hd) as Hp.
  unfold encodedPayload_of, Buffer_from_base64, Buffer_toString_base64,
    Buffer_toString_utf8, Buffer_from_utf8.
  rewrite decode_encode by (apply utf8_encode_bytes, stringify_wf16, Hp).
  rewrite utf8_decode_encode by (apply stringify_wf16, Hp).
  apply JSON_parse_stringify, Hp.
Qed.

(** The example of the specification, on the wire. *)
Example example_token_text :
  example_token
  = js "eyJ1c2VyIjoidTEiLCJkYXRhIjp7InJvbGUiOiJhZG1pbiJ9fQ==.ZC4DYcC46FhgP1d64V2JvdSqHmyLHEDTShSBd+v8g+0=".
Proof. vm_compute. reflexivity. Qed.

(** C1, as stated, fails: the payload decoded has no [subject] member;
    the subject is under [user]. *)
Lemma decodeToken_has_no_subject :
  decodeToken (token (encodeToken (js "u1") JNull (js "k1"))) (js "k1")
  <> Return (JObject [(js "subject", JString (js "u1")); (js "data", JNull)]).
Proof. vm_compute. discriminate. Qed.

(** C1, amended.  For every subject string, every data value that
    JSON text expresses ([null], booleans, strings, finite numbers
    other than [-0], arrays and objects of such values) and every
    secret key, decoding the token of [encodeToken] under the same key
    succeeds and returns the payload [{ user, data }], with the subject
    under [user] and no [context] member; and [encodeToken] sets no
    [context]. *)
Theorem decodeToken_encodeToken user data key :
  Json.is_string user = true -> Json.is_json data = true ->
  decodeToken (token (encodeToken user data key)) key
  = Return (JObject [(js "user", JString user); (js "data", data)])
  /\ context (encodeToken user data key) = None.
Proof.
  intros Hu Hd. split; [|reflexivity].
  rewrite encodeToken_token.
  rewrite decodeToken_one_dot
    by (apply encodedPayload_no_dot || apply signature_no_dot).
  rewrite decode_segments_cases
    by (apply encodedPayload_nonempty || apply signature_nonempty).
  rewrite bool_decide_eq_true_2 by reflexivity.
  rewrite encodedPayload_decodes by assumption. reflexivity.
Qed.

Lemma decodeToken_encodeToken_witness :
  decodeToken (token (encodeToken (js "u1") example_reading (js "k1"))) (js "k1")
  = Return (JObject [(js "user", JString (js "u1")); (js "data", example_reading)])
  /\ context (encodeToken (js "u1") example_reading (js "k1")) = None.
Proof.
  apply decodeToken_encodeToken; vm_compute; reflexivity.
Defined.

(** C2, as stated, fails: the first segment of the example token does
    not hold an object with a [subject] member. *)
Lemma example_payload_has_no_subject :
  JSON_parse (Buffer_toString_utf8 (Buffer_from_base64 (first_segment example_token)))
  <> Some (JObject [(js "subject", JString (js "u1")); (js "data", example_data)]).
Proof. vm_compute. discriminate. Qed.

(** C2, amended.  The first segment of the token of
    [encodeToken("u1", {"role":"admin"}, "k1")] holds the object
    [{"user":"u1","data":{"role":"admin"}}]; decoding the token with
    ["k1"] returns that object, and decoding it with ["k2"] fails with
    [InvalidSignature]. *)
Theorem example_token_decodes :
  JSON_parse (Buffer_toString_utf8 (Buffer_from_base64 (first_segment example_token)))
  = Some (JObject [(js "user", JString (js "u1")); (js "data", example_data)])
  /\ decodeToken example_token (js "k1")
     = Return (JObject [(js "user", JString (js "u1")); (js "data", example_data)])
  /\ decodeToken example_token (js "k2") = Throw InvalidSignature.
Proof. split; [|split]; vm_compute; reflexivity. Qed.

(** C3, as stated, fails: after a second [.] the token is not read at
    all, so a valid token with anything appended behind a [.] still
    decodes, where the split at the first [.] only would reject it. *)
Lemma decodeToken_ignores_after_second_dot :
  decodeToken (example_token ++ js ".x") (js "k1")
  = Return (payload_of (js "u1") example_data)
  /\ decodeToken_first_dot (example_token ++ js ".x") (js "k1") = Throw InvalidSignature
  /\ decodeToken (example_token ++ js ".x") (js "k1")
     <> decodeToken_first_dot (example_token ++ js ".x") (js "k1").
Proof. split; [|split]; vm_compute; (reflexivity || discriminate). Qed.

(** C3, amended.  [decodeToken] splits at every [.]: the first segment
    is the text before the first [.], the signature segment the text
    between the first [.] and the second, if there is one; what follows
    a second [.] is ignored.  So a token decodes as the token cut
    before its second [.] does under the split at the first [.]. *)
Theorem decodeToken_splits_every_dot p s tail key :
  cu "." ∉ p -> cu "." ∉ s ->
  tail = [] \/ (exists rest, tail = cu "." :: rest) ->
  decodeToken (p ++ cu "." :: s ++ tail) key
  = decodeToken_first_dot (p ++ cu "." :: s) key.
Proof.
  intros Hp Hs Ht.
  rewrite decodeToken_first_dot_split, split_first_app by assumption.
  destruct Ht as [->|[rest ->]].
  - rewrite app_nil_r. apply decodeToken_one_dot; assumption.
  - apply decodeToken_more_dots; assumption.
Qed.

Lemma decodeToken_splits_every_dot_witness :
  decodeToken (js "ab" ++ cu "." :: js "cd" ++ js ".ef.gh") (js "k1")
  = decodeToken_first_dot (js "ab" ++ cu "." :: js "cd") (js "k1").
Proof.
  apply decodeToken_splits_every_dot.
  - not_in_literal.
  - not_in_literal.
  - right. eexists. reflexivity.
Defined.

(** C4, as stated, fails: a [.] written over the first character of
    the signature leaves an empty signature segment, and the token is
    rejected as malformed. *)
Lemma tamper_first_character_with_dot :
  signature_segment example_token !! 0%nat = Some (cu "Z")
  /\ cu "." <> cu "Z"
  /\ decodeToken (first_segment example_token
                    ++ cu "." :: replace_at 0 (cu ".") (signature_segment example_token))
                 (js "k1")
     = Throw MalformedToken
  /\ Throw MalformedToken <> @Throw json InvalidSignature.
Proof. split; [|split; [|split]]; vm_compute; (reflexivity || discriminate). Qed.

(** C4, amended.  Changing one character of the signature segment of a
    valid token to a different one makes [decodeToken] fail under the
    key of the token: with [InvalidSignature], except that a [.] put in
    place of the first character gives [MalformedToken]. *)
Theorem decodeToken_tampered_signature user data key i c c0 :
  let t := token (encodeToken user data key) in
  signature_segment t !! i = Some c0 ->
  c <> c0 ->
  decodeToken (first_segment t ++ cu "." :: replace_at i c (signature_segment t)) key
  = Throw (if bool_decide (i = 0%nat /\ c = cu ".") then MalformedToken
           else InvalidSignature).
Proof.
  intros t. subst t.
  rewrite encodeToken_first_segment, encodeToken_signature_segment.
  pose proof (encodedPayload_no_dot user data) as Hp.
  pose proof (encodedPayload_nonempty user data) as Hp'.
  set (p := encodedPayload_of user data) in *.
  pose proof (signature_no_dot key p) as Hs.
  set (s := createHmac_sha256_base64 key p) in *.
  intros Hi Hc. unfold replace_at.
  assert (Hlt : (i < length s)%nat) by (eapply lookup_lt_Some; exact Hi).
  assert (Htake : cu "." ∉ take i s).
  { intros H. apply Hs. rewrite <- (take_drop i s). apply elem_of_app. left. exact H. }
  assert (Hdrop : cu "." ∉ drop (S i) s).
  { intros H. apply Hs. rewrite <- (take_drop (S i) s). apply elem_of_app. right. exact H. }
  destruct (decide (c = cu ".")) as [->|Hdot].
  - rewrite decodeToken_more_dots by assumption.
    destruct i as [|i].
    + rewrite bool_decide_eq_true_2 by (split; reflexivity).
      rewrite take_0. unfold decode_segments. simpl. rewrite ?orb_true_r. reflexivity.
    + rewrite bool_decide_eq_false_2 by (intros [? _]; discriminate).
      rewrite decode_segments_cases.
      * rewrite bool_decide_eq_false_2; [reflexivity|].
        intros Heq. apply (f_equal length) in Heq.
        rewrite length_take in Heq. fold s in Heq. lia.
      * assumption.
      * destruct s; [simpl in Hlt; lia|]. discriminate.
  - rewrite bool_decide_eq_false_2 by (intros [_ ?]; contradiction).
    rewrite decodeToken_one_dot.
    + rewrite decode_segments_cases.
      * rewrite bool_decide_eq_false_2; [reflexivity|].
        intros Heq. apply (f_equal (fun l => l !! i)) in Heq.
        cbv beta in Heq. fold s in Heq. rewrite Hi in Heq.
        rewrite lookup_app_r in Heq by (rewrite length_take; lia).
        rewrite length_take in Heq.
        replace (i - i `min` length s)%nat with 0%nat in Heq by lia.
        simpl in Heq. congruence.
      * assumption.
      * destruct (take i s); discriminate.
    + assumption.
    + intros H. apply elem_of_app in H as [H|H]; [exact (Htake H)|].
      apply elem_of_cons in H as [H|H]; [congruence|exact (Hdrop H)].
Qed.

Lemma decodeToken_tampered_signature_witness :
  signature_segment example_token !! 3%nat = Some (cu "D")
  /\ cu "E" <> cu "D"
  /\ decodeToken (first_segment example_token
                    ++ cu "." :: replace_at 3 (cu "E") (signature_segment example_token))
                 (js "k1")
     = Throw InvalidSignature.
Proof.
  assert (H1 : signature_segment example_token !! 3%nat = Some (cu "D"))
    by (vm_compute; reflexivity).
  assert (H2 : cu "E" <> cu "D") by (vm_compute; discriminate).
  split; [exact H1|]. split; [exact H2|].
  exact (decodeToken_tampered_signature (js "u1") example_data (js "k1") 3 _ _ H1 H2).
Defined.

(** C5.  A token with no [.], or with nothing before its first [.], or
    with nothing after it, is rejected with [MalformedToken]. *)
Theorem decodeToken_malformed token key :
  cu "." ∉ token \/ first_segment token = [] \/ signature_segment token = [] ->
  decodeToken token key = Throw MalformedToken.
Proof.
  intros H. rewrite decodeToken_split.
  destruct (decide (cu "." ∈ token)) as [Hin|Hout].
  - destruct (cut_at_first _ _ Hin) as (a & b & -> & Ha).
    unfold first_segment, signature_segment in H.
    rewrite split_first_app in H by assumption.
    rewrite split_app by assumption.
    destruct H as [H|[->| ->]].
    + exfalso. apply H, elem_of_app. right. apply elem_of_cons. left. reflexivity.
    + pose proof (split_nonempty (cu ".") b).
      destruct (split (cu ".") b); [contradiction|reflexivity].
    + simpl. unfold decode_segments. simpl. rewrite orb_true_r. reflexivity.
  - rewrite split_without by assumption. reflexivity.
Qed.

Lemma decodeToken_malformed_witness :
  (cu "." ∉ js "abc" \/ first_segment (js "abc") = [] \/ signature_segment (js "abc") = [])
  /\ decodeToken (js "abc") (js "k1") = Throw MalformedToken.
Proof.
  assert (H : cu "." ∉ js "abc" \/ first_segment (js "abc") = []
              \/ signature_segment (js "abc") = []).
  { left. not_in_literal. }
  split; [exact H | exact (decodeToken_malformed (js "abc") (js "k1") H)].
Defined.

(** C6, as stated, fails on both counts: a first segment that is not
    JSON makes [JSON.parse] throw its [SyntaxError], and one that holds
    JSON of another shape is returned as it is. *)
Lemma decodeToken_unshaped_payload :
  (JSON_parse (Buffer_toString_utf8 (Buffer_from_base64 (js "MTIz")))
   = Some (JNumber (Number.of_Z 123))
   /\ has_payload_shape (JNumber (Number.of_Z 123)) = false
   /\ decodeToken (js "MTIz" ++ cu "." :: createHmac_sha256_base64 (js "k1") (js "MTIz"))
                  (js "k1")
      = Return (JNumber (Number.of_Z 123)))
  /\ (JSON_parse (Buffer_toString_utf8 (Buffer_from_base64 (js "dTE="))) = None
      /\ decodeToken (js "dTE=" ++ cu "." :: createHmac_sha256_base64 (js "k1") (js "dTE="))
                     (js "k1")
         = Throw SyntaxError)
  /\ Throw SyntaxError <> @Throw json MalformedToken.
Proof.
  split; [split; [|split]|split; [split|]]; vm_compute; (reflexivity || discriminate).
Qed.

(** C6, amended.  A token whose first two segments are not empty and
    whose signature matches, whatever follows a second [.], passes
    both checks of [decodeToken]; after them nothing fails with
    [MalformedToken]: if the decoded first segment is not JSON the
    [SyntaxError] of the parser is thrown, and if it is JSON, of the
    payload shape or not, the parsed value is returned. *)
Theorem decodeToken_signed_segment p tail key :
  p <> [] -> cu "." ∉ p ->
  tail = [] \/ (exists rest, tail = cu "." :: rest) ->
  let t := p ++ cu "." :: createHmac_sha256_base64 key p ++ tail in
  decodeToken t key
  = match JSON_parse (Buffer_toString_utf8 (Buffer_from_base64 p)) with
    | Some v => Return v
    | None => Throw SyntaxError
    end
  /\ decodeToken t key <> Throw MalformedToken.
Proof.
  intros Hp Hdot Htail t. subst t.
  assert (H : decodeToken (p ++ cu "." :: createHmac_sha256_base64 key p ++ tail) key
              = decode_segments p (createHmac_sha256_base64 key p) key).
  { destruct Htail as [->|[rest ->]].
    - rewrite app_nil_r. apply decodeToken_one_dot; [assumption|apply signature_no_dot].
    - apply decodeToken_more_dots; [assumption|apply signature_no_dot]. }
  rewrite H. split.
  - rewrite decode_segments_cases by (assumption || apply signature_nonempty).
    rewrite bool_decide_eq_true_2 by reflexivity. reflexivity.
  - apply decode_segments_not_malformed; [assumption|apply signature_nonempty].
Qed.

Lemma decodeToken_signed_segment_witness :
  let t := js "MWUy" ++ cu "." :: createHmac_sha256_base64 (js "k1") (js "MWUy") ++ js ".x" in
  decodeToken t (js "k1")
  = match JSON_parse (Buffer_toString_utf8 (Buffer_from_base64 (js "MWUy"))) with
    | Some v => Return v
    | None => Throw SyntaxError
    end
  /\ decodeToken t (js "k1") <> Throw MalformedToken.
Proof.
  apply decodeToken_signed_segment.
  - vm_compute. discriminate.
  - not_in_literal.
  - right. eexists. reflexivity.
Defined.

(** Signed segments that hold a number with an exponent, and a code
    unit above [0xFF] where the text [MTIz] has its [M]: the first
    decodes to 100, the second to 123. *)
Example decodeToken_signed_numbers :
  decodeToken (js "MWUy" ++ cu "." :: createHmac_sha256_base64 (js "k1") (js "MWUy"))
              (js "k1")
  = Return (JNumber (Number.of_Z 100))
  /\ decodeToken ((0x14D%N :: js "TIz")
                    ++ cu "." :: createHmac_sha256_base64 (js "k1") (0x14D%N :: js "TIz"))
                 (js "k1")
     = Return (JNumber (Number.of_Z 123)).
Proof. split; vm_compute; reflexivity. Qed.

(** C7.  A token verified under a key that signs its first segment
    differently is rejected with [InvalidSignature]. *)
Theorem decodeToken_wrong_key user data k1 k2 :
  let t := token (encodeToken user data k1) in
  createHmac_sha256_base64 k2 (first_segment t)
    <> createHmac_sha256_base64 k1 (first_segment t) ->
  decodeToken t k2 = Throw InvalidSignature.
Proof.
  intros t. subst t. rewrite encodeToken_first_segment, encodeToken_token.
  intros Hne.
  rewrite decodeToken_one_dot
    by (apply encodedPayload_no_dot || apply signature_no_dot).
  rewrite decode_segments_cases
    by (apply encodedPayload_nonempty || apply signature_nonempty).
  case_bool_decide; [congruence|reflexivity].
Qed.

Lemma decodeToken_wrong_key_witness :
  createHmac_sha256_base64 (js "k2") (first_segment example_token)
    <> createHmac_sha256_base64 (js "k1") (first_segment example_token)
  /\ decodeToken example_token (js "k2") = Throw InvalidSignature.
Proof.
  assert (H : createHmac_sha256_base64 (js "k2") (first_segment example_token)
              <> createHmac_sha256_base64 (js "k1") (first_segment example_token)).
  { vm_compute. discriminate. }
  split; [exact H|].
  exact (decodeToken_wrong_key (js "u1") example_data (js "k1") (js "k2") H).
Defined.

(** C10.  A token made by [encodeToken] has exactly one [.], with a
    segment on each side of it, and [decodeToken] never rejects it as
    malformed, whatever the key. *)
Theorem encodeToken_well_formed user data key :
  let t := token (encodeToken user data key) in
  count_occ N.eq_dec t (cu ".") = 1%nat
  /\ t = first_segment t ++ cu "." :: signature_segment t
  /\ first_segment t <> []
  /\ signature_segment t <> []
  /\ forall key', decodeToken t key' <> Throw MalformedToken.
Proof.
  intros t. subst t.
  rewrite encodeToken_first_segment, encodeToken_signature_segment.
  rewrite encodeToken_token.
  pose proof (encodedPayload_no_dot user data) as Hp.
  pose proof (encodedPayload_nonempty user data) as Hp'.
  set (p := encodedPayload_of user data) in *.
  pose proof (signature_no_dot key p) as Hs.
  pose proof (signature_nonempty key p) as Hs'.
  set (s := createHmac_sha256_base64 key p) in *.
  repeat split; try assumption.
  - rewrite count_occ_app, count_occ_cons_eq by reflexivity.
    rewrite !count_occ_without by assumption. reflexivity.
  - intros key'. rewrite decodeToken_one_dot by assumption.
    apply decode_segments_not_malformed; assumption.
Qed.
End CodecClaims.

(** ** The codec: what else the code shows *)

Section CodecFurther.
Implicit Types (token key p s user : jsstring) (data : json).

(** The first piece of a split is empty exactly when the text is empty
    or begins with the separator. *)
Lemma split_head_nil sep b :
  (exists rest, split sep b = [] :: rest) <-> b = [] \/ exists b', b = sep :: b'.
Proof.
  destruct b as [|c r]; simpl.
  - split; [auto|]. intros _. eexists. reflexivity.
  - destruct (N.eqb_spec c sep) as [->|Hne].
    + split; [intros _; right; eexists; reflexivity|]. intros _. eexists. reflexivity.
    + split.
      * intros [rest H]. destruct (split sep r); discriminate.
      * intros [H|[b' H]]; [discriminate|]. injection H as H _. contradiction.
Qed.

(** X1.  [decodeToken] returns a value exactly when the token has at
    least two pieces between dots, the first is not empty, the second
    is the HMAC of the first under the key, and the first decodes to
    JSON text; the value is the one parsed. *)
Theorem decodeToken_returns_iff token key v :
  decodeToken token key = Return v <->
  exists p s rest,
    split (cu ".") token = p :: s :: rest
    /\ p <> []
    /\ s = createHmac_sha256_base64 key p
    /\ JSON_parse (Buffer_toString_utf8 (Buffer_from_base64 p)) = Some v.
Proof.
  rewrite decodeToken_split. split.
  - destruct (split (cu ".") token) as [|p [|s rest]]; try discriminate.
    intros H. exists p, s, rest. split; [reflexivity|].
    destruct p as [|c p]; [discriminate H|].
    destruct s as [|c' s]; [simpl in H; discriminate H|].
    rewrite decode_segments_cases in H by discriminate.
    case_bool_decide as Hs; [|discriminate H].
    destruct (JSON_parse _) as [v'|]; [|discriminate H].
    injection H as ->. repeat split; [discriminate|exact Hs].
  - intros (p & s & rest & -> & Hp & -> & Hv).
    rewrite decode_segments_cases by (assumption || apply signature_nonempty).
    rewrite bool_decide_eq_true_2 by reflexivity. rewrite Hv. reflexivity.
Qed.

(** X2.  [decodeToken] fails with [InvalidSignature] exactly when the
    token has two non-empty pieces and the second is not the HMAC of
    the first under the key: the signature is compared before the
    payload is decoded, so what the first piece holds plays no part. *)
Theorem decodeToken_invalid_iff token key :
  decodeToken token key = Throw InvalidSignature <->
  exists p s rest,
    split (cu ".") token = p :: s :: rest
    /\ p <> [] /\ s <> []
    /\ s <> createHmac_sha256_base64 key p.
Proof.
  rewrite decodeToken_split. split.
  - destruct (split (cu ".") token) as [|p [|s rest]]; try discriminate.
    intros H. exists p, s, rest. split; [reflexivity|].
    destruct p as [|c p]; [discriminate H|].
    destruct s as [|c' s]; [simpl in H; discriminate H|].
    rewrite decode_segments_cases in H by discriminate.
    case_bool_decide as Hs.
    + destruct (JSON_parse _); discriminate H.
    + repeat split; (discriminate || exact Hs).
  - intros (p & s & rest & -> & Hp & Hs & Hne).
    rewrite decode_segments_cases by assumption.
    rewrite bool_decide_eq_false_2 by exact Hne. reflexivity.
Qed.

(** X3.  [decodeToken] fails with [MalformedToken] exactly when the
    token has no dot, or has nothing before its first dot, or has
    nothing between its first dot and the next dot or the end; the key
    plays no part. *)
Theorem decodeToken_malformed_iff token key :
  decodeToken token key = Throw MalformedToken <->
  cu "." ∉ token
  \/ (exists a b,
        token = a ++ cu "." :: b /\ (cu "." ∉ a)
        /\ (a = [] \/ b = [] \/ (exists b', b = cu "." :: b'))).
Proof.
  rewrite decodeToken_split. split.
  - intros H. destruct (decide (cu "." ∈ token)) as [Hin|Hout]; [right|left; exact Hout].
    destruct (cut_at_first _ _ Hin) as (a & b & -> & Ha).
    exists a, b. split; [reflexivity|]. split; [exact Ha|].
    rewrite split_app in H by exact Ha.
    destruct a as [|c a]; [left; reflexivity|right].
    apply split_head_nil.
    destruct (split (cu ".") b) as [|[|c' s] rest] eqn:E.
    + exfalso. exact (split_nonempty _ _ E).
    + eexists. reflexivity.
    + exfalso. revert H. apply decode_segments_not_malformed; discriminate.
  - intros [Hout|(a & b & -> & Ha & Hcase)].
    + rewrite split_without by exact Hout. reflexivity.
    + rewrite split_app by exact Ha.
      pose proof (split_nonempty (cu ".") b) as Hne.
      destruct Hcase as [->|Hb].
      * destruct (split (cu ".") b); [contradiction|reflexivity].
      * apply split_head_nil in Hb as [rest ->].
        unfold decode_segments. simpl. rewrite orb_true_r. reflexivity.
Qed.

(** X4.  The payload travels in clear: for a subject string and a
    data value that JSON text expresses, the first segment of the
    token decodes to the payload without the key. *)
Theorem token_payload_in_clear user data key :
  Json.is_string user = true -> Json.is_json data = true ->
  JSON_parse (Buffer_toString_utf8 (Buffer_from_base64
                (first_segment (token (encodeToken user data key)))))
  = Some (JObject [(js "user", JString user); (js "data", data)]).
Proof.
  intros Hu Hd. rewrite encodeToken_first_segment.
  apply encodedPayload_decodes; assumption.
Qed.

Lemma token_payload_in_clear_witness :
  JSON_parse (Buffer_toString_utf8 (Buffer_from_base64
                (first_segment (token (encodeToken (js "u1") example_reading (js "k1"))))))
  = Some (JObject [(js "user", JString (js "u1")); (js "data", example_reading)]).
Proof. apply token_payload_in_clear; vm_compute; reflexivity. Defined.

(** X5.  Tokens do not collide on what JSON text expresses: two calls
    of [encodeToken] on subject strings and on data values that JSON
    text expresses, if they give the same token, were given the same
    subject and the same data. *)
Theorem encodeToken_injective user data key user' data' key' :
  Json.is_string user = true -> Json.is_json data = true ->
  Json.is_string user' = true -> Json.is_json data' = true ->
  token (encodeToken user data key) = token (encodeToken user' data' key') ->
  user = user' /\ data = data'.
Proof.
  intros Hu Hd Hu' Hd' H. apply (f_equal first_segment) in H.
  rewrite !encodeToken_first_segment in H.
  pose proof (encodedPayload_decodes user data Hu Hd) as E.
  rewrite H, encodedPayload_decodes in E by assumption.
  injection E as -> ->. split; reflexivity.
Qed.

Lemma encodeToken_injective_witness :
  js "u1" = js "u1" /\ example_reading = example_reading.
Proof.
  apply (encodeToken_injective (js "u1") example_reading (js "k1")
           (js "u1") example_reading (js "k1")); vm_compute; reflexivity.
Defined.




(** X7.  Under any key, decoding the token [encodeToken] makes of a
    subject string and a data value that JSON text expresses either
    returns its payload or fails with [InvalidSignature]: it returns
    exactly when the key signs the first segment as the key of the
    token does. *)
Theorem decodeToken_any_key user data key key' :
  Json.is_string user = true -> Json.is_json data = true ->
  decodeToken (token (encodeToken user data key)) key'
  = if bool_decide (createHmac_sha256_base64 key' (encodedPayload_of user data)
                    = createHmac_sha256_base64 key (encodedPayload_of user data))
    then Return (JObject [(js "user", JString user); (js "data", data)])
    else Throw InvalidSignature.
Proof.
  intros Hu Hd. rewrite encodeToken_token.
  rewrite decodeToken_one_dot
    by (apply encodedPayload_no_dot || apply signature_no_dot).
  rewrite decode_segments_cases
    by (apply encodedPayload_nonempty || apply signature_nonempty).
  rewrite encodedPayload_decodes by assumption.
  destruct (decide (createHmac_sha256_base64 key' (encodedPayload_of user data)
                    = createHmac_sha256_base64 key (encodedPayload_of user data)))
    as [Heq|Hne].
  - rewrite !bool_decide_eq_true_2 by congruence. reflexivity.
  - rewrite !bool_decide_eq_false_2 by congruence. reflexivity.
Qed.

Lemma decodeToken_any_key_witness :
  decodeToken (token (encodeToken (js "u1") example_reading (js "k1"))) (js "k2")
  = if bool_decide (createHmac_sha256_base64 (js "k2") (encodedPayload_of (js "u1") example_reading)
                    = createHmac_sha256_base64 (js "k1") (encodedPayload_of (js "u1") example_reading))
    then Return (JObject [(js "user", JString (js "u1")); (js "data", example_reading)])
    else Throw InvalidSignature.
Proof. apply decodeToken_any_key; vm_compute; reflexivity. Defined.

(** X15.  What JSON text does not express is not kept: a number that
    is not finite is written as [null] and [-0] as [0], so the token
    is the token of that other value, and decoding returns it. *)
Theorem encodeToken_number_not_kept user key x :
  Json.is_string user = true ->
  x = S754_zero true \/ Number.is_finite x = false ->
  let lost := if Number.is_finite x then JNumber (S754_zero false) else JNull in
  token (encodeToken user (JNumber x) key) = token (encodeToken user lost key)
  /\ decodeToken (token (encodeToken user (JNumber x) key)) key
     = Return (JObject [(js "user", JString user); (js "data", lost)]).
Proof.
  intros Hu Hx lost.
  assert (Hlost : Json.is_json lost = true
                  /\ Json.stringify lost = Json.stringify (JNumber x)).
  { subst lost. destruct Hx as [->|Hx]; [split; reflexivity|].
    cbn [Json.stringify]. rewrite Hx. split; reflexivity. }
  destruct Hlost as [Hj Ht].
  assert (Htok : token (encodeToken user (JNumber x) key) = token (encodeToken user lost key)).
  { unfold encodeToken, JSON_stringify, payload_of.
    cbn [token Json.stringify Json.join Json.join_tail fst snd].
    rewrite Ht. reflexivity. }
  split; [exact Htok|]. rewrite Htok, encodeToken_token.
  rewrite decodeToken_one_dot
    by (apply encodedPayload_no_dot || apply signature_no_dot).
  rewrite decode_segments_cases
    by (apply encodedPayload_nonempty || apply signature_nonempty).
  rewrite bool_decide_eq_true_2 by reflexivity.
  rewrite encodedPayload_decodes by assumption. reflexivity.
Qed.

Lemma encodeToken_number_not_kept_witness :
  (token (encodeToken (js "u1") (JNumber (S754_zero true)) (js "k1"))
   = token (encodeToken (js "u1") (JNumber (S754_zero false)) (js "k1"))
   /\ decodeToken (token (encodeToken (js "u1") (JNumber (S754_zero true)) (js "k1"))) (js "k1")
      = Return (JObject [(js "user", JString (js "u1")); (js "data", JNumber (S754_zero false))]))
  /\ (token (encodeToken (js "u1") (JNumber S754_nan) (js "k1"))
      = token (encodeToken (js "u1") JNull (js "k1"))
      /\ decodeToken (token (encodeToken (js "u1") (JNumber S754_nan) (js "k1"))) (js "k1")
         = Return (JObject [(js "user", JString (js "u1")); (js "data", JNull)])).
Proof.
  split.
  - apply (encodeToken_number_not_kept (js "u1") (js "k1") (S754_zero true));
      [reflexivity|left; reflexivity].
  - apply (encodeToken_number_not_kept (js "u1") (js "k1") S754_nan);
      [reflexivity|right; reflexivity].
Defined.

(** X14.  What line 64 does to a text, line 97 undoes: a well-formed
    string put through UTF-8 and base64 comes back as it was from
    base64 and UTF-8. *)
Theorem segment_carries_text s :
  wf16 s ->
  Buffer_toString_utf8 (Buffer_from_base64 (Buffer_toString_base64 (Buffer_from_utf8 s)))
  = s.
Proof.
  intros Hs. unfold Buffer_toString_utf8, Buffer_from_base64, Buffer_toString_base64,
    Buffer_from_utf8.
  rewrite decode_encode by (apply utf8_encode_bytes, Hs).
  apply utf8_decode_encode, Hs.
Qed.

Lemma segment_carries_text_witness :
  Buffer_toString_utf8 (Buffer_from_base64 (Buffer_toString_base64
                          (Buffer_from_utf8 [0x41; 0xE9; 0xD83D; 0xDE00]%N)))
  = [0x41; 0xE9; 0xD83D; 0xDE00]%N.
Proof.
  apply segment_carries_text.
  apply wf16_unit; [lia|reflexivity|reflexivity|].
  apply wf16_unit; [lia|reflexivity|reflexivity|].
  apply wf16_pair; [reflexivity|reflexivity|]. apply wf16_nil.
Defined.
End CodecFurther.

(** ** The record store: what an update does *)

Section Store.
Implicit Types (d filter fields : gmap string bson) (c : list (gmap string bson)).
Implicit Types (db : database) (r : UserFormat.t).

Lemma matches_id userId d :
  matches (id_filter userId) d = true <-> d !! "id" = Some (BString userId).
Proof.
  unfold matches, id_filter. rewrite bool_decide_eq_true.
  rewrite map_Forall_singleton. reflexivity.
Qed.

Lemma matches_id_false userId d :
  matches (id_filter userId) d = false <-> d !! "id" <> Some (BString userId).
Proof.
  rewrite <- matches_id. destruct (matches _ d); split; congruence.
Qed.

Lemma updateFilter_id r : updateFilter r !! "id" = Some (BString (UserFormat.id r)).
Proof. reflexivity. Qed.

Lemma updateFilter_other r f :
  f ∉ ["id"; "email"; "firstname"; "lastname"] -> updateFilter r !! f = None.
Proof.
  intros Hf. unfold updateFilter.
  repeat (rewrite lookup_insert_ne;
          [|intros <-; apply Hf; repeat constructor]).
  apply lookup_singleton_ne. intros <-. apply Hf. repeat constructor.
Qed.

(** The fields set over the filter are the fields set. *)
Lemma updateFilter_over_filter r :
  updateFilter r ∪ id_filter (UserFormat.id r) = updateFilter r.
Proof.
  apply map_eq. intros k. rewrite lookup_union.
  unfold id_filter. destruct (decide (k = "id")) as [->|Hk].
  - rewrite updateFilter_id, lookup_singleton_eq. reflexivity.
  - rewrite lookup_singleton_ne by congruence.
    destruct (updateFilter r !! k); reflexivity.
Qed.

Lemma updated_matches r d : matches (id_filter (UserFormat.id r)) (updateFilter r ∪ d) = true.
Proof.
  apply matches_id. apply lookup_union_Some_l, updateFilter_id.
Qed.

(** [set_first] rewrites the first match, in place, and only it. *)
Lemma set_first_Some filter fields c c' :
  set_first filter fields c = Some c' ->
  exists pre d post,
    c = pre ++ d :: post
    /\ Forall (fun d' => matches filter d' = false) pre
    /\ matches filter d = true
    /\ c' = pre ++ (fields ∪ d) :: post.
Proof.
  revert c'. induction c as [|d0 c IH]; intros c' H; simpl in H; [discriminate|].
  destruct (matches filter d0) eqn:Hm.
  - injection H as <-. exists [], d0, c. repeat split; auto.
  - destruct (set_first filter fields c) as [r'|]; [|discriminate].
    injection H as <-.
    destruct (IH _ eq_refl) as (pre & d & post & -> & Hpre & Hd & ->).
    exists (d0 :: pre), d, post. repeat split; auto.
Qed.

Lemma set_first_None filter fields c :
  set_first filter fields c = None ->
  Forall (fun d' => matches filter d' = false) c.
Proof.
  induction c as [|d0 c IH]; intros H; simpl in H; [constructor|].
  destruct (matches filter d0) eqn:Hm; [discriminate|].
  destruct (set_first filter fields c); [discriminate|].
  constructor; auto.
Qed.

Lemma findOne_app_skip filter pre c :
  Forall (fun d' => matches filter d' = false) pre ->
  findOne filter (pre ++ c) = findOne filter c.
Proof.
  unfold findOne. induction 1 as [|d0 pre Hd _ IH]; simpl; [reflexivity|].
  rewrite Hd. exact IH.
Qed.

Lemma findOne_none filter c :
  Forall (fun d' => matches filter d' = false) c -> findOne filter c = None.
Proof.
  intros H. rewrite <- (app_nil_r c). rewrite findOne_app_skip by exact H. reflexivity.
Qed.

Lemma getCollection_insert name name' c db n :
  getCollection name' (Database n (<[name := c]> (collections db)))
  = if decide (name = name') then c else getCollection name' db.
Proof.
  unfold getCollection. simpl. rewrite lookup_insert.
  destruct (decide (name = name')); reflexivity.
Qed.

(** What one update call does to the store. *)
Lemma updateUser_effect r db :
  let db' := snd (updateUser r false db) in
  (forall other, other <> user_info -> getCollection other db' = getCollection other db)
  /\ ((exists pre d post,
         getCollection user_info db = pre ++ d :: post
         /\ Forall (fun d' => d' !! "id" <> Some (BString (UserFormat.id r))) pre
         /\ d !! "id" = Some (BString (UserFormat.id r))
         /\ getCollection user_info db' = pre ++ (updateFilter r ∪ d) :: post)
      \/ (Forall (fun d' => d' !! "id" <> Some (BString (UserFormat.id r)))
                 (getCollection user_info db)
          /\ getCollection user_info db'
             = getCollection user_info db
                 ++ [<["_id" := BObjectId (next_oid db)]> (updateFilter r)])).
Proof.
  intros db'. subst db'. unfold updateUser, updateOne. simpl.
  fold user_info. fold (id_filter (UserFormat.id r)).
  destruct (set_first _ _ (getCollection user_info db)) as [c'|] eqn:Hset.
  - split.
    + intros other Hother. rewrite getCollection_insert.
      destruct (decide (user_info = other)); congruence.
    + left. apply set_first_Some in Hset as (pre & d & post & Hc & Hpre & Hd & ->).
      exists pre, d, post. repeat split.
      * exact Hc.
      * eapply Forall_impl; [exact Hpre|]. intros d'. apply matches_id_false.
      * apply matches_id, Hd.
      * rewrite getCollection_insert. rewrite decide_True by reflexivity. reflexivity.
  - split.
    + intros other Hother. rewrite getCollection_insert.
      destruct (decide (user_info = other)); congruence.
    + right. apply set_first_None in Hset. split.
      * eapply Forall_impl; [exact Hset|]. intros d'. apply matches_id_false.
      * rewrite getCollection_insert. rewrite decide_True by reflexivity.
        rewrite updateFilter_over_filter. reflexivity.
Qed.
End Store.

(** ** The record store: claims *)

Section StoreClaims.
Implicit Types (d : gmap string bson) (db : database) (r : UserFormat.t).

Lemma updateFilter_fields r d :
  (updateFilter r ∪ d) !! "id" = Some (BString (UserFormat.id r))
  /\ (updateFilter r ∪ d) !! "email" = Some (BString (UserFormat.email r))
  /\ (updateFilter r ∪ d) !! "firstname" = Some (BString (UserFormat.firstname r))
  /\ (updateFilter r ∪ d) !! "lastname" = Some (BString (UserFormat.lastname r)).
Proof. repeat split; apply lookup_union_Some_l; reflexivity. Qed.

Lemma created_fields r n :
  let d := <["_id" := BObjectId n]> (updateFilter r) in
  d !! "id" = Some (BString (UserFormat.id r))
  /\ d !! "email" = Some (BString (UserFormat.email r))
  /\ d !! "firstname" = Some (BString (UserFormat.firstname r))
  /\ d !! "lastname" = Some (BString (UserFormat.lastname r)).
Proof. repeat split; reflexivity. Qed.

(** After an update the first document under the identifier is the
    one written. *)
Lemma getUser_after_update r db :
  exists user,
    getUser (UserFormat.id r) false (snd (updateUser r false db)) = Resolved user
    /\ user !! "id" = Some (BString (UserFormat.id r))
    /\ user !! "email" = Some (BString (UserFormat.email r))
    /\ user !! "firstname" = Some (BString (UserFormat.firstname r))
    /\ user !! "lastname" = Some (BString (UserFormat.lastname r)).
Proof.
  destruct (updateUser_effect r db) as [_ [(pre & d & post & _ & Hpre & _ & Hc')|[Hc Hc']]];
    unfold getUser; fold user_info; fold (id_filter (UserFormat.id r)); rewrite Hc'.
  - exists (updateFilter r ∪ d).
    rewrite findOne_app_skip
      by (eapply Forall_impl; [exact Hpre|]; intros d'; apply matches_id_false).
    unfold findOne. simpl. rewrite updated_matches.
    split; [reflexivity|]. apply updateFilter_fields.
  - exists (<["_id" := BObjectId (next_oid db)]> (updateFilter r)).
    rewrite findOne_app_skip
      by (eapply Forall_impl; [exact Hc|]; intros d'; apply matches_id_false).
    unfold findOne. simpl.
    replace (matches _ _) with true by (symmetry; apply matches_id; reflexivity).
    split; [reflexivity|]. apply created_fields.
Qed.

(** Updates under other identifiers leave no document under [i]. *)
Lemma run_updates_without calls : forall db i,
  (forall r, (r, false) ∈ calls -> UserFormat.id r <> i) ->
  Forall (fun d => d !! "id" <> Some (BString i)) (getCollection user_info db) ->
  Forall (fun d => d !! "id" <> Some (BString i))
         (getCollection user_info (run_updates calls db)).
Proof.
  induction calls as [|[r fault] calls IH]; intros db i Hcalls Hdb; simpl; [exact Hdb|].
  apply IH.
  - intros r' Hr'. apply Hcalls. apply elem_of_cons. right. exact Hr'.
  - destruct fault; [exact Hdb|].
    assert (Hr : UserFormat.id r <> i) by (apply Hcalls; apply elem_of_cons; left; reflexivity).
    destruct (updateUser_effect r db)
      as [_ [(pre & d & post & Hc & _ & _ & Hc')|[_ Hc']]]; rewrite Hc'.
    + rewrite Hc in Hdb. apply Forall_app in Hdb as [Hpre Hdpost].
      apply Forall_cons in Hdpost as [_ Hpost].
      apply Forall_app. split; [exact Hpre|]. apply Forall_cons. split; [|exact Hpost].
      destruct (updateFilter_fields r d) as [-> _]. congruence.
    + apply Forall_app. split; [exact Hdb|]. apply Forall_cons. split; [|constructor].
      destruct (created_fields r (next_oid db)) as [-> _]. congruence.
Qed.

(** C9.  After a successful update, fetching under the identifier of
    the record resolves to a document with the four fields as passed;
    and in a store filled by updates only, fetching under an identifier
    no successful update carried is rejected with ["UserNotFound"]. *)
Theorem getUser_after_updates r fault db db' calls i :
  updateUser r fault db = (Resolved tt, db') ->
  (forall r', (r', false) ∈ calls -> UserFormat.id r' <> i) ->
  (exists user,
      getUser (UserFormat.id r) false db' = Resolved user
      /\ user !! "id" = Some (BString (UserFormat.id r))
      /\ user !! "email" = Some (BString (UserFormat.email r))
      /\ user !! "firstname" = Some (BString (UserFormat.firstname r))
      /\ user !! "lastname" = Some (BString (UserFormat.lastname r)))
  /\ getUser i false (run_updates calls empty_database) = Rejected "UserNotFound".
Proof.
  intros Hupd Hcalls. split.
  - destruct fault; [discriminate|].
    replace db' with (snd (updateUser r false db)) by (rewrite Hupd; reflexivity).
    apply getUser_after_update.
  - unfold getUser. fold user_info. fold (id_filter i).
    rewrite findOne_none; [reflexivity|].
    eapply Forall_impl; [|intros d; apply matches_id_false].
    apply run_updates_without; [exact Hcalls|]. constructor.
Qed.

Lemma getUser_after_updates_witness :
  (exists user,
      getUser (js "a1") false (snd (updateUser example_update false example_database))
      = Resolved user
      /\ user !! "id" = Some (BString (js "a1"))
      /\ user !! "email" = Some (BString (js "ann@y.org"))
      /\ user !! "firstname" = Some (BString (js "Ann"))
      /\ user !! "lastname" = Some (BString (js "Poe")))
  /\ getUser (js "b2") false (run_updates [(example_user, false)] empty_database)
     = Rejected "UserNotFound".
Proof.
  apply (getUser_after_updates example_update false example_database
           (snd (updateUser example_update false example_database))
           [(example_user, false)] (js "b2")).
  - reflexivity.
  - intros r' Hr'. apply list_elem_of_singleton in Hr'. injection Hr' as ->.
    vm_compute. discriminate.
Defined.

(** C8, as stated, fails: a field the document held beside the four is
    still there after the update. *)
Lemma updateUser_keeps_other_fields :
  let stored :=
    <["_id" := BObjectId 0]>
      (<["role" := BString (js "admin")]> (updateFilter example_update)) in
  getCollection user_info example_database = [example_stored]
  /\ example_stored !! "role" = Some (BString (js "admin"))
  /\ getUser (js "a1") false (snd (updateUser example_update false example_database))
     = Resolved stored
  /\ stored !! "role" = Some (BString (js "admin"))
  /\ stored <> updateFilter example_update.
Proof.
  intros stored. split; [|split; [|split; [|split]]]; try reflexivity.
  intros H. apply (f_equal (fun m => m !! "role")) in H. discriminate H.
Qed.

(** C8, amended.  An update sets the four fields [id], [email],
    [firstname] and [lastname] on the first document under the
    identifier of the record and leaves every other field of that
    document as it was; with no such document it creates one holding
    the four fields under a fresh [_id]; and it changes no other
    document, in this collection or another. *)
Theorem updateUser_sets_four_fields r db :
  let db' := snd (updateUser r false db) in
  (forall other, other <> user_info -> getCollection other db' = getCollection other db)
  /\ ((exists pre d d' post,
         getCollection user_info db = pre ++ d :: post
         /\ Forall (fun x => x !! "id" <> Some (BString (UserFormat.id r))) pre
         /\ d !! "id" = Some (BString (UserFormat.id r))
         /\ getCollection user_info db' = pre ++ d' :: post
         /\ d' !! "id" = Some (BString (UserFormat.id r))
         /\ d' !! "email" = Some (BString (UserFormat.email r))
         /\ d' !! "firstname" = Some (BString (UserFormat.firstname r))
         /\ d' !! "lastname" = Some (BString (UserFormat.lastname r))
         /\ forall f, f ∉ ["id"; "email"; "firstname"; "lastname"] -> d' !! f = d !! f)
      \/ (Forall (fun x => x !! "id" <> Some (BString (UserFormat.id r)))
                 (getCollection user_info db)
          /\ getCollection user_info db'
             = getCollection user_info db
                 ++ [<["_id" := BObjectId (next_oid db)]> (updateFilter r)])).
Proof.
  intros db'. destruct (updateUser_effect r db) as [Hother Hhere].
  split; [exact Hother|].
  destruct Hhere as [(pre & d & post & Hc & Hpre & Hd & Hc')|Hnew]; [left|right; exact Hnew].
  exists pre, d, (updateFilter r ∪ d), post.
  destruct (updateFilter_fields r d) as (H1 & H2 & H3 & H4).
  repeat split; try assumption.
  intros f Hf. apply lookup_union_r, updateFilter_other, Hf.
Qed.
End StoreClaims.

(** ** The record store: what else the code shows *)

Section StoreFurther.
Implicit Types (d filter fields : gmap string bson) (c : list (gmap string bson)).
Implicit Types (db : database) (r : UserFormat.t).

Lemma findOne_app filter c1 c2 :
  findOne filter (c1 ++ c2)
  = match findOne filter c1 with
    | Some d => Some d
    | None => findOne filter c2
    end.
Proof.
  unfold findOne. induction c1 as [|d c1 IH]; simpl; [reflexivity|].
  destruct (matches filter d); [reflexivity|exact IH].
Qed.

Lemma findOne_Some filter c d :
  findOne filter c = Some d <->
  exists pre post,
    c = pre ++ d :: post
    /\ Forall (fun d' => matches filter d' = false) pre
    /\ matches filter d = true.
Proof.
  split.
  - unfold findOne. induction c as [|d0 c IH]; simpl; [discriminate|].
    destruct (matches filter d0) eqn:Hm.
    + intros [= ->]. exists [], c. repeat split; auto.
    + intros H. destruct (IH H) as (pre & post & -> & Hpre & Hd).
      exists (d0 :: pre), post. repeat split; auto.
  - intros (pre & post & -> & Hpre & Hd).
    rewrite findOne_app_skip by exact Hpre. unfold findOne. simpl. rewrite Hd. reflexivity.
Qed.

Lemma findOne_None filter c :
  findOne filter c = None <-> Forall (fun d' => matches filter d' = false) c.
Proof.
  split; [|apply findOne_none].
  unfold findOne. induction c as [|d0 c IH]; simpl; [constructor|].
  destruct (matches filter d0) eqn:Hm; [discriminate|]. intros H. constructor; auto.
Qed.

Lemma no_id_no_match userId c :
  Forall (fun d' => matches (id_filter userId) d' = false) c
  <-> Forall (fun d' => d' !! "id" <> Some (BString userId)) c.
Proof.
  split; intros H; (eapply Forall_impl; [exact H|]); intros d; apply matches_id_false.
Qed.

Lemma set_first_at filter fields pre d post :
  Forall (fun d' => matches filter d' = false) pre -> matches filter d = true ->
  set_first filter fields (pre ++ d :: post) = Some (pre ++ (fields ∪ d) :: post).
Proof.
  induction 1 as [|d0 pre Hd0 _ IH]; intros Hd; simpl.
  - rewrite Hd. reflexivity.
  - rewrite Hd0, IH by exact Hd. reflexivity.
Qed.

Lemma set_first_nowhere filter fields c :
  Forall (fun d' => matches filter d' = false) c -> set_first filter fields c = None.
Proof.
  induction 1 as [|d0 c Hd0 _ IH]; simpl; [reflexivity|]. rewrite Hd0, IH. reflexivity.
Qed.

(** The store after an update that finds a document, and after one
    that finds none. *)
Lemma updateUser_found r db pre d post :
  getCollection user_info db = pre ++ d :: post ->
  Forall (fun d' => d' !! "id" <> Some (BString (UserFormat.id r))) pre ->
  d !! "id" = Some (BString (UserFormat.id r)) ->
  snd (updateUser r false db)
  = Database (next_oid db)
      (<[user_info := pre ++ (updateFilter r ∪ d) :: post]> (collections db)).
Proof.
  intros Hc Hpre Hd. unfold updateUser, updateOne. simpl.
  fold user_info. fold (id_filter (UserFormat.id r)). rewrite Hc.
  rewrite set_first_at; [reflexivity|apply no_id_no_match, Hpre|apply matches_id, Hd].
Qed.

Lemma updateUser_created r db :
  Forall (fun d' => d' !! "id" <> Some (BString (UserFormat.id r)))
         (getCollection user_info db) ->
  snd (updateUser r false db)
  = Database (N.succ (next_oid db))
      (<[user_info := getCollection user_info db
                        ++ [account_document r (next_oid db)]]> (collections db)).
Proof.
  intros Hc. unfold updateUser, updateOne. simpl.
  fold user_info. fold (id_filter (UserFormat.id r)).
  rewrite set_first_nowhere by (apply no_id_no_match, Hc).
  rewrite updateFilter_over_filter. reflexivity.
Qed.

(** A collection has a first document under an identifier, or none. *)
Lemma first_under userId c :
  (exists pre d post,
      c = pre ++ d :: post
      /\ Forall (fun d' => d' !! "id" <> Some (BString userId)) pre
      /\ d !! "id" = Some (BString userId))
  \/ Forall (fun d' => d' !! "id" <> Some (BString userId)) c.
Proof.
  destruct (findOne (id_filter userId) c) as [d|] eqn:E.
  - left. apply findOne_Some in E as (pre & post & -> & Hpre & Hd).
    exists pre, d, post. repeat split; [apply no_id_no_match, Hpre|apply matches_id, Hd].
  - right. apply no_id_no_match, findOne_None, E.
Qed.

Lemma account_document_id r oid :
  account_document r oid !! "id" = Some (BString (UserFormat.id r)).
Proof. reflexivity. Qed.

(** The four fields set over an account document give the account
    document of the new record, under the same [_id]. *)
Lemma update_account_document r r0 oid :
  updateFilter r ∪ account_document r0 oid = account_document r oid.
Proof.
  apply map_eq. intros k. unfold account_document.
  destruct (decide (k = "_id")) as [->|Hk].
  - rewrite lookup_union_r by reflexivity. rewrite !lookup_insert_eq. reflexivity.
  - rewrite lookup_insert_ne by congruence.
    destruct (decide (k ∈ ["id"; "email"; "firstname"; "lastname"])) as [Hin|Hout].
    + repeat (apply elem_of_cons in Hin as [->|Hin]; [reflexivity|]).
      apply elem_of_nil in Hin. contradiction.
    + rewrite lookup_union_r by (apply updateFilter_other, Hout).
      rewrite lookup_insert_ne by congruence.
      rewrite !updateFilter_other by exact Hout. reflexivity.
Qed.

Lemma union_twice fields d : fields ∪ (fields ∪ d) = fields ∪ d.
Proof.
  apply map_eq. intros k. rewrite !lookup_union.
  destruct (fields !! k), (d !! k); reflexivity.
Qed.

(** X8.  [getUser] resolves to the first stored document whose [id] is
    the identifier asked for, and rejects with ["UserNotFound"] exactly
    when no stored document carries it. *)
Theorem getUser_outcome userId db :
  (forall user,
      getUser userId false db = Resolved user <->
      exists pre post,
        getCollection ("user", "info") db = pre ++ user :: post
        /\ Forall (fun d => d !! "id" <> Some (BString userId)) pre
        /\ user !! "id" = Some (BString userId))
  /\ (getUser userId false db = Rejected "UserNotFound" <->
      Forall (fun d => d !! "id" <> Some (BString userId))
             (getCollection ("user", "info") db)).
Proof.
  unfold getUser. fold user_info. fold (id_filter userId). split.
  - intros user. split.
    + destruct (findOne _ _) as [d|] eqn:E; [|discriminate].
      intros [= ->]. apply findOne_Some in E as (pre & post & Hc & Hpre & Hd).
      exists pre, post. repeat split;
        [exact Hc|apply no_id_no_match, Hpre|apply matches_id, Hd].
    + intros (pre & post & Hc & Hpre & Hd).
      assert (E : findOne (id_filter userId) (getCollection user_info db) = Some user).
      { apply findOne_Some. exists pre, post. repeat split;
          [exact Hc|apply no_id_no_match, Hpre|apply matches_id, Hd]. }
      rewrite E. reflexivity.
  - split.
    + destruct (findOne _ _) as [d|] eqn:E; [discriminate|].
      intros _. apply no_id_no_match, findOne_None, E.
    + intros H. apply no_id_no_match, findOne_None in H. rewrite H. reflexivity.
Qed.

Lemma getUser_other_id r fault db userId fault' :
  UserFormat.id r <> userId ->
  getUser userId fault' (snd (updateUser r fault db)) = getUser userId fault' db.
Proof.
  intros Hne. destruct fault; [reflexivity|].
  assert (Hother : forall d, d !! "id" = Some (BString (UserFormat.id r)) ->
                             matches (id_filter userId) d = false).
  { intros d Hd. apply matches_id_false. rewrite Hd. congruence. }
  unfold getUser. fold user_info. fold (id_filter userId).
  destruct (first_under (UserFormat.id r) (getCollection user_info db))
    as [(pre & d & post & Hc & Hpre & Hd)|Hnone].
  - rewrite (updateUser_found r db pre d post Hc Hpre Hd).
    rewrite getCollection_insert, decide_True by reflexivity. rewrite Hc.
    rewrite !(findOne_app _ pre). unfold findOne at 2 4. simpl.
    rewrite (Hother d Hd).
    rewrite (Hother (updateFilter r ∪ d)) by (apply matches_id, updated_matches).
    reflexivity.
  - rewrite (updateUser_created r db Hnone).
    rewrite getCollection_insert, decide_True by reflexivity.
    rewrite findOne_app. unfold findOne at 2. simpl.
    rewrite (Hother _ (account_document_id r (next_oid db))).
    destruct (findOne _ _); reflexivity.
Qed.

(** X9.  An update under one identifier changes nothing of what
    [getUser] gives under another. *)
Theorem updateUser_read_frame r fault db userId fault' :
  UserFormat.id r <> userId ->
  getUser userId fault' (snd (updateUser r fault db)) = getUser userId fault' db.
Proof. apply getUser_other_id. Qed.

Lemma updateUser_read_frame_witness :
  getUser (js "b2") false (snd (updateUser example_update false example_database))
  = getUser (js "b2") false example_database.
Proof. apply updateUser_read_frame. vm_compute. discriminate. Defined.

(** X10.  An update is idempotent: the same update made again leaves
    the store as the first left it. *)
Theorem updateUser_idempotent r db :
  snd (updateUser r false (snd (updateUser r false db))) = snd (updateUser r false db).
Proof.
  destruct (first_under (UserFormat.id r) (getCollection user_info db))
    as [(pre & d & post & Hc & Hpre & Hd)|Hnone].
  - rewrite (updateUser_found r db pre d post Hc Hpre Hd).
    erewrite updateUser_found.
    + simpl. rewrite insert_insert_eq, union_twice. reflexivity.
    + rewrite getCollection_insert, decide_True by reflexivity. reflexivity.
    + exact Hpre.
    + apply matches_id, updated_matches.
  - rewrite (updateUser_created r db Hnone).
    erewrite updateUser_found.
    + simpl. rewrite insert_insert_eq, update_account_document. reflexivity.
    + rewrite getCollection_insert, decide_True by reflexivity. reflexivity.
    + exact Hnone.
    + apply account_document_id.
Qed.

(** X11.  An update removes no document: the collection keeps its
    length when a document carries the identifier, and grows by one
    when none does. *)
Theorem updateUser_count r db :
  length (getCollection ("user", "info") (snd (updateUser r false db)))
  = match getUser (UserFormat.id r) false db with
    | Resolved _ => length (getCollection ("user", "info") db)
    | Rejected _ => S (length (getCollection ("user", "info") db))
    end.
Proof.
  unfold getUser. fold user_info. fold (id_filter (UserFormat.id r)).
  destruct (first_under (UserFormat.id r) (getCollection user_info db))
    as [(pre & d & post & Hc & Hpre & Hd)|Hnone].
  - rewrite (updateUser_found r db pre d post Hc Hpre Hd).
    rewrite getCollection_insert, decide_True by reflexivity.
    assert (E : findOne (id_filter (UserFormat.id r)) (getCollection user_info db) = Some d).
    { apply findOne_Some. exists pre, post. repeat split;
        [exact Hc|apply no_id_no_match, Hpre|apply matches_id, Hd]. }
    rewrite E, Hc, !length_app. reflexivity.
  - rewrite (updateUser_created r db Hnone).
    rewrite getCollection_insert, decide_True by reflexivity.
    apply no_id_no_match, findOne_None in Hnone. rewrite Hnone.
    rewrite length_app. simpl. lia.
Qed.
End StoreFurther.

Section StoreHistory.
Implicit Types (d : gmap string bson) (db : database) (r : UserFormat.t).
Implicit Types (calls : list (UserFormat.t * bool)).

Lemma run_updates_app calls calls' db :
  run_updates (calls ++ calls') db = run_updates calls' (run_updates calls db).
Proof.
  revert db. induction calls as [|[r fault] calls IH]; intros db; simpl; [reflexivity|].
  apply IH.
Qed.

Lemma last_update_snoc i calls r fault :
  last_update i (calls ++ [(r, fault)])
  = if fault then last_update i calls
    else if decide (UserFormat.id r = i) then Some r else last_update i calls.
Proof.
  induction calls as [|[r0 fault0] calls IH]; simpl.
  - destruct fault; [reflexivity|]. destruct (decide _); reflexivity.
  - rewrite IH. destruct fault; [reflexivity|].
    destruct (decide (UserFormat.id r = i)); reflexivity.
Qed.

(** X12.  Last write wins: in a store filled by updates only,
    [getUser] resolves to a document with the four fields of the last
    update, among those that did not fault, made under the identifier,
    and rejects with ["UserNotFound"] when there was none. *)
Theorem getUser_last_update calls userId :
  match last_update userId calls with
  | Some r =>
      UserFormat.id r = userId
      /\ exists user,
           getUser userId false (run_updates calls empty_database) = Resolved user
           /\ user !! "id" = Some (BString userId)
           /\ user !! "email" = Some (BString (UserFormat.email r))
           /\ user !! "firstname" = Some (BString (UserFormat.firstname r))
           /\ user !! "lastname" = Some (BString (UserFormat.lastname r))
  | None =>
      getUser userId false (run_updates calls empty_database) = Rejected "UserNotFound"
  end.
Proof.
  induction calls as [|[r fault] calls IH] using rev_ind; [reflexivity|].
  rewrite run_updates_app, last_update_snoc. cbn [run_updates].
  destruct fault; [exact IH|].
  destruct (decide (UserFormat.id r = userId)) as [<-|Hne].
  - split; [reflexivity|].
    destruct (getUser_after_update r (run_updates calls empty_database))
      as (user & Hget & Hi & He & Hf & Hl).
    exists user. auto.
  - rewrite getUser_other_id by exact Hne. exact IH.
Qed.

Lemma well_kept_empty : well_kept empty_database.
Proof. exists []. repeat split; constructor. Qed.

(** One update keeps a collection of accounts in good order. *)
Lemma updateUser_well_kept r fault db :
  well_kept db -> well_kept (snd (updateUser r fault db)).
Proof.
  intros Hdb. destruct fault; [exact Hdb|].
  destruct Hdb as (entries & Hc & Hids & Hoids & Hbound).
  destruct (first_under (UserFormat.id r) (getCollection user_info db))
    as [(pre & d & post & Hc' & Hpre & Hd)|Hnone].
  - rewrite (updateUser_found r db pre d post Hc' Hpre Hd).
    rewrite Hc' in Hc. symmetry in Hc.
    apply map_eq_app in Hc as (e1 & e2' & -> & He1 & He2).
    apply map_eq_cons in He2 as ([r0 o0] & e2 & -> & Hd0 & He2).
    cbn [fst snd] in Hd0. subst d pre post.
    rewrite account_document_id in Hd. injection Hd as Hid.
    exists (e1 ++ (r, o0) :: e2). unfold well_kept.
    rewrite getCollection_insert, decide_True by reflexivity.
    rewrite update_account_document.
    rewrite !map_app in *. cbn [map fst snd] in *. rewrite <- Hid.
    repeat split; try assumption.
    apply Forall_app in Hbound as [Hb1 Hb2]. apply Forall_cons in Hb2 as [Hb Hb2].
    apply Forall_app. split; [exact Hb1|]. apply Forall_cons. split; assumption.
  - rewrite (updateUser_created r db Hnone).
    exists (entries ++ [(r, next_oid db)]).
    rewrite getCollection_insert, decide_True by reflexivity.
    rewrite !map_app. cbn [map fst snd next_oid].
    split; [rewrite Hc; reflexivity|]. split; [|split].
    + apply NoDup_app. split; [exact Hids|]. split; [|apply NoDup_singleton].
      intros i Hi Hr. apply list_elem_of_singleton in Hr. subst i.
      apply list_elem_of_In, in_map_iff in Hi as ([r0 o0] & Hid & Hin).
      cbn [fst] in Hid. rewrite Hc in Hnone. rewrite Forall_forall in Hnone.
      apply (Hnone (account_document r0 o0)).
      * apply list_elem_of_In, in_map_iff. exists (r0, o0). split; [reflexivity|exact Hin].
      * rewrite account_document_id, Hid. reflexivity.
    + apply NoDup_app. split; [exact Hoids|]. split; [|apply NoDup_singleton].
      intros o Ho Hn. apply list_elem_of_singleton in Hn. subst o.
      apply list_elem_of_In, in_map_iff in Ho as (e & Ho & Hin).
      rewrite Forall_forall in Hbound. apply list_elem_of_In in Hin.
      specialize (Hbound e Hin). lia.
    + apply Forall_app. split.
      * eapply Forall_impl; [exact Hbound|]. intros e He. cbv beta in *. lia.
      * apply Forall_cons. split; [cbn [snd]; lia|constructor].
Qed.

(** X13.  A collection of accounts stays in good order under any
    sequence of updates: every document holds the four fields and an
    [_id] and nothing else, no two documents carry one identifier, and
    no two one [_id]. *)
Theorem run_updates_well_kept calls db :
  well_kept db -> well_kept (run_updates calls db).
Proof.
  revert db. induction calls as [|[r fault] calls IH]; intros db Hdb; simpl; [exact Hdb|].
  apply IH, updateUser_well_kept, Hdb.
Qed.

Lemma run_updates_well_kept_witness :
  well_kept (run_updates [(example_user, false); (example_update, false)] empty_database).
Proof.
  apply run_updates_well_kept. exists []. repeat split; constructor.
Defined.
End StoreHistory.
